(** * Subtitle translator core: a shallow embedding of [app.py]

    The development follows the core functions of the subtitle translator:
    [parse_srt], [chunk_text], [clean_json_text], [translate_chunk] and
    [rebuild_srt].  Python strings are modelled as [string] (one [ascii] per
    Python character, code points below 256), Python ints as [Z], Python
    lists as [list], and the dictionaries produced by [parse_srt] as the
    record [srt_item]. *)

From Stdlib Require Import String Ascii List ZArith QArith Qround Bool Arith Lia Lqa Sorted.
Import ListNotations.

Open Scope string_scope.
Open Scope list_scope.
Open Scope Z_scope.

(** String concatenation gets a notation of its own, so that [++] stays the
    list append throughout. *)
Infix "+++" := String.append (right associativity, at level 60).

(* ================================================================== *)
(** * Python string primitives *)
(* ================================================================== *)

Module PyStr.

Definition nl : ascii := ascii_of_nat 10.
Definition dquote : ascii := ascii_of_nat 34.
Definition backslash : ascii := ascii_of_nat 92.

(** [lit] reads a literal written with the escapes [\n], [\t], [\r],
    [\q] (a double quote) and [\\]; it is only a way to write the string
    constants of the examples. *)
Fixpoint lit (s : string) : string :=
  match s with
  | EmptyString => EmptyString
  | String c rest =>
      if Ascii.eqb c backslash then
        match rest with
        | EmptyString => String c EmptyString
        | String d rest' =>
            if Ascii.eqb d "n" then String nl (lit rest')
            else if Ascii.eqb d "t" then String (ascii_of_nat 9) (lit rest')
            else if Ascii.eqb d "r" then String (ascii_of_nat 13) (lit rest')
            else if Ascii.eqb d "q" then String dquote (lit rest')
            else String d (lit rest')
        end
      else String c (lit rest)
  end.

(** [len(s)] *)
Definition len (s : string) : Z := Z.of_nat (String.length s).

(** [str.isspace] on one character: the code points below 256 that Python
    treats as whitespace (also the class [\s] of [re] on [str] patterns). *)
Definition is_space (c : ascii) : bool :=
  let n := nat_of_ascii c in
  ((9 <=? n) && (n <=? 13))%nat || ((28 <=? n) && (n <=? 32))%nat
  || (n =? 133)%nat || (n =? 160)%nat.

(** The class [\d] below code point 256. *)
Definition is_digit (c : ascii) : bool :=
  let n := nat_of_ascii c in ((48 <=? n) && (n <=? 57))%nat.

(** [s.find(c)] for a one-character needle: the index of the first
    occurrence, [-1] when there is none. *)
Fixpoint find_from (c : ascii) (s : string) (i : Z) : Z :=
  match s with
  | EmptyString => -1
  | String d rest => if Ascii.eqb d c then i else find_from c rest (i + 1)
  end.

Definition find (s : string) (c : ascii) : Z := find_from c s 0.

(** [s.rfind(c)]: the index of the last occurrence, [-1] when there is
    none. *)
Fixpoint rfind_from (c : ascii) (s : string) (i : Z) (last : Z) : Z :=
  match s with
  | EmptyString => last
  | String d rest =>
      rfind_from c rest (i + 1) (if Ascii.eqb d c then i else last)
  end.

Definition rfind (s : string) (c : ascii) : Z := rfind_from c s 0 (-1).

(** [s[a:b]] with Python's treatment of negative and out-of-range
    bounds. *)
Definition clamp (n : Z) (i : Z) : Z :=
  if i <? 0 then Z.max 0 (i + n) else Z.min i n.

Definition slice (s : string) (a b : Z) : string :=
  let a' := clamp (len s) a in
  let b' := clamp (len s) b in
  substring (Z.to_nat a') (Z.to_nat (b' - a')) s.

(** [s.lstrip()], [s.rstrip()], [s.strip()] *)
Fixpoint lstrip (s : string) : string :=
  match s with
  | EmptyString => EmptyString
  | String c rest => if is_space c then lstrip rest else s
  end.

Fixpoint rstrip (s : string) : string :=
  match s with
  | EmptyString => EmptyString
  | String c rest =>
      match rstrip rest with
      | EmptyString => if is_space c then EmptyString else String c EmptyString
      | r => String c r
      end
  end.

Definition strip (s : string) : string := rstrip (lstrip s).

(** [s.startswith(p)] *)
Definition startswith (s p : string) : bool := String.prefix p s.

(** [s.split(c, 1)]: at most one cut, at the first occurrence of [c]. *)
Fixpoint split1 (s : string) (c : ascii) : list string :=
  match s with
  | EmptyString => [EmptyString]
  | String d rest =>
      if Ascii.eqb d c then [EmptyString; rest]
      else match split1 rest c with
           | [a] => [String d a]
           | a :: more => String d a :: more
           | [] => [String d EmptyString]
           end
  end.

(** [s.rsplit(c, 1)]: at most one cut, at the last occurrence of [c]. *)
Fixpoint rsplit1 (s : string) (c : ascii) : list string :=
  match s with
  | EmptyString => [EmptyString]
  | String d rest =>
      match rsplit1 rest c with
      | [a; b] => [String d a; b]
      | _ => if Ascii.eqb d c then [EmptyString; rest] else [s]
      end
  end.

(** [sep.join(parts)] *)
Fixpoint join (sep : string) (parts : list string) : string :=
  match parts with
  | [] => EmptyString
  | [p] => p
  | p :: more => p +++ sep +++ join sep more
  end.

End PyStr.

(* ================================================================== *)
(** * Data model *)
(* ================================================================== *)

(** One parsed subtitle block: the dictionary with the keys ['index'],
    ['time'] and ['text'] that [parse_srt] builds. *)
Record srt_item : Type := mk_item {
  index : string;
  time : string;
  text : string
}.

(* ================================================================== *)
(** * Chunker: [chunk_text] *)
(* ================================================================== *)

Module Chunker.

(** The three loop variables of [chunk_text]. *)
Record loop_state : Type := mk_state {
  chunks : list (list srt_item);
  current_chunk : list srt_item;
  current_length : Z
}.

Definition init : loop_state :=
  {| chunks := []; current_chunk := []; current_length := 0 |}.

(** The body of [for item in parsed_data]. *)
Definition step (chunk_size : Z) (st : loop_state) (item : srt_item)
  : loop_state :=
  let text_len := PyStr.len (text item) in
  let st1 :=
    if current_length st + text_len >? chunk_size
    then {| chunks := chunks st ++ [current_chunk st];
            current_chunk := [];
            current_length := 0 |}
    else st in
  {| chunks := chunks st1;
     current_chunk := current_chunk st1 ++ [item];
     current_length := current_length st1 + text_len |}.

Definition chunk_text (parsed_data : list srt_item) (chunk_size : Z)
  : list (list srt_item) :=
  let st := fold_left (step chunk_size) parsed_data init in
  match current_chunk st with
  | [] => chunks st
  | _ :: _ => chunks st ++ [current_chunk st]
  end.

(** The records seen so far: the closed batches followed by the open
    one. *)
Definition seen (st : loop_state) : list srt_item :=
  concat (chunks st) ++ current_chunk st.

(** A single record whose text (20 characters) exceeds a budget of 10. *)
Definition oversized : srt_item :=
  mk_item "1" "00:00:01,000 --> 00:00:02,000" "aaaaaaaaaaaaaaaaaaaa".

End Chunker.

(* ================================================================== *)
(** * Response sanitizer: [clean_json_text] *)
(* ================================================================== *)

Module Sanitizer.
Import PyStr.

Definition fence : string := "```".

(** [clean_json_text].  Every operation in the [try] block is total on a
    [str], so the [except] branch (which returns [text] as it is) cannot
    be taken for a string argument and has no counterpart here.  The
    subscripts [[-1]] and [[0]] are applied to the non-empty lists that
    [split] and [rsplit] return. *)
Definition clean_json_text (text : string) : string :=
  let start_idx := find text "{" in
  let end_idx := rfind text "}" in
  if negb (start_idx =? -1) && negb (end_idx =? -1) then
    slice text start_idx (end_idx + 1)
  else
    let text := strip text in
    let text :=
      if startswith text fence then
        let text := last (split1 text nl) EmptyString in
        hd EmptyString (rsplit1 text nl)
      else text in
    strip text.

(** ** The sanitizer as the specification words it *)

(** All the lines of a text ([s.split("\n")]). *)
Fixpoint lines (s : string) : list string :=
  match s with
  | EmptyString => [EmptyString]
  | String c rest =>
      if Ascii.eqb c nl then EmptyString :: lines rest
      else match lines rest with
           | l :: more => String c l :: more
           | [] => [String c EmptyString]
           end
  end.

Definition unlines (ls : list string) : string := join (String nl EmptyString) ls.

Fixpoint contains_char (s : string) (c : ascii) : bool :=
  match s with
  | EmptyString => false
  | String d rest => Ascii.eqb d c || contains_char rest c
  end.

(** Position of the first and of the last occurrence of a character. *)
Fixpoint first_pos (s : string) (c : ascii) : option nat :=
  match s with
  | EmptyString => None
  | String d rest =>
      if Ascii.eqb d c then Some O
      else option_map S (first_pos rest c)
  end.

Fixpoint last_pos (s : string) (c : ascii) : option nat :=
  match s with
  | EmptyString => None
  | String d rest =>
      match last_pos rest c with
      | Some n => Some (S n)
      | None => if Ascii.eqb d c then Some O else None
      end
  end.

(** The characters at positions [i], ..., [j], both included (none when
    [j < i]). *)
Definition between (s : string) (i j : nat) : string :=
  substring i (S j - i) s.

(** "Drop the first and last lines": the first and the last element of
    the list of lines are removed. *)
Definition drop_first_and_last_lines (s : string) : string :=
  unlines (removelast (tl (lines s))).

(** The piecewise function of the specification: (a) brace extraction
    when both braces occur; (b) otherwise trim, and for a fenced text drop
    the first and the last line and trim again; (c) otherwise the trimmed
    text. *)
Definition sanitizer_spec (text : string) : string :=
  match first_pos text "{", last_pos text "}" with
  | Some i, Some j => between text i j
  | _, _ =>
      let t := strip text in
      if startswith t fence then strip (drop_first_and_last_lines t)
      else t
  end.

(** What the code does with a fenced text: the first line goes only when
    a second line exists, and the last line goes only when a line is left
    before it. *)
Definition drop_fence_lines (s : string) : string :=
  match lines s with
  | [] => s
  | [l] => l
  | [_; l2] => l2
  | _ :: l2 :: more => unlines (removelast (l2 :: more))
  end.

Definition sanitizer_amended (text : string) : string :=
  match first_pos text "{", last_pos text "}" with
  | Some i, Some j => between text i j
  | _, _ =>
      let t := strip text in
      if startswith t fence then strip (drop_fence_lines t)
      else t
  end.

(** The raw text of the sanitizer example. *)
Definition example_raw : string :=
  lit "Sure! Here's the result:\n```json\n{\qtranslated_items\q:[{\qid\q:0,\qtext\q:\qhi\q}]}\n```\nLet me know if needed.".

Definition example_json : string :=
  lit "{\qtranslated_items\q:[{\qid\q:0,\qtext\q:\qhi\q}]}".

(** A line holds no newline. *)
Definition no_nl (l : string) : Prop := contains_char l nl = false.

(** A fenced text of two lines, without braces. *)
Definition short_fence : string := lit "```json\nhi".

End Sanitizer.

(* ================================================================== *)
(** * Python values decoded from JSON *)
(* ================================================================== *)

Module PyVal.

(** The values [json.loads] can return.  A JSON number with a fraction or
    an exponent becomes a Python float; a finite float is the rational it
    denotes ([nan] and the infinities are not represented).  A dictionary
    is the list of its entries in insertion order; its keys are strings. *)
#[warnings="-register-all"]
Inductive pyval : Type :=
| PNone
| PBool (b : bool)
| PInt (z : Z)
| PFloat (q : Q)
| PStr (s : string)
| PList (l : list pyval)
| PDict (d : list (string * pyval)).

(** The exceptions the translation protocol can meet.  [GenerationError]
    carries the message of an exception raised by the generation call (or
    by reading [response.text]). *)
Inductive exn : Type :=
| GenerationError (msg : string)
| JSONDecodeError
| AttributeError
| TypeError
| IndexError
| ValueError.

(** [d.get(k)] on the entries of a dictionary. *)
Fixpoint lookup (k : string) (d : list (string * pyval)) : option pyval :=
  match d with
  | [] => None
  | (k', v) :: rest => if String.eqb k k' then Some v else lookup k rest
  end.

(** [x.get(k, default)]: only a dictionary has the method. *)
Definition get (x : pyval) (k : string) (default : pyval) : exn + pyval :=
  match x with
  | PDict d => inr (match lookup k d with Some v => v | None => default end)
  | _ => inl AttributeError
  end.

(** The numeric value of [bool], [int] and [float]. *)
Definition num_val (x : pyval) : option Q :=
  match x with
  | PBool b => Some (inject_Z (if b then 1 else 0))
  | PInt z => Some (inject_Z z)
  | PFloat q => Some q
  | _ => None
  end.

Definition Qltb (a b : Q) : bool := negb (Qle_bool b a).

(** [x == y] *)
Fixpoint py_eq (x y : pyval) {struct x} : bool :=
  match x, y with
  | PNone, PNone => true
  | PStr s, PStr t => String.eqb s t
  | PList l1, PList l2 =>
      (fix go (l1 l2 : list pyval) : bool :=
         match l1, l2 with
         | [], [] => true
         | a :: l1', b :: l2' => py_eq a b && go l1' l2'
         | _, _ => false
         end) l1 l2
  | PDict d1, PDict d2 =>
      (length d1 =? length d2)%nat &&
      (fix go (d1 : list (string * pyval)) : bool :=
         match d1 with
         | [] => true
         | (k, v) :: d1' =>
             match lookup k d2 with
             | Some v' => py_eq v v'
             | None => false
             end && go d1'
         end) d1
  | _, _ =>
      match num_val x, num_val y with
      | Some a, Some b => Qeq_bool a b
      | _, _ => false
      end
  end.

(** [x < y]; [None] stands for the [TypeError] of unorderable operands. *)
Fixpoint py_lt (x y : pyval) {struct x} : option bool :=
  match x, y with
  | PStr s, PStr t => Some (String.ltb s t)
  | PList l1, PList l2 =>
      (fix go (l1 l2 : list pyval) : option bool :=
         match l1, l2 with
         | [], [] => Some false
         | [], _ :: _ => Some true
         | _ :: _, [] => Some false
         | a :: l1', b :: l2' =>
             if py_eq a b then go l1' l2' else py_lt a b
         end) l1 l2
  | _, _ =>
      match num_val x, num_val y with
      | Some a, Some b => Some (Qltb a b)
      | _, _ => None
      end
  end.

(** [needle in s] for two strings. *)
Fixpoint str_contains (s needle : string) : bool :=
  String.prefix needle s ||
  match s with
  | EmptyString => false
  | String _ rest => str_contains rest needle
  end.

End PyVal.

(* ================================================================== *)
(** * Translation protocol: [translate_chunk] *)
(* ================================================================== *)

Module Protocol.
Import PyStr PyVal.

(** ** The request *)

Inductive harm_category : Type :=
| HARM_CATEGORY_HARASSMENT
| HARM_CATEGORY_HATE_SPEECH
| HARM_CATEGORY_SEXUALLY_EXPLICIT
| HARM_CATEGORY_DANGEROUS_CONTENT.

Inductive harm_block_threshold : Type := BLOCK_NONE.

(** The prompt is an f-string; the record keeps the values interpolated
    into its fixed text. *)
Record prompt : Type := mk_prompt {
  prompt_src_lang : string;
  prompt_tgt_lang : string;
  prompt_reasoning_instruction : bool;
  prompt_context_section : option string;
  prompt_input_json : string
}.

Record generation_config : Type := mk_config {
  temperature : Q;
  response_mime_type : string
}.

Record request : Type := mk_request {
  req_prompt : prompt;
  req_safety_settings : list (harm_category * harm_block_threshold);
  req_generation_config : generation_config
}.

(** ** Diagnostics: the dictionary [debug_info] *)

Inductive status : Type :=
| Unknown
| Success
| Error (e : exn).

Inductive reasoning_mode : Type := ON | OFF.

Record diagnostics : Type := mk_debug {
  dbg_input_json : string;
  dbg_raw_response : string;
  dbg_status : status;
  dbg_attempts : Z;
  dbg_duration : Q;
  dbg_context_used : string;
  dbg_reasoning_mode : reasoning_mode
}.

Definition set_raw_response (d : diagnostics) (r : string) : diagnostics :=
  mk_debug (dbg_input_json d) r (dbg_status d) (dbg_attempts d)
           (dbg_duration d) (dbg_context_used d) (dbg_reasoning_mode d).

Definition set_status (d : diagnostics) (s : status) : diagnostics :=
  mk_debug (dbg_input_json d) (dbg_raw_response d) s (dbg_attempts d)
           (dbg_duration d) (dbg_context_used d) (dbg_reasoning_mode d).

Definition set_attempts (d : diagnostics) (n : Z) : diagnostics :=
  mk_debug (dbg_input_json d) (dbg_raw_response d) (dbg_status d) n
           (dbg_duration d) (dbg_context_used d) (dbg_reasoning_mode d).

Definition set_duration (d : diagnostics) (t : Q) : diagnostics :=
  mk_debug (dbg_input_json d) (dbg_raw_response d) (dbg_status d)
           (dbg_attempts d) t (dbg_context_used d) (dbg_reasoning_mode d).

Definition set_context_used (d : diagnostics) (c : string) : diagnostics :=
  mk_debug (dbg_input_json d) (dbg_raw_response d) (dbg_status d)
           (dbg_attempts d) (dbg_duration d) c (dbg_reasoning_mode d).

(** ** Effects *)

(** What the function does to the outside, in order. *)
Inductive event : Type :=
| EvGenerate (r : request)
| EvSleep (seconds : Q).

(** ** The pure part of one attempt *)

(** [if "translated_items" in result_json: ... else: ...].  For a value
    that is not a dictionary either the membership test, the subscript or
    [.values()] raises. *)
Definition locate_items (result_json : pyval) : exn + pyval :=
  match result_json with
  | PDict d =>
      match lookup "translated_items" d with
      | Some items => inr items
      | None =>
          match d with
          | (_, v) :: _ => inr v
          | [] => inl IndexError
          end
      end
  | PList l =>
      if existsb (fun x => py_eq (PStr "translated_items") x) l
      then inl TypeError else inl AttributeError
  | PStr s =>
      if str_contains s "translated_items"
      then inl TypeError else inl AttributeError
  | _ => inl TypeError
  end.

(** The sort key [lambda x: x.get("id", -1)]. *)
Definition sort_key (x : pyval) : exn + pyval := get x "id" (PInt (-1)).

(** The keys are computed for every element before any comparison. *)
Fixpoint decorate (items : list pyval) : exn + list (pyval * pyval) :=
  match items with
  | [] => inr []
  | x :: rest =>
      match sort_key x with
      | inl e => inl e
      | inr k =>
          match decorate rest with
          | inl e => inl e
          | inr r => inr ((k, x) :: r)
          end
      end
  end.

(** [list.sort] is stable and compares keys with [<] only.  It is
    modelled by the stable insertion sort: an element goes in front of
    the first element whose key is greater.  A comparison of unorderable
    keys raises [TypeError]. *)
Fixpoint insert_sorted (k x : pyval) (acc : list (pyval * pyval))
  : exn + list (pyval * pyval) :=
  match acc with
  | [] => inr [(k, x)]
  | (k', y) :: rest =>
      match py_lt k k' with
      | None => inl TypeError
      | Some true => inr ((k, x) :: acc)
      | Some false =>
          match insert_sorted k x rest with
          | inl e => inl e
          | inr r => inr ((k', y) :: r)
          end
      end
  end.

Fixpoint sort_decorated (todo acc : list (pyval * pyval))
  : exn + list (pyval * pyval) :=
  match todo with
  | [] => inr acc
  | (k, x) :: rest =>
      match insert_sorted k x acc with
      | inl e => inl e
      | inr acc' => sort_decorated rest acc'
      end
  end.

(** [items.sort(key=lambda x: x.get("id", -1))]: only a list has the
    method. *)
Definition sort_items (items : pyval) : exn + list pyval :=
  match items with
  | PList l =>
      match decorate l with
      | inl e => inl e
      | inr dl =>
          match sort_decorated dl [] with
          | inl e => inl e
          | inr sorted => inr (map snd sorted)
          end
      end
  | _ => inl AttributeError
  end.

(** The inner loop [for item in items]: the text of the first item whose
    id equals [i], if any. *)
Fixpoint scan_items (items : list pyval) (i : Z) : exn + option pyval :=
  match items with
  | [] => inr None
  | item :: rest =>
      match get item "id" PNone with
      | inl e => inl e
      | inr id =>
          if py_eq id (PInt i) then
            match get item "text" (PStr "") with
            | inl e => inl e
            | inr t => inr (Some t)
            end
          else scan_items rest i
      end
  end.

(** The outer loop [for i in range(len(text_list))], from position [i]
    on, over the texts that remain. *)
Fixpoint reconcile (items : list pyval) (texts : list string) (i : Z)
  : exn + list pyval :=
  match texts with
  | [] => inr []
  | t :: rest =>
      match scan_items items i with
      | inl e => inl e
      | inr found =>
          match reconcile items rest (i + 1) with
          | inl e => inl e
          | inr out =>
              inr (match found with Some v => v | None => PStr t end :: out)
          end
      end
  end.

(** ** Reconciliation as a function of the response array *)

(** [item.get("id") == i] for a dictionary. *)
Definition has_id (i : Z) (item : pyval) : bool :=
  match item with
  | PDict d =>
      py_eq (match lookup "id" d with Some v => v | None => PNone end) (PInt i)
  | _ => false
  end.

(** [item.get("text", "")] for a dictionary. *)
Definition text_of (item : pyval) : pyval :=
  match item with
  | PDict d => match lookup "text" d with Some v => v | None => PStr "" end
  | _ => PStr ""
  end.

(** Position by position from [i] on: the text of the first item of
    [items] whose id equals the position, the input text when there is
    none. *)
Fixpoint reconciled (items : list pyval) (texts : list string) (i : Z)
  : list pyval :=
  match texts with
  | [] => []
  | t :: rest =>
      match List.find (has_id i) items with
      | Some item => text_of item
      | None => PStr t
      end :: reconciled items rest (i + 1)
  end.

Definition is_dict (x : pyval) : bool :=
  match x with PDict _ => true | _ => false end.

Definition is_str (x : pyval) : bool :=
  match x with PStr _ => true | _ => false end.

(** A decorated element carries the key that [sort_key] gives it. *)
Definition decorated_ok (p : pyval * pyval) : Prop :=
  sort_key (snd p) = inr (fst p).

(** Two decorated elements in key order, as far as their keys are
    numbers. *)
Definition key_le (p p' : pyval * pyval) : Prop :=
  forall a b, num_val (fst p) = Some a -> num_val (fst p') = Some b -> (a <= b)%Q.

Definition is_generate (e : event) : bool :=
  match e with EvGenerate _ => true | EvSleep _ => false end.

(** [round(x, 2)] on the rational: the nearest multiple of 1/100, a tie
    going to the even one. *)
Definition round2 (x : Q) : Q :=
  let y := Qmult x (inject_Z 100) in
  let f := Qfloor y in
  let r := Qminus y (inject_Z f) in
  let n :=
    match Qcompare r (1 # 2) with
    | Lt => f
    | Gt => f + 1
    | Eq => if Z.even f then f else f + 1
    end in
  Qmake n 100.

Section WithEnvironment.

(** The collaborators of the core: the generation service with the
    clock (a state of type [World]), and the [json] module. *)
Variable World : Type.
Variable generate_content : World -> request -> (exn + string) * World.
Variable time_time : World -> Q * World.
Variable time_sleep : Q -> World -> World.
Variable json_loads : string -> option pyval.
Variable json_dumps : pyval -> string.

(** A computation threads the world and appends to the event log. *)
Definition M (A : Type) : Type := World * list event -> A * (World * list event).

Definition ret {A} (a : A) : M A := fun s => (a, s).

Definition bind {A B} (m : M A) (f : A -> M B) : M B :=
  fun s => let (a, s') := m s in f a s'.

Notation "x <- m ;; k" := (bind m (fun x => k))
  (at level 61, m at next level, right associativity).

Definition now : M Q :=
  fun s => let (t, w) := time_time (fst s) in (t, (w, snd s)).

Definition sleep (seconds : Q) : M unit :=
  fun s => (tt, (time_sleep seconds (fst s), snd s ++ [EvSleep seconds])).

Definition generate (r : request) : M (exn + string) :=
  fun s =>
    let (out, w) := generate_content (fst s) r in
    (out, (w, snd s ++ [EvGenerate r])).

(** From the raw response text to the sorted item array: sanitize,
    decode, locate the array, sort it by id. *)
Definition response_items (raw_text : string) : exn + list pyval :=
  let cleaned_text := Sanitizer.clean_json_text raw_text in
  match json_loads cleaned_text with
  | None => inl JSONDecodeError
  | Some result_json =>
      match locate_items result_json with
      | inl e => inl e
      | inr items => sort_items items
      end
  end.

(** The statements of the [try] block after
    [debug_info["raw_response"] = raw_text]. *)
Definition process_response (text_list : list string) (raw_text : string)
  : exn + list pyval :=
  match response_items raw_text with
  | inl e => inl e
  | inr items =>
      match reconcile items text_list 0 with
      | inl e => inl e
      | inr translated_list =>
          if negb (Z.of_nat (length translated_list)
                   =? Z.of_nat (length text_list))
          then inl ValueError
          else inr translated_list
      end
  end.

(** The outcome of one attempt: the [try] block, from the answer of the
    generation call on. *)
Definition attempt_outcome (text_list : list string) (response : exn + string)
  : exn + list pyval :=
  match response with
  | inl e => inl e
  | inr raw_text => process_response text_list raw_text
  end.

Definition max_retries : Z := 1.

(** [for attempt in range(max_retries + 1)], over the attempt numbers
    that remain.  [None] is the value of a function that leaves the
    loop without [return]. *)
Fixpoint retry_loop (attempts : list Z) (text_list : list string)
    (req : request) (start_time : Q) (debug_info : diagnostics)
  : M (option (list pyval * diagnostics)) :=
  match attempts with
  | [] => ret None
  | attempt :: more =>
      let debug_info := set_attempts debug_info (attempt + 1) in
      response <- generate req ;;
      let '(outcome, debug_info) :=
        match response with
        | inl e => (inl e, debug_info)
        | inr raw_text =>
            (process_response text_list raw_text,
             set_raw_response debug_info raw_text)
        end in
      match outcome with
      | inr translated_list =>
          let debug_info := set_status debug_info Success in
          t <- now ;;
          ret (Some (translated_list,
                     set_duration debug_info (round2 (Qminus t start_time))))
      | inl e =>
          let debug_info := set_status debug_info (Error e) in
          if attempt <? max_retries then
            _ <- sleep (inject_Z 1) ;;
            retry_loop more text_list req start_time debug_info
          else
            t <- now ;;
            ret (Some (map PStr text_list,
                       set_duration debug_info (round2 (Qminus t start_time))))
      end
  end.

(** [[{"id": i, "text": t} for i, t in enumerate(text_list)]] *)
Fixpoint indexed_input (text_list : list string) (i : Z) : list pyval :=
  match text_list with
  | [] => []
  | t :: rest =>
      PDict [("id", PInt i); ("text", PStr t)] :: indexed_input rest (i + 1)
  end.

Definition range (n : Z) : list Z := map Z.of_nat (seq 0 (Z.to_nat n)).

(** The dictionary [debug_info] as it stands when the loop is entered. *)
Definition initial_debug_info (text_list : list string)
    (context_guide : string) (enable_reasoning : bool) : diagnostics :=
  let debug_info :=
    {| dbg_input_json := ""; dbg_raw_response := "";
       dbg_status := Unknown; dbg_attempts := 0; dbg_duration := 0%Q;
       dbg_context_used := "None";
       dbg_reasoning_mode := if enable_reasoning then ON else OFF |} in
  let input_wrapper := PDict [("items", PList (indexed_input text_list 0))] in
  let input_json := json_dumps input_wrapper in
  let debug_info :=
    mk_debug input_json (dbg_raw_response debug_info)
             (dbg_status debug_info) (dbg_attempts debug_info)
             (dbg_duration debug_info) (dbg_context_used debug_info)
             (dbg_reasoning_mode debug_info) in
  match context_guide with
  | EmptyString => debug_info
  | _ => set_context_used debug_info context_guide
  end.

(** The prompt, the safety settings and the generation configuration. *)
Definition build_request (text_list : list string)
    (src_lang tgt_lang context_guide : string) (enable_reasoning : bool)
  : request :=
  let input_wrapper := PDict [("items", PList (indexed_input text_list 0))] in
  let input_json := json_dumps input_wrapper in
  let context_section :=
    match context_guide with
    | EmptyString => None
    | _ => Some context_guide
    end in
  let prompt :=
    mk_prompt src_lang tgt_lang enable_reasoning context_section input_json in
  let safety_settings :=
    [ (HARM_CATEGORY_HARASSMENT, BLOCK_NONE);
      (HARM_CATEGORY_HATE_SPEECH, BLOCK_NONE);
      (HARM_CATEGORY_SEXUALLY_EXPLICIT, BLOCK_NONE);
      (HARM_CATEGORY_DANGEROUS_CONTENT, BLOCK_NONE) ] in
  let generation_config :=
    {| temperature := if enable_reasoning then (2 # 10) else (1 # 10);
       response_mime_type := "application/json" |} in
  mk_request prompt safety_settings generation_config.

Definition translate_chunk (text_list : list string)
    (src_lang tgt_lang context_guide : string) (enable_reasoning : bool)
  : M (option (list pyval * diagnostics)) :=
  start_time <- now ;;
  retry_loop (range (max_retries + 1)) text_list
             (build_request text_list src_lang tgt_lang context_guide
                            enable_reasoning)
             start_time
             (initial_debug_info text_list context_guide enable_reasoning).

(** Running a computation from a world, with an empty event log. *)
Definition run {A} (m : M A) (w : World) : A * (World * list event) :=
  m (w, []).

End WithEnvironment.

End Protocol.

(* ================================================================== *)
(** * A reader for a fragment of JSON *)
(* ================================================================== *)

(** The theorems on [translate_chunk] hold for any [json_loads].  The
    examples need the value of concrete texts: [Json.loads] reads the JSON
    fragment they are written in (objects, arrays, strings with the simple
    escapes, integers, [true], [false], [null]) and rejects everything
    else. *)
Module Json.
Import PyStr PyVal.

Definition is_json_ws (c : ascii) : bool :=
  let n := nat_of_ascii c in
  ((n =? 32) || (n =? 9) || (n =? 10) || (n =? 13))%nat.

Fixpoint skip_ws (s : string) : string :=
  match s with
  | String c rest => if is_json_ws c then skip_ws rest else s
  | EmptyString => EmptyString
  end.

(** The characters of a string literal after its opening quote. *)
Fixpoint string_body (s : string) : option (string * string) :=
  match s with
  | EmptyString => None
  | String c rest =>
      if Ascii.eqb c dquote then Some (EmptyString, rest)
      else if Ascii.eqb c backslash then
        match rest with
        | String e rest' =>
            let put (x : ascii) :=
              option_map (fun p => (String x (fst p), snd p)) (string_body rest') in
            if Ascii.eqb e dquote then put dquote
            else if Ascii.eqb e backslash then put backslash
            else if Ascii.eqb e "/" then put "/"%char
            else if Ascii.eqb e "n" then put nl
            else if Ascii.eqb e "t" then put (ascii_of_nat 9)
            else if Ascii.eqb e "r" then put (ascii_of_nat 13)
            else if Ascii.eqb e "b" then put (ascii_of_nat 8)
            else if Ascii.eqb e "f" then put (ascii_of_nat 12)
            else None
        | EmptyString => None
        end
      else if (nat_of_ascii c <? 32)%nat then None
      else option_map (fun p => (String c (fst p), snd p)) (string_body rest)
  end.

Fixpoint digits (s : string) (acc : Z) (seen : bool)
  : option (Z * string) :=
  match s with
  | String c rest =>
      if is_digit c
      then digits rest (10 * acc + Z.of_nat (nat_of_ascii c - 48)) true
      else if seen then Some (acc, s) else None
  | EmptyString => if seen then Some (acc, s) else None
  end.

Definition starts_fraction (s : string) : bool :=
  match s with
  | String c _ => Ascii.eqb c "." || Ascii.eqb c "e" || Ascii.eqb c "E"
  | EmptyString => false
  end.

Definition leading_zero (s : string) : bool :=
  match s with
  | String "0" (String d _) => is_digit d
  | _ => false
  end.

Definition integer (s : string) : option (pyval * string) :=
  let '(neg, s') :=
    match s with
    | String "-" rest => (true, rest)
    | _ => (false, s)
    end in
  if leading_zero s' then None
  else match digits s' 0 false with
       | Some (n, rest) =>
           if starts_fraction rest then None
           else Some (PInt (if neg then - n else n), rest)
       | None => None
       end.

Definition keyword (s : string) : option (pyval * string) :=
  if String.prefix "true" s then Some (PBool true, substring 4 (String.length s - 4) s)
  else if String.prefix "false" s then Some (PBool false, substring 5 (String.length s - 5) s)
  else if String.prefix "null" s then Some (PNone, substring 4 (String.length s - 4) s)
  else None.

(** A repeated key keeps its place and takes the last value, as in a
    Python dictionary. *)
Fixpoint dict_set (d : list (string * pyval)) (k : string) (v : pyval)
  : list (string * pyval) :=
  match d with
  | [] => [(k, v)]
  | (k', v') :: rest =>
      if String.eqb k k' then (k, v) :: rest else (k', v') :: dict_set rest k v
  end.

Fixpoint value (fuel : nat) (s : string) : option (pyval * string) :=
  match fuel with
  | O => None
  | S fuel' =>
      match skip_ws s with
      | EmptyString => None
      | String c rest as s' =>
          if Ascii.eqb c "{" then
            match skip_ws rest with
            | String "}" rest' => Some (PDict [], rest')
            | _ => members fuel' rest []
            end
          else if Ascii.eqb c "[" then
            match skip_ws rest with
            | String "]" rest' => Some (PList [], rest')
            | _ => elements fuel' rest []
            end
          else if Ascii.eqb c dquote then
            option_map (fun p => (PStr (fst p), snd p)) (string_body rest)
          else if Ascii.eqb c "-" || is_digit c then integer s'
          else keyword s'
      end
  end
with elements (fuel : nat) (s : string) (acc : list pyval)
  : option (pyval * string) :=
  match fuel with
  | O => None
  | S fuel' =>
      match value fuel' s with
      | None => None
      | Some (v, rest) =>
          match skip_ws rest with
          | String "," rest' => elements fuel' rest' (acc ++ [v])
          | String "]" rest' => Some (PList (acc ++ [v]), rest')
          | _ => None
          end
      end
  end
with members (fuel : nat) (s : string) (acc : list (string * pyval))
  : option (pyval * string) :=
  match fuel with
  | O => None
  | S fuel' =>
      match skip_ws s with
      | String c rest =>
          if Ascii.eqb c dquote then
            match string_body rest with
            | None => None
            | Some (k, rest1) =>
                match skip_ws rest1 with
                | String ":" rest2 =>
                    match value fuel' rest2 with
                    | None => None
                    | Some (v, rest3) =>
                        match skip_ws rest3 with
                        | String "," rest4 => members fuel' rest4 (dict_set acc k v)
                        | String "}" rest4 => Some (PDict (dict_set acc k v), rest4)
                        | _ => None
                        end
                    end
                | _ => None
                end
            end
          else None
      | EmptyString => None
      end
  end.

Definition loads (s : string) : option pyval :=
  match value (2 * String.length s + 2) s with
  | Some (v, rest) =>
      match skip_ws rest with
      | EmptyString => Some v
      | _ => None
      end
  | None => None
  end.

End Json.

(** A scripted generation service: the world is the list of the outcomes
    of the calls to come; once the script is used up every call raises.
    The clock stands still. *)
Module Scripted.
Import PyVal Protocol.

Definition World : Type := list (exn + string).

Definition generate_content (w : World) (_ : request)
  : (exn + string) * World :=
  match w with
  | o :: w' => (o, w')
  | [] => (inl (GenerationError "script exhausted"), [])
  end.

Definition time_time (w : World) : Q * World := (0%Q, w).

Definition time_sleep (_ : Q) (w : World) : World := w.

Definition json_dumps (_ : pyval) : string := EmptyString.

Definition translate_chunk (script : World) (text_list : list string)
    (context_guide : string) (enable_reasoning : bool) :=
  run World
      (Protocol.translate_chunk World generate_content time_time time_sleep
         Json.loads json_dumps text_list "English" "Korean"
         context_guide enable_reasoning)
      script.

Definition texts_of (r : option (list pyval * diagnostics) * (World * list event))
  : option (list pyval) :=
  option_map fst (fst r).

(** The response of the reconciliation example, and the same array with
    a number as text, with an id that is a string, and with one id
    twice. *)
Definition example_response : string :=
  PyStr.lit "{\qtranslated_items\q:[{\qid\q:2,\qtext\q:\qC\q},{\qid\q:0,\qtext\q:\qA\q}]}".

Definition number_text_response : string :=
  PyStr.lit "{\qtranslated_items\q:[{\qid\q:0,\qtext\q:5}]}".




End Scripted.

(** A generation service whose every call raises. *)
Module Failing.
Import PyVal Protocol.

Definition World : Type := unit.

Definition generate_content (w : World) (_ : request)
  : (exn + string) * World :=
  (inl (GenerationError "quota exceeded"), w).

Definition time_time (w : World) : Q * World := (0%Q, w).

Definition time_sleep (_ : Q) (w : World) : World := w.

End Failing.

(* ================================================================== *)
(** * Regular expressions with backtracking: the part of [re] in use *)
(* ================================================================== *)

Module Regex.
Import PyStr.

(** The constructs that occur in the pattern of [parse_srt]. *)
Inductive regex : Type :=
| Eps
| Chr (p : ascii -> bool)            (** one character of a class *)
| Seq (r1 r2 : regex)
| Alt (r1 r2 : regex)                (** [r1|r2], [r1] tried first *)
| Star (greedy : bool) (r : regex)   (** [r*] and [r*?] *)
| Group (n : nat) (r : regex)        (** capturing group number [n] *)
| Lookahead (r : regex)              (** [(?=r)] *)
| EndOfString.                       (** [\Z] *)

Definition captures : Type := list (nat * string).

(** A way to match: the groups captured so far and the text that is
    left. *)
Definition result : Type := (captures * string)%type.

(** What [r] consumed when it went from [s] to the suffix [rest]. *)
Definition consumed (s rest : string) : string :=
  substring 0 (String.length s - String.length rest) s.

(** Repetition.  [body] lists the ways to match the repeated expression
    once; an iteration that consumes nothing is not repeated.  The greedy
    star prefers one more iteration, the lazy star prefers to stop. *)
Fixpoint star_iter (body : captures -> string -> list result)
    (greedy : bool) (fuel : nat) (caps : captures) (s : string)
  : list result :=
  match fuel with
  | O => [(caps, s)]
  | S fuel' =>
      let more :=
        flat_map
          (fun r : result =>
             if (String.length (snd r) <? String.length s)%nat
             then star_iter body greedy fuel' (fst r) (snd r)
             else [])
          (body caps s) in
      if greedy then more ++ [(caps, s)] else (caps, s) :: more
  end.

(** All the ways to match [r] at the start of [s], in the order in which
    a backtracking matcher tries them.  The first one is the match the
    engine reports. *)
Fixpoint matches (r : regex) (caps : captures) (s : string) : list result :=
  match r with
  | Eps => [(caps, s)]
  | Chr p =>
      match s with
      | String c rest => if p c then [(caps, rest)] else []
      | EmptyString => []
      end
  | Seq r1 r2 =>
      flat_map (fun x : result => matches r2 (fst x) (snd x)) (matches r1 caps s)
  | Alt r1 r2 => matches r1 caps s ++ matches r2 caps s
  | Star greedy r1 => star_iter (matches r1) greedy (String.length s) caps s
  | Group n r1 =>
      map (fun x : result => ((n, consumed s (snd x)) :: fst x, snd x))
          (matches r1 caps s)
  | Lookahead r1 =>
      match matches r1 caps s with
      | [] => []
      | x :: _ => [(fst x, s)]
      end
  | EndOfString =>
      match s with
      | EmptyString => [(caps, s)]
      | _ => []
      end
  end.

(** [m.group(n)]; the empty string for a group that took no part, as
    [findall] reports it. *)
Fixpoint group (n : nat) (caps : captures) : string :=
  match caps with
  | [] => EmptyString
  | (k, v) :: rest => if (k =? n)%nat then v else group n rest
  end.

(** [pattern.match(s)] at the start of [s]. *)
Definition match_at (r : regex) (s : string) : option result :=
  hd_error (matches r [] s).

(** [pattern.findall(s)]: the matches from left to right, none
    overlapping another.  [skip] counts the characters that the last
    match still covers; after an empty match the scan moves on by one
    character. *)
Fixpoint findall_from (r : regex) (skip : nat) (s : string)
  : list captures :=
  match skip with
  | S skip' =>
      match s with
      | String _ rest => findall_from r skip' rest
      | EmptyString => []
      end
  | O =>
      match s with
      | EmptyString =>
          match match_at r s with
          | Some x => [fst x]
          | None => []
          end
      | String _ rest =>
          match match_at r s with
          | Some x =>
              fst x :: findall_from r
                         (String.length s - String.length (snd x) - 1) rest
          | None => findall_from r 0 rest
          end
      end
  end.

Definition findall (r : regex) (s : string) : list captures :=
  findall_from r 0 s.

(** ** Building blocks *)

Definition char (c : ascii) : regex := Chr (Ascii.eqb c).
Definition digit : regex := Chr is_digit.              (* \d *)
Definition space : regex := Chr is_space.              (* \s *)
Definition dot : regex := Chr (fun c => negb (Ascii.eqb c nl)).   (* . *)
Definition plus (r : regex) : regex := Seq r (Star true r).       (* r+ *)

(** Concatenation of a list of expressions. *)
Fixpoint cat (rs : list regex) : regex :=
  match rs with
  | [] => Eps
  | [r] => r
  | r :: more => Seq r (cat more)
  end.

(** ** The candidates of a star *)

(** What a greedy star of the class [p] can leave: the text after the
    whole run first, the text itself last. *)
Fixpoint greedy_rests (p : ascii -> bool) (s : string) : list string :=
  match s with
  | String c s' => if p c then greedy_rests p s' ++ [s] else [s]
  | EmptyString => [EmptyString]
  end.

(** What a lazy star of any character can leave: every suffix, the text
    itself first. *)
Fixpoint suffixes (s : string) : list string :=
  s :: match s with
       | String _ s' => suffixes s'
       | EmptyString => []
       end.

(** No capturing group occurs in the expression. *)
Fixpoint groupless (r : regex) : bool :=
  match r with
  | Eps | Chr _ | EndOfString => true
  | Seq r1 r2 | Alt r1 r2 => groupless r1 && groupless r2
  | Star _ r1 | Lookahead r1 => groupless r1
  | Group _ _ => false
  end.

Definition nonempty {A : Type} (l : list A) : bool :=
  match l with [] => false | _ :: _ => true end.

End Regex.

(* ================================================================== *)
(** * Subtitle codec: [parse_srt] and [rebuild_srt] *)
(* ================================================================== *)

Module Codec.
Import PyStr Regex.

(** [\d{2}:\d{2}:\d{2},\d{3}] *)
Definition timestamp : regex :=
  cat [digit; digit; char ":"; digit; digit; char ":"; digit; digit;
       char ","; digit; digit; digit].

(** [\n\d+\s*\n|\Z], the body of the lookahead. *)
Definition block_end : regex :=
  Alt (cat [char nl; plus digit; Star true space; char nl]) EndOfString.

(** The pattern of [parse_srt]:
    [(\d+)\s*\n(\d{2}:\d{2}:\d{2},\d{3}\s*-->\s*\d{2}:\d{2}:\d{2},\d{3})\s*\n((?:.|\n)*?)(?=\n\d+\s*\n|\Z)].
    The flag [re.MULTILINE] only changes [^] and [$], which the pattern
    does not use. *)
Definition srt_pattern : regex :=
  cat [ Group 1 (plus digit);
        Star true space; char nl;
        Group 2 (cat [timestamp; Star true space;
                      char "-"; char "-"; char ">";
                      Star true space; timestamp]);
        Star true space; char nl;
        Group 3 (Star false (Alt dot (char nl)));
        Lookahead block_end ].

Definition parse_srt (content : string) : list srt_item :=
  map (fun m => {| index := group 1 m;
                   time := group 2 m;
                   text := strip (group 3 m) |})
      (findall srt_pattern content).

(** One output block, the f-string [{index}\n{time}\n{trans}\n]. *)
Definition block (origin : srt_item) (trans : string) : string :=
  index origin +++ String nl (time origin +++ String nl (trans +++ String nl EmptyString)).

(** [rebuild_srt], for translations that are strings.  The subscripts
    stay below [limit], so the defaults of [nth] are never used. *)
Definition rebuild_srt (original_data : list srt_item)
    (chunks_translated : list (list string)) : string :=
  let flat_translations := concat chunks_translated in
  let limit := Nat.min (length original_data) (length flat_translations) in
  let output :=
    map (fun i => block (nth i original_data (mk_item "" "" ""))
                        (nth i flat_translations EmptyString))
        (seq 0 limit) in
  join (String nl EmptyString) output.

(** ** The pattern read as a scanner *)

(** The longest prefix of [s] made of characters of the class [p], and
    what follows it. *)
Fixpoint span (p : ascii -> bool) (s : string) : string * string :=
  match s with
  | EmptyString => (EmptyString, EmptyString)
  | String c rest =>
      if p c then let (a, b) := span p rest in (String c a, b)
      else (EmptyString, s)
  end.

Fixpoint all_chars (p : ascii -> bool) (s : string) : bool :=
  match s with
  | EmptyString => true
  | String c rest => p c && all_chars p rest
  end.

Definition is_nl (c : ascii) : bool := Ascii.eqb c nl.

(** What follows the last newline of [w], if [w] has a newline. *)
Fixpoint after_last_nl (w : string) : option string :=
  match w with
  | EmptyString => None
  | String c rest =>
      match after_last_nl rest with
      | Some a => Some a
      | None => if is_nl c then Some rest else None
      end
  end.

(** One character of each class of [classes], in order. *)
Fixpoint take_classes (classes : list (ascii -> bool)) (s : string)
  : option (string * string) :=
  match classes with
  | [] => Some (EmptyString, s)
  | p :: more =>
      match s with
      | String c rest =>
          if p c then
            match take_classes more rest with
            | Some (a, b) => Some (String c a, b)
            | None => None
            end
          else None
      | EmptyString => None
      end
  end.

Definition timestamp_classes : list (ascii -> bool) :=
  [is_digit; is_digit; Ascii.eqb ":"; is_digit; is_digit; Ascii.eqb ":";
   is_digit; is_digit; Ascii.eqb ","; is_digit; is_digit; is_digit].

Definition arrow_classes : list (ascii -> bool) :=
  [Ascii.eqb "-"; Ascii.eqb "-"; Ascii.eqb ">"].

(** A time range at the start of [s]: two timestamps around an arrow
    with any whitespace on its sides. *)
Definition scan_time_range (s : string) : option (string * string) :=
  match take_classes timestamp_classes s with
  | None => None
  | Some (t1, s1) =>
      let (w1, s2) := span is_space s1 in
      match take_classes arrow_classes s2 with
      | None => None
      | Some (ar, s3) =>
          let (w2, s4) := span is_space s3 in
          match take_classes timestamp_classes s4 with
          | None => None
          | Some (t2, s5) => Some (t1 +++ w1 +++ ar +++ w2 +++ t2, s5)
          end
      end
  end.

(** [s] starts with a newline, a run of digits, and whitespace that
    reaches a newline: a line made of an integer comes next. *)
Definition index_ahead (s : string) : bool :=
  match s with
  | String c rest =>
      is_nl c &&
      let (d, r) := span is_digit rest in
      negb (String.eqb d EmptyString) &&
      negb (all_chars (fun x => negb (is_nl x)) (fst (span is_space r)))
  | EmptyString => false
  end.

(** The text of a block: up to the first position where a line made of
    an integer comes next, or to the end of the input. *)
Fixpoint until_block_end (s : string) : string * string :=
  match s with
  | EmptyString => (EmptyString, EmptyString)
  | String c rest =>
      if index_ahead s then (EmptyString, s)
      else let (t, r) := until_block_end rest in (String c t, r)
  end.

(** A block at the start of [s]: the digits of the index, whitespace
    that ends with a newline, the time range, whitespace with a newline in
    it (the text starts after the last one), the text.  The result is the
    three groups and the text that is left. *)
Definition match_block (s : string) : option (srt_item * string) :=
  let (idx, s1) := span is_digit s in
  if String.eqb idx EmptyString then None
  else
    let (w1, s2) := span is_space s1 in
    match after_last_nl w1 with
    | Some EmptyString =>
        match scan_time_range s2 with
        | None => None
        | Some (tr, s3) =>
            let (w2, s4) := span is_space s3 in
            match after_last_nl w2 with
            | None => None
            | Some a =>
                let (txt, rest) := until_block_end (a +++ s4) in
                Some (mk_item idx tr txt, rest)
            end
        end
    | _ => None
    end.

(** The blocks of a text, from left to right; [skip] as in
    [findall_from]. *)
Fixpoint scan_from (skip : nat) (s : string) : list srt_item :=
  match skip with
  | S skip' =>
      match s with
      | String _ rest => scan_from skip' rest
      | EmptyString => []
      end
  | O =>
      match s with
      | EmptyString => []
      | String _ rest =>
          match match_block s with
          | Some (b, after) =>
              b :: scan_from (String.length s - String.length after - 1) rest
          | None => scan_from 0 rest
          end
      end
  end.

Definition scan_blocks (content : string) : list srt_item :=
  map (fun b => mk_item (index b) (time b) (strip (text b)))
      (scan_from 0 content).

(** ** Well-formed subtitle text *)

(** A line that holds only a non-negative integer. *)
Definition is_index_line (l : string) : bool :=
  negb (String.eqb l EmptyString) && all_chars is_digit l.

(** [HH:MM:SS,mmm --> HH:MM:SS,mmm] *)
Definition is_time_range (l : string) : bool :=
  match take_classes
          (timestamp_classes ++ [Ascii.eqb " "] ++ arrow_classes
           ++ [Ascii.eqb " "] ++ timestamp_classes) l with
  | Some (_, EmptyString) => true
  | _ => false
  end.

(** A line that would end the text of a block: an integer, possibly
    followed by whitespace. *)
Definition is_index_like (l : string) : bool :=
  let (d, r) := span is_digit l in
  negb (String.eqb d EmptyString) && all_chars is_space r.

(** The text of a well-formed block is not empty, carries no whitespace
    at either end, and none of its lines after the first could be taken
    for an index line. *)
Definition is_block_text (t : string) : bool :=
  negb (String.eqb t EmptyString)
  && String.eqb (strip t) t
  && forallb (fun l => negb (is_index_like l)) (tl (Sanitizer.lines t)).

Definition wf_block (b : srt_item) : bool :=
  is_index_line (index b) && is_time_range (time b) && is_block_text (text b).

(** The subtitle text of a sequence of blocks: [index], [time] and
    [text] on lines of their own, a blank line between two blocks. *)
Definition srt_text (blocks : list srt_item) : string :=
  join (String nl EmptyString) (map (fun b => block b (text b)) blocks).

(** ** Parts of the pattern, and what the proofs name *)

(** The expression of group 2. *)
Definition time_range : regex :=
  cat [timestamp; Star true space; char "-"; char "-"; char ">";
       Star true space; timestamp].

(** Group 3 and the lookahead. *)
Definition text_and_end : regex :=
  Seq (Group 3 (Star false (Alt dot (char nl)))) (Lookahead block_end).

(** The lookahead succeeds: the input ends here, or a line made of an
    integer comes next. *)
Definition at_block_end (s : string) : bool :=
  match s with
  | EmptyString => true
  | _ => index_ahead s
  end.

(** The groups of a match, as the engine lists them. *)
Definition caps_of (b : srt_item) : captures :=
  [(3%nat, text b); (2%nat, time b); (1%nat, index b)].

(** The first character of [s] is of the class [p]. *)
Definition starts_with_class (p : ascii -> bool) (s : string) : bool :=
  match s with
  | String c _ => p c
  | EmptyString => false
  end.

(** What may follow the text of a block in a well-formed file: nothing,
    or the blank line and the index line of the next block. *)
Definition block_follows (rest : string) : Prop :=
  rest = EmptyString
  \/ exists r, rest = String nl r /\ index_ahead rest = true.




(** Two well-formed blocks. *)
Definition two_blocks : list srt_item :=
  [ mk_item "1" "00:00:01,000 --> 00:00:02,000" (lit "Hello\nworld");
    mk_item "2" "00:00:03,000 --> 00:00:04,500" "Bye" ].

End Codec.

(* ================================================================== *)
(** * Batches against the budget *)
(* ================================================================== *)

Module Budget.

(** The text length of a batch, as [chunk_text] accumulates it in
    [current_length]. *)
Fixpoint total_length (batch : list srt_item) : Z :=
  match batch with
  | [] => 0
  | item :: rest => PyStr.len (text item) + total_length rest
  end.

(** In a sequence of batches, each batch that is followed by a non-empty
    one could not have taken the first record of its successor. *)
Fixpoint closed_when_full (chunk_size : Z) (batches : list (list srt_item))
  : Prop :=
  match batches with
  | batch :: ((next :: _) as more) =>
      match next with
      | item :: _ => total_length batch + PyStr.len (text item) > chunk_size
      | [] => True
      end /\ closed_when_full chunk_size more
  | _ => True
  end.

(** Three short records. *)
Definition line1 : srt_item :=
  mk_item "1" "00:00:01,000 --> 00:00:02,000" "Hello".
Definition line2 : srt_item :=
  mk_item "2" "00:00:03,000 --> 00:00:04,000" "there".
Definition line3 : srt_item :=
  mk_item "3" "00:00:05,000 --> 00:00:06,000" "friend".

Definition three_lines : list srt_item := [line1; line2; line3].

End Budget.

(* ================================================================== *)
(** * Parts of a text *)
(* ================================================================== *)

Module Parts.
Import PyStr.

(** [r] is a contiguous part of [s]. *)
Definition is_part (r s : string) : Prop :=
  exists pre post, s = pre +++ r +++ post.

(** A JSON object between prose and a fence. *)
Definition wrapped_prefix : string := lit "Here you are:\n```json\n".
Definition wrapped_object : string :=
  lit "{\qtranslated_items\q:[{\qid\q:0,\qtext\q:\qhi\q}]}".
Definition wrapped_suffix : string := lit "\n```\nDone.".

End Parts.

(* ================================================================== *)
(** * Responses for the protocol *)
(* ================================================================== *)

Module Responses.
Import PyStr PyVal Protocol.


(** The raw text that the diagnostics keep after two failed attempts:
    that of the last call that answered. *)
Definition last_answer (first second : exn + string) : string :=
  match second, first with
  | inr raw, _ => raw
  | inl _, inr raw => raw
  | inl _, inl _ => EmptyString
  end.


(** A response that is no JSON. *)
Definition refusal_response : string := "I cannot translate this.".

(** The two items of a batch of two, the second first. *)
Definition shuffled_response : string :=
  lit "{\qtranslated_items\q:[{\qid\q:1,\qtext\q:\qB\q},{\qid\q:0,\qtext\q:\qA\q}]}".



End Responses.

(* ================================================================== *)
(** * Records and translations *)
(* ================================================================== *)

Module Records.
Import PyStr Regex Codec.

(** The record [r] with the text [t] in place of its own. *)
Definition with_text (r : srt_item) (t : string) : srt_item :=
  mk_item (index r) (time r) t.

(** The records paired with the translations, position by position, as
    far as both lists go. *)
Definition translated_records (data : list srt_item)
    (translations : list string) : list srt_item :=
  map (fun p => with_text (fst p) (snd p)) (combine data translations).

(** What group 2 of the pattern accepts: two timestamps around an arrow,
    with any whitespace on its sides. *)
Definition is_time_span (t : string) : bool :=
  match scan_time_range t with
  | Some (_, EmptyString) => true
  | _ => false
  end.

(** An index of digits and a time range as the pattern accepts it. *)
Definition wf_timing (r : srt_item) : bool :=
  is_index_line (index r) && is_time_span (time r).

Definition wf_record (r : srt_item) : bool :=
  wf_timing r && is_block_text (text r).

Definition no_digit (s : string) : bool :=
  all_chars (fun c => negb (is_digit c)) s.

(** Characters that every block holds: the newline after the index, and
    the punctuation of the time range. *)
Definition required_chars : list ascii :=
  [nl; ","%char; ":"%char; "-"%char; ">"%char].

(** Timestamps written with a period, as WebVTT does. *)
Definition period_timestamps : string :=
  lit "1\n00:00:01.000 --> 00:00:02.000\nHi\n".

(** A header line and a blank line before two blocks; blank lines after
    them. *)
Definition header : string := lit "Subtitles by nobody\n\n".
Definition blank_lines : string := lit "\n\n".

(** A block whose arrow has no space around it. *)
Definition tight_arrow : string :=
  lit "7\n00:00:01,000-->00:00:02,000\nHi\n".

End Records.

(* ================================================================== *)
(** * Context analysis: [analyze_context] *)
(* ================================================================== *)

Module Analyzer.
Import PyStr PyVal.

(** The prompt of [analyze_context] is an f-string; the record keeps the
    values interpolated into its fixed text. *)
Record analysis_prompt : Type := mk_analysis_prompt {
  analysis_src_lang : string;
  analysis_tgt_lang : string;
  analysis_sample : string
}.

(** The separator between the two parts of the sample, a line made of
    three periods. *)
Definition ellipsis : string := lit "\n...\n".

(** The sample: the first 3000 characters and, for a text of more than
    5000 characters, 2000 characters from the middle. *)
Definition sample_text (full_text : string) : string :=
  let sample_text := slice full_text 0 3000 in
  if len full_text >? 5000 then
    let mid := len full_text / 2 in
    sample_text +++ ellipsis +++ slice full_text mid (mid + 2000)
  else sample_text.

Section WithModel.

Variable World : Type.
Variable generate_content :
  World -> analysis_prompt -> (exn + string) * World.

(** One call, outside any [try]: an exception of the call, or of reading
    [response.text], leaves the function. *)
Definition analyze_context (full_text src_lang tgt_lang : string)
    (w : World) : (exn + string) * World :=
  let prompt := mk_analysis_prompt src_lang tgt_lang (sample_text full_text) in
  let (response, w') := generate_content w prompt in
  (match response with
   | inl e => inl e
   | inr response_text => inr (strip response_text)
   end, w').

End WithModel.

(** A text of [n] characters. *)
Fixpoint filler (n : nat) : string :=
  match n with
  | O => EmptyString
  | S n' => String "a" (filler n')
  end.

(** A text of 5400 characters. *)
Definition mid_size_text : string := filler (Z.to_nat 5400).

End Analyzer.

(* ================================================================== *)
(** * The translation step of the script *)
(* ================================================================== *)

(** The part of the script that runs when the translation is started,
    and the handler of a retry button.  The entries of
    [st.session_state] that this part reads and writes make up the record
    [session]; the calls that only draw (placeholders, the grid, the
    timer) leave these entries alone and have no counterpart here. *)
Module Pipeline.
Import PyStr PyVal Protocol Codec Chunker.

Inductive chunk_status : Type := WAITING | RUNNING | SUCCESS | ERROR.

(** One dictionary of [chunk_states]. *)
Record chunk_state : Type := mk_chunk_state {
  cs_status : chunk_status;
  cs_duration : Q
}.

Record session : Type := mk_session {
  ss_chunks : list (list srt_item);
  ss_results : list (option (list pyval));
  ss_debugs : list (option diagnostics);
  ss_parsed_srt : list srt_item;
  ss_chunk_states : list chunk_state;
  ss_is_running : bool;
  ss_context_guide : string;
  ss_final_srt_content : string
}.

(** [l[i]] and [l[i] = x] for an index that is not negative; out of
    range both raise [IndexError]. *)
Definition fetch {A : Type} (l : list A) (i : nat) : exn + A :=
  match nth_error l i with
  | Some x => inr x
  | None => inl IndexError
  end.

Fixpoint store {A : Type} (l : list A) (i : nat) (x : A) : exn + list A :=
  match l, i with
  | [], _ => inl IndexError
  | _ :: rest, O => inr (x :: rest)
  | y :: rest, S i' =>
      match store rest i' x with
      | inl e => inl e
      | inr r => inr (y :: r)
      end
  end.

(** [chunk_states[i]['status'] = status] *)
Definition set_chunk_status (states : list chunk_state) (i : nat)
    (status : chunk_status) : exn + list chunk_state :=
  match fetch states i with
  | inl e => inl e
  | inr c => store states i (mk_chunk_state status (cs_duration c))
  end.

(** [chunk_states[i]['duration'] = duration] *)
Definition set_chunk_duration (states : list chunk_state) (i : nat)
    (duration : Q) : exn + list chunk_state :=
  match fetch states i with
  | inl e => inl e
  | inr c => store states i (mk_chunk_state (cs_status c) duration)
  end.

Definition is_success (d : diagnostics) : bool :=
  match dbg_status d with Success => true | _ => false end.

Definition with_chunk_states (s : session) (states : list chunk_state)
  : session :=
  mk_session (ss_chunks s) (ss_results s) (ss_debugs s) (ss_parsed_srt s)
             states (ss_is_running s) (ss_context_guide s)
             (ss_final_srt_content s).

Definition with_is_running (s : session) (b : bool) : session :=
  mk_session (ss_chunks s) (ss_results s) (ss_debugs s) (ss_parsed_srt s)
             (ss_chunk_states s) b (ss_context_guide s)
             (ss_final_srt_content s).

(** The four assignments after a call of [translate_chunk] for the chunk
    [i]: the result, the diagnostics, the status and the duration. *)
Definition record_outcome (i : nat) (res : list pyval) (debug : diagnostics)
    (s : session) : exn + session :=
  match store (ss_results s) i (Some res) with
  | inl e => inl e
  | inr results =>
      match store (ss_debugs s) i (Some debug) with
      | inl e => inl e
      | inr debugs =>
          match set_chunk_status (ss_chunk_states s) i
                  (if is_success debug then SUCCESS else ERROR) with
          | inl e => inl e
          | inr states =>
              match set_chunk_duration states i (dbg_duration debug) with
              | inl e => inl e
              | inr states' =>
                  inr (mk_session (ss_chunks s) results debugs
                         (ss_parsed_srt s) states' (ss_is_running s)
                         (ss_context_guide s) (ss_final_srt_content s))
              end
          end
      end
  end.

(** [[item['text'] for item in chunk]] *)
Definition texts_of_chunk (chunk : list srt_item) : list string :=
  map text chunk.

(** The loop that builds [safe_results]: a result that is [None] is
    replaced by the texts of its chunk. *)
Fixpoint safe_results (results : list (option (list pyval)))
    (chunks : list (list srt_item)) (i : nat) : exn + list (list pyval) :=
  match results with
  | [] => inr []
  | res :: rest =>
      match
        match res with
        | None =>
            match fetch chunks i with
            | inl e => inl e
            | inr chunk => inr (map PStr (texts_of_chunk chunk))
            end
        | Some r => inr r
        end
      with
      | inl e => inl e
      | inr entry =>
          match safe_results rest chunks (S i) with
          | inl e => inl e
          | inr more => inr (entry :: more)
          end
      end
  end.

Section WithEnvironment.

Variable World : Type.
Variable generate_content : World -> request -> (exn + string) * World.
Variable time_time : World -> Q * World.
Variable time_sleep : Q -> World -> World.
Variable json_loads : string -> option pyval.
Variable json_dumps : pyval -> string.

(** Another script run of the same session may clear the flag
    [is_running] while the loop runs; [stop_requested] tells, at each
    reading of the flag, whether that has happened since the last one. *)
Variable stop_requested : World -> bool * World.

(** [str(v)] for a value that is not a string. *)
Variable str_of : pyval -> string.

Notation "x <- m ;; k" := (bind World m (fun x => k))
  (at level 61, m at next level, right associativity).

(** What the f-string of [rebuild_srt] writes for a translation. *)
Definition format_value (v : pyval) : string :=
  match v with
  | PStr s => s
  | _ => str_of v
  end.

(** [rebuild_srt] on the values that [translate_chunk] returns. *)
Definition rebuild_srt_values (original_data : list srt_item)
    (chunks_translated : list (list pyval)) : string :=
  let flat_translations := concat chunks_translated in
  let limit := Nat.min (length original_data) (length flat_translations) in
  let output :=
    map (fun i => block (nth i original_data (mk_item "" "" ""))
                        (format_value (nth i flat_translations (PStr ""))))
        (seq 0 limit) in
  join (String nl EmptyString) output.

(** Reading [st.session_state["is_running"]]. *)
Definition read_is_running (s : session) : M World session :=
  fun st =>
    let (stop, w) := stop_requested (fst st) in
    (if stop then with_is_running s false else s, (w, snd st)).

(** [for i, chunk in enumerate(st.session_state["chunks"])], over the
    chunks that remain, [i] being the number of the first of them. *)
Fixpoint translation_loop (todo : list (list srt_item)) (i : nat)
    (src_lang tgt_lang final_context : string) (enable_reasoning : bool)
    (s : session) : M World (exn + session) :=
  match todo with
  | [] => ret World (inr s)
  | chunk :: rest =>
      s <- read_is_running s ;;
      if negb (ss_is_running s) then ret World (inr s)
      else
        match set_chunk_status (ss_chunk_states s) i RUNNING with
        | inl e => ret World (inl e)
        | inr states =>
            let s := with_chunk_states s states in
            elapsed <- now World time_time ;;
            let texts := texts_of_chunk chunk in
            r <- translate_chunk World generate_content time_time time_sleep
                   json_loads json_dumps texts src_lang tgt_lang
                   final_context enable_reasoning ;;
            match r with
            | None => ret World (inl TypeError)
            | Some (res, debug) =>
                match record_outcome i res debug s with
                | inl e => ret World (inl e)
                | inr s =>
                    _ <- sleep World time_sleep (1 # 2) ;;
                    translation_loop rest (S i) src_lang tgt_lang
                                     final_context enable_reasoning s
                end
            end
        end
  end.

(** The last statements of both handlers: [safe_results], then
    [final_srt_content]. *)
Definition store_final (s : session) : exn + session :=
  match safe_results (ss_results s) (ss_chunks s) 0 with
  | inl e => inl e
  | inr safe =>
      inr (mk_session (ss_chunks s) (ss_results s) (ss_debugs s)
             (ss_parsed_srt s) (ss_chunk_states s) (ss_is_running s)
             (ss_context_guide s)
             (rebuild_srt_values (ss_parsed_srt s) safe))
  end.

(** The body of [if st.button("Start Translation Process")]. *)
Definition start_translation (content : string) (chunk_size : Z)
    (src_lang tgt_lang : string) (enable_reasoning : bool) (s : session)
  : M World (exn + session) :=
  let parsed := parse_srt content in
  match parsed with
  | [] => ret World (inr s)
  | _ :: _ =>
      let chunks := chunk_text parsed chunk_size in
      let total := length chunks in
      let s :=
        mk_session chunks (repeat None total) (repeat None total) parsed
                   (repeat (mk_chunk_state WAITING 0) total) true
                   (ss_context_guide s) (ss_final_srt_content s) in
      start_global <- now World time_time ;;
      let final_context := ss_context_guide s in
      r <- translation_loop (ss_chunks s) 0 src_lang tgt_lang final_context
             enable_reasoning s ;;
      match r with
      | inl e => ret World (inl e)
      | inr s =>
          match store_final s with
          | inl e => ret World (inl e)
          | inr s =>
              let s := with_is_running s false in
              _ <- sleep World time_sleep (inject_Z 1) ;;
              ret World (inr s)
          end
      end
  end.

(** The body of [if st.button("Retry #i")], for the chunk number [i]. *)
Definition retry_chunk (i : nat) (src_lang tgt_lang : string)
    (enable_reasoning : bool) (s : session) : M World (exn + session) :=
  match fetch (ss_chunks s) i with
  | inl e => ret World (inl e)
  | inr chunk =>
      let texts := texts_of_chunk chunk in
      r <- translate_chunk World generate_content time_time time_sleep
             json_loads json_dumps texts src_lang tgt_lang
             (ss_context_guide s) enable_reasoning ;;
      match r with
      | None => ret World (inl TypeError)
      | Some (res, new_debug) =>
          match record_outcome i res new_debug s with
          | inl e => ret World (inl e)
          | inr s => ret World (store_final s)
          end
      end
  end.

(** A computation only appends to the event log. *)
Definition framed {A : Type} (m : M World A) : Prop :=
  forall w log,
    m (w, log)
    = (fst (m (w, [])), (fst (snd (m (w, []))), log ++ snd (snd (m (w, []))))).

End WithEnvironment.

(** ** What the session keeps *)

(** The row of chunk [j]: its chunk, result, diagnostics and state.  A
    chunk that was not translated has neither result nor diagnostics and
    waits; a chunk that was translated has a result that satisfies [P],
    and a state that tells the status and the duration of its
    diagnostics. *)
Definition row_ok (P : list srt_item -> list pyval -> Prop) (s : session)
    (j : nat) : Prop :=
  match nth_error (ss_chunks s) j, nth_error (ss_results s) j,
        nth_error (ss_debugs s) j, nth_error (ss_chunk_states s) j with
  | Some chunk, Some res, Some dbg, Some state =>
      match res, dbg with
      | None, None => cs_status state = WAITING
      | Some r, Some d =>
          P chunk r
          /\ cs_status state = (if is_success d then SUCCESS else ERROR)
          /\ cs_duration state = dbg_duration d
      | _, _ => False
      end
  | None, None, None, None => True
  | _, _, _, _ => False
  end.

(** The session is in order: its chunks hold the parsed records, and
    every row is. *)
Definition consistent (P : list srt_item -> list pyval -> Prop)
    (s : session) : Prop :=
  concat (ss_chunks s) = ss_parsed_srt s /\ forall j, row_ok P s j.

(** One entry per record of the chunk. *)
Definition same_length (chunk : list srt_item) (res : list pyval) : Prop :=
  length res = length chunk.

(** The texts of the chunk, untranslated. *)
Definition untranslated (chunk : list srt_item) (res : list pyval) : Prop :=
  res = map PStr (texts_of_chunk chunk).

(** The text keeps the timing of the records: it is the subtitle text of
    blocks with the same indices and the same time ranges, in order. *)
Definition keeps_timing (parsed : list srt_item) (final : string) : Prop :=
  exists blocks,
    final = srt_text blocks
    /\ map index blocks = map index parsed
    /\ map time blocks = map time parsed.

(** A session before anything was translated. *)
Definition fresh_session : session :=
  mk_session [] [] [] [] [] false EmptyString EmptyString.

(** [str] for the examples: every value that is not a string is written
    as a question mark. *)
Definition str_unknown (_ : pyval) : string := "?".

(** No stop is ever requested. *)
Definition never_stop {W : Type} (w : W) : bool * W := (false, w).

(** A session with one chunk of two records that was not translated. *)
Definition waiting_session : session :=
  mk_session [[Budget.line1; Budget.line2]] [None] [None]
             [Budget.line1; Budget.line2] [mk_chunk_state WAITING 0]
             false EmptyString EmptyString.

End Pipeline.

(* ================================================================== *)
(** * Settings: the default model and the defaults of the session *)
(* ================================================================== *)

Module Settings.
Import PyStr PyVal.

(** [["flash" in m or "pro" in m]] *)
Definition preferred (m : string) : bool :=
  str_contains m "flash" || str_contains m "pro".

(** The loop over [enumerate(fetched_models)], from position [i] on: the
    position at which it is left by [break], if it is. *)
Fixpoint first_preferred (models : list string) (i : nat) : option nat :=
  match models with
  | [] => None
  | m :: rest => if preferred m then Some i else first_preferred rest (S i)
  end.

(** The index handed to the select box: 0 unless the loop finds a
    preferred model. *)
Definition default_index (models : list string) : nat :=
  match first_preferred models 0 with
  | Some i => i
  | None => 0%nat
  end.

(** The dictionary [defaults] of [init_session_state]. *)
Definition defaults : list (string * pyval) :=
  [ ("chunks", PList []);
    ("results", PList []);
    ("debugs", PList []);
    ("parsed_srt", PList []);
    ("chunk_states", PList []);
    ("is_running", PBool false);
    ("context_guide", PStr "");
    ("final_srt_content", PStr "");
    ("fetched_models", PList []);
    ("original_content", PNone);
    ("uploaded_filename", PNone) ].

(** [for key, value in defaults.items(): if key not in session_state:
    session_state[key] = value], over the entries that remain. *)
Fixpoint fill_defaults (entries : list (string * pyval))
    (session_state : list (string * pyval)) : list (string * pyval) :=
  match entries with
  | [] => session_state
  | (key, value) :: rest =>
      fill_defaults rest
        (match lookup key session_state with
         | Some _ => session_state
         | None => session_state ++ [(key, value)]
         end)
  end.

Definition init_session_state (session_state : list (string * pyval))
  : list (string * pyval) :=
  fill_defaults defaults session_state.

(** Model names as the service lists them. *)
Definition model_names : list string :=
  ["models/embedding-001"; "models/gemini-1.5-flash"; "models/gemini-1.5-pro"].

End Settings.

(* ================================================================== *)
(** * Properties of the chunker *)
(* ================================================================== *)

Module ChunkerFacts.
Import Chunker.

Lemma seen_step (chunk_size : Z) (st : loop_state) (item : srt_item) :
  seen (step chunk_size st item) = seen st ++ [item].
Proof.
  unfold seen, step.
  destruct (current_length st + PyStr.len (text item) >? chunk_size); simpl.
  - rewrite concat_app. simpl. rewrite !app_nil_r. reflexivity.
  - rewrite app_assoc. reflexivity.
Qed.

Lemma seen_fold (chunk_size : Z) (parsed_data : list srt_item) :
  forall st,
    seen (fold_left (step chunk_size) parsed_data st) = seen st ++ parsed_data.
Proof.
  induction parsed_data as [|item rest IH]; intros st; simpl.
  - now rewrite app_nil_r.
  - rewrite IH, seen_step, <- app_assoc. reflexivity.
Qed.

(** After a step the open batch holds the record just added. *)
Lemma step_current_nonempty (chunk_size : Z) (st : loop_state) (item : srt_item) :
  current_chunk (step chunk_size st item) <> [].
Proof.
  unfold step.
  destruct (current_length st + PyStr.len (text item) >? chunk_size); simpl;
    destruct (current_chunk st); discriminate.
Qed.

(** A step closes a batch only by moving the open one. *)
Lemma step_chunks (chunk_size : Z) (st : loop_state) (item : srt_item) :
  chunks (step chunk_size st item) = chunks st
  \/ chunks (step chunk_size st item) = chunks st ++ [current_chunk st].
Proof.
  unfold step.
  destruct (current_length st + PyStr.len (text item) >? chunk_size); simpl; auto.
Qed.

(** Once the open batch is non-empty, no empty batch is ever closed. *)
Lemma fold_no_empty (chunk_size : Z) (parsed_data : list srt_item) :
  forall st,
    current_chunk st <> [] ->
    Forall (fun c => c <> []) (chunks st) ->
    let st' := fold_left (step chunk_size) parsed_data st in
    current_chunk st' <> [] /\ Forall (fun c => c <> []) (chunks st').
Proof.
  induction parsed_data as [|item rest IH]; intros st Hcur Hall; simpl.
  - auto.
  - apply IH.
    + apply step_current_nonempty.
    + destruct (step_chunks chunk_size st item) as [-> | ->]; auto.
      apply Forall_app; split; auto.
Qed.

(** A first record that fits the budget: no batch of the output is
    empty. *)
Lemma chunk_text_no_empty_when_first_fits
    (item : srt_item) (rest : list srt_item) (chunk_size : Z) :
  PyStr.len (text item) <= chunk_size ->
  Forall (fun c => c <> []) (chunk_text (item :: rest) chunk_size).
Proof.
  intros Hfit. unfold chunk_text. simpl fold_left.
  assert (Hstep : step chunk_size init item
                  = {| chunks := []; current_chunk := [item];
                       current_length := PyStr.len (text item) |}).
  { unfold step, init; simpl.
    destruct (Z.gtb_spec (PyStr.len (text item)) chunk_size); [lia | reflexivity]. }
  rewrite Hstep.
  destruct (fold_no_empty chunk_size rest
              {| chunks := []; current_chunk := [item];
                 current_length := PyStr.len (text item) |})
    as [Hcur Hall]; simpl; [discriminate | constructor |].
  destruct (current_chunk _) eqn:E; [exact Hall |].
  apply Forall_app; split; [exact Hall |].
  constructor; [discriminate | constructor].
Qed.

(** A first record over the budget: the output starts with an empty
    batch. *)
Lemma chunk_text_empty_head_when_first_exceeds
    (item : srt_item) (rest : list srt_item) (chunk_size : Z) :
  PyStr.len (text item) > chunk_size ->
  exists more, chunk_text (item :: rest) chunk_size = [] :: more.
Proof.
  intros Hbig. unfold chunk_text. simpl fold_left.
  assert (Hstep : step chunk_size init item
                  = {| chunks := [[]]; current_chunk := [item];
                       current_length := PyStr.len (text item) |}).
  { unfold step, init; simpl.
    destruct (Z.gtb_spec (PyStr.len (text item)) chunk_size); [reflexivity | lia]. }
  rewrite Hstep.
  assert (Hpre : forall data st,
             exists more, chunks (fold_left (step chunk_size) data st)
                          = chunks st ++ more).
  { induction data as [|x data IH]; intros st; simpl.
    - exists []. now rewrite app_nil_r.
    - destruct (IH (step chunk_size st x)) as [more Hm]. rewrite Hm.
      destruct (step_chunks chunk_size st x) as [-> | ->].
      + now exists more.
      + exists ([current_chunk st] ++ more). now rewrite app_assoc. }
  destruct (Hpre rest {| chunks := [[]]; current_chunk := [item];
                         current_length := PyStr.len (text item) |})
    as [more Hm].
  simpl in Hm. rewrite Hm.
  destruct (current_chunk _); simpl; eauto.
Qed.

(** C4 (code defect).  The claim: for a positive chunk size no batch of
    the output is empty, and a record longer than the budget sits alone
    in a batch of its own.  The code at the single record [oversized]
    (text of length 20) and chunk size 10: the record is kept, alone in
    its batch, but the flush inside the loop has closed the still empty
    open batch first, so the output is an empty batch followed by the
    batch of the record. *)
Theorem chunk_text_oversized_first_record :
  PyStr.len (text oversized) = 20
  /\ chunk_text [oversized] 10 = [[]; [oversized]]
  /\ In [] (chunk_text [oversized] 10).
Proof.
  split; [reflexivity | split; [reflexivity | left; reflexivity]].
Qed.

(** C5.  Concatenating the batches of [chunk_text], in order, gives back
    the record sequence, for every input and every chunk size: chunking
    neither reorders, drops nor duplicates a record. *)
Theorem chunk_text_partition (parsed_data : list srt_item) (chunk_size : Z) :
  concat (chunk_text parsed_data chunk_size) = parsed_data.
Proof.
  unfold chunk_text.
  pose proof (seen_fold chunk_size parsed_data init) as H.
  unfold seen in H. simpl in H.
  destruct (current_chunk (fold_left (step chunk_size) parsed_data init)) eqn:E.
  - now rewrite app_nil_r in H.
  - rewrite concat_app. simpl. rewrite app_nil_r. exact H.
Qed.

End ChunkerFacts.

(* ================================================================== *)
(** * Properties of the sanitizer *)
(* ================================================================== *)

Module SanitizerFacts.
Import PyStr Sanitizer.

(** ** [find] and [rfind] against the positions of a character *)

Lemma find_from_first_pos (c : ascii) (s : string) :
  forall k,
    find_from c s k
    = match first_pos s c with Some i => k + Z.of_nat i | None => -1 end.
Proof.
  induction s as [|d rest IH]; intros k; simpl.
  - reflexivity.
  - destruct (Ascii.eqb d c).
    + simpl. lia.
    + rewrite IH. destruct (first_pos rest c); simpl; lia.
Qed.

Lemma rfind_from_last_pos (c : ascii) (s : string) :
  forall k last,
    rfind_from c s k last
    = match last_pos s c with Some j => k + Z.of_nat j | None => last end.
Proof.
  induction s as [|d rest IH]; intros k last; simpl.
  - reflexivity.
  - rewrite IH. destruct (last_pos rest c).
    + lia.
    + destruct (Ascii.eqb d c); simpl; lia.
Qed.

Lemma first_pos_bound (c : ascii) (s : string) :
  forall i, first_pos s c = Some i -> (i < String.length s)%nat.
Proof.
  induction s as [|d rest IH]; simpl; intros i H.
  - discriminate.
  - destruct (Ascii.eqb d c).
    + injection H as <-. lia.
    + destruct (first_pos rest c) as [n|]; simpl in H; [|discriminate].
      injection H as <-. specialize (IH n eq_refl). lia.
Qed.

Lemma last_pos_bound (c : ascii) (s : string) :
  forall j, last_pos s c = Some j -> (j < String.length s)%nat.
Proof.
  induction s as [|d rest IH]; simpl; intros j H.
  - discriminate.
  - destruct (last_pos rest c) as [n|].
    + injection H as <-. specialize (IH n eq_refl). lia.
    + destruct (Ascii.eqb d c); [|discriminate]. injection H as <-. lia.
Qed.

(** The slice of the code is the text between the two positions. *)
Lemma slice_between (s : string) (i j : nat) :
  (i < String.length s)%nat -> (j < String.length s)%nat ->
  slice s (Z.of_nat i) (Z.of_nat j + 1) = between s i j.
Proof.
  intros Hi Hj. unfold slice, between, clamp, len.
  destruct (Z.ltb_spec (Z.of_nat i) 0); [lia|].
  destruct (Z.ltb_spec (Z.of_nat j + 1) 0); [lia|].
  rewrite (Z.min_l (Z.of_nat i)) by lia.
  rewrite (Z.min_l (Z.of_nat j + 1)) by lia.
  f_equal; lia.
Qed.

(** ** Lines *)

Lemma lines_nonempty (s : string) : lines s <> [].
Proof.
  destruct s as [|c rest]; simpl; [discriminate|].
  destruct (Ascii.eqb c nl); [discriminate|].
  destruct (lines rest); discriminate.
Qed.

Lemma lines_no_nl (s : string) : Forall no_nl (lines s).
Proof.
  induction s as [|c rest IH]; simpl.
  - constructor; [reflexivity | constructor].
  - destruct (Ascii.eqb c nl) eqn:E.
    + constructor; [reflexivity | exact IH].
    + destruct (lines rest) as [|l more].
      * constructor; [|constructor]. unfold no_nl; simpl. now rewrite E.
      * inversion IH; subst. constructor; [|assumption].
        unfold no_nl in *; simpl. now rewrite E.
Qed.

Lemma unlines_cons (l : string) (more : list string) :
  more <> [] ->
  unlines (l :: more) = l +++ String nl (unlines more).
Proof.
  intros H. unfold unlines. simpl. destruct more; [contradiction | reflexivity].
Qed.

Lemma unlines_lines (s : string) : unlines (lines s) = s.
Proof.
  induction s as [|c rest IH]; simpl.
  - reflexivity.
  - destruct (Ascii.eqb_spec c nl) as [-> | Hc].
    + rewrite unlines_cons by apply lines_nonempty. simpl. now rewrite IH.
    + pose proof (lines_nonempty rest) as Hne.
      destruct (lines rest) as [|l more]; [contradiction|].
      destruct more as [|l2 more].
      * unfold unlines in *. simpl in *. now rewrite IH.
      * rewrite unlines_cons by discriminate.
        rewrite unlines_cons in IH by discriminate.
        simpl. now rewrite IH.
Qed.

Lemma lines_no_nl_one (l : string) : no_nl l -> lines l = [l].
Proof.
  induction l as [|c rest IH]; simpl; intros H.
  - reflexivity.
  - unfold no_nl in H. simpl in H. apply orb_false_iff in H as [Hc Hr].
    rewrite Hc. rewrite (IH Hr). reflexivity.
Qed.

Lemma lines_app_nl (l rest : string) :
  no_nl l -> lines (l +++ String nl rest) = l :: lines rest.
Proof.
  induction l as [|c l' IH]; simpl; intros H.
  - reflexivity.
  - unfold no_nl in H. simpl in H. apply orb_false_iff in H as [Hc Hr].
    rewrite Hc. rewrite (IH Hr). reflexivity.
Qed.

Lemma lines_unlines (ls : list string) :
  ls <> [] -> Forall no_nl ls -> lines (unlines ls) = ls.
Proof.
  induction ls as [|l more IH]; intros Hne Hall; [contradiction|].
  inversion Hall; subst.
  destruct more as [|l2 more].
  - unfold unlines; simpl. now apply lines_no_nl_one.
  - rewrite unlines_cons by discriminate.
    rewrite lines_app_nl by assumption.
    f_equal. apply IH; [discriminate | assumption].
Qed.

(** ** The two cuts of the code against the list of lines *)

Lemma split1_lines (s : string) :
  split1 s nl
  = match lines s with
    | [] => [EmptyString]
    | [l] => [l]
    | l :: more => [l; unlines more]
    end.
Proof.
  induction s as [|c rest IH]; simpl.
  - reflexivity.
  - destruct (Ascii.eqb c nl) eqn:E.
    + pose proof (lines_nonempty rest) as Hne.
      destruct (lines rest) as [|l more] eqn:El; [contradiction|].
      rewrite <- El, unlines_lines. reflexivity.
    + rewrite IH.
      pose proof (lines_nonempty rest) as Hne.
      destruct (lines rest) as [|l more]; [contradiction|].
      destruct more; reflexivity.
Qed.

Lemma rsplit1_lines (s : string) :
  rsplit1 s nl
  = match lines s with
    | [] => [EmptyString]
    | [l] => [l]
    | l :: l2 :: more =>
        [unlines (removelast (l :: l2 :: more));
         last (l :: l2 :: more) EmptyString]
    end.
Proof.
  induction s as [|c rest IH]; cbn [rsplit1 lines].
  - reflexivity.
  - pose proof (lines_nonempty rest) as Hne.
    pose proof (unlines_lines rest) as Hun.
    destruct (lines rest) as [|l more]; [contradiction|].
    destruct more as [|l2 more]; rewrite IH.
    + unfold unlines in Hun; simpl in Hun. subst l.
      destruct (Ascii.eqb c nl); reflexivity.
    + destruct (Ascii.eqb_spec c nl) as [-> | Hc].
      * change (removelast (EmptyString :: l :: l2 :: more))
          with (EmptyString :: removelast (l :: l2 :: more)).
        rewrite (unlines_cons EmptyString).
        -- reflexivity.
        -- simpl. destruct more; discriminate.
      * change (removelast ((String c l) :: l2 :: more))
          with (String c l :: removelast (l2 :: more)).
        change (removelast (l :: l2 :: more))
          with (l :: removelast (l2 :: more)).
        destruct (removelast (l2 :: more)) eqn:Er.
        -- reflexivity.
        -- rewrite !unlines_cons by discriminate. reflexivity.
Qed.

(** The fence branch of the code drops the lines [drop_fence_lines]
    drops. *)
Lemma fence_cut_lines (t : string) :
  hd EmptyString (rsplit1 (last (split1 t nl) EmptyString) nl)
  = drop_fence_lines t.
Proof.
  unfold drop_fence_lines.
  rewrite split1_lines.
  pose proof (lines_nonempty t) as Hne.
  pose proof (lines_no_nl t) as Hnl.
  destruct (lines t) as [|l1 more]; [contradiction|].
  inversion Hnl as [|? ? H1 Hmore]; subst.
  destruct more as [|l2 more].
  - simpl. rewrite rsplit1_lines, (lines_no_nl_one l1 H1). reflexivity.
  - change (last [l1; unlines (l2 :: more)] EmptyString)
      with (unlines (l2 :: more)).
    rewrite rsplit1_lines, lines_unlines by (assumption || discriminate).
    destruct more; reflexivity.
Qed.

(** ** Trimming twice *)

Lemma rstrip_idempotent (s : string) : rstrip (rstrip s) = rstrip s.
Proof.
  induction s as [|c rest IH]; [reflexivity|].
  cbn [rstrip].
  destruct (rstrip rest) as [|d r] eqn:Er.
  - destruct (is_space c) eqn:Ec; [reflexivity|].
    cbn [rstrip]. now rewrite Ec.
  - cbn [rstrip]. cbn [rstrip] in IH. rewrite IH. reflexivity.
Qed.

Lemma rstrip_head (c : ascii) (rest : string) :
  is_space c = false -> exists r, rstrip (String c rest) = String c r.
Proof.
  intros Hc. cbn [rstrip].
  destruct (rstrip rest) as [|d r].
  - rewrite Hc. now exists EmptyString.
  - now exists (String d r).
Qed.

Lemma lstrip_head (s : string) :
  lstrip s = EmptyString
  \/ exists c r, lstrip s = String c r /\ is_space c = false.
Proof.
  induction s as [|c rest IH]; simpl.
  - now left.
  - destruct (is_space c) eqn:Ec; [exact IH|].
    right. now exists c, rest.
Qed.

Lemma strip_idempotent (s : string) : strip (strip s) = strip s.
Proof.
  unfold strip.
  destruct (lstrip_head s) as [-> | (c & r & -> & Hc)]; [reflexivity|].
  destruct (rstrip_head c r Hc) as [r' Hr]. rewrite Hr.
  cbn [lstrip]. rewrite Hc. rewrite <- Hr. apply rstrip_idempotent.
Qed.

(** The code, branch by branch, is [sanitizer_amended]. *)
Lemma clean_json_text_amended (text : string) :
  clean_json_text text = sanitizer_amended text.
Proof.
  assert (Hrest :
            strip (if startswith (strip text) fence
                   then hd EmptyString
                          (rsplit1 (last (split1 (strip text) nl) EmptyString) nl)
                   else strip text)
            = if startswith (strip text) fence
              then strip (drop_fence_lines (strip text))
              else strip text).
  { destruct (startswith (strip text) fence).
    - now rewrite fence_cut_lines.
    - apply strip_idempotent. }
  unfold clean_json_text, sanitizer_amended, find, rfind.
  rewrite find_from_first_pos, rfind_from_last_pos.
  destruct (first_pos text "{") as [i|] eqn:Ei;
    destruct (last_pos text "}") as [j|] eqn:Ej; cbn [Z.add].
  - apply first_pos_bound in Ei. apply last_pos_bound in Ej.
    destruct (Z.eqb_spec (Z.of_nat i) (-1)); [lia|].
    destruct (Z.eqb_spec (Z.of_nat j) (-1)); [lia|].
    cbn [negb andb]. apply slice_between; assumption.
  - rewrite andb_false_r. exact Hrest.
  - exact Hrest.
  - exact Hrest.
Qed.

(** With three lines or more, dropping as the code does is dropping the
    first and the last line. *)
Lemma drop_fence_lines_three (t : string) :
  (3 <= length (lines t))%nat ->
  drop_fence_lines t = drop_first_and_last_lines t.
Proof.
  unfold drop_fence_lines, drop_first_and_last_lines.
  destruct (lines t) as [|l1 [|l2 [|l3 more]]]; simpl; intros H; try lia.
  reflexivity.
Qed.

(** Brace extraction, on a text cut at its first opening and its last
    closing brace. *)
Lemma between_braces (pre mid post : string) :
  contains_char pre "{" = false ->
  contains_char post "}" = false ->
  clean_json_text (pre +++ String "{" (mid +++ String "}" post))
  = String "{" (mid +++ String "}" EmptyString).
Proof.
  intros Hpre Hpost.
  rewrite clean_json_text_amended. unfold sanitizer_amended.
  assert (Hf : first_pos (pre +++ String "{" (mid +++ String "}" post)) "{"
               = Some (String.length pre)).
  { clear Hpost. induction pre as [|c pre IH]; simpl in *.
    - reflexivity.
    - apply orb_false_iff in Hpre as [Hc Hr]. rewrite Hc, (IH Hr). reflexivity. }
  assert (Hl : forall a, last_pos (a +++ String "}" post) "}"
                         = Some (String.length a)).
  { induction a as [|c a IH]; simpl.
    - assert (Hp : last_pos post "}" = None).
      { clear -Hpost. induction post as [|c post IH]; simpl in *; [reflexivity|].
        apply orb_false_iff in Hpost as [Hc Hr]. now rewrite (IH Hr), Hc. }
      rewrite Hp. reflexivity.
    - now rewrite IH. }
  assert (Hl' : last_pos (pre +++ String "{" (mid +++ String "}" post)) "}"
                = Some (String.length pre + S (String.length mid))%nat).
  { specialize (Hl (pre +++ String "{" mid)).
    assert (Hassoc : (pre +++ String "{" mid) +++ String "}" post
                     = pre +++ String "{" (mid +++ String "}" post)).
    { clear. induction pre; simpl; [reflexivity | now f_equal]. }
    rewrite Hassoc in Hl. rewrite Hl. f_equal.
    clear. induction pre; simpl; [reflexivity | now f_equal]. }
  rewrite Hf, Hl'. unfold between.
  replace (S (String.length pre + S (String.length mid)) - String.length pre)%nat
    with (S (S (String.length mid))) by lia.
  clear. induction pre as [|c pre IH]; simpl.
  - f_equal. induction mid as [|c mid IH]; simpl.
    + destruct post; reflexivity.
    + now f_equal.
  - exact IH.
Qed.

(** C7, counterexample.  On the two-line text [```json] / [hi] the
    piecewise function of the claim drops the first and the last line
    and is left with nothing; the code returns [hi]. *)
Lemma clean_json_text_short_fence :
  sanitizer_spec short_fence = EmptyString
  /\ clean_json_text short_fence = "hi"
  /\ clean_json_text short_fence <> sanitizer_spec short_fence.
Proof.
  split; [reflexivity | split; [reflexivity | discriminate]].
Qed.

(** C7, amended.  The sanitizer is the piecewise function
    [sanitizer_amended]: with an opening and a closing brace in the text
    it returns the text from the first opening brace through the last
    closing brace (nothing when that closing brace comes first);
    otherwise it trims the text and, when the trimmed text starts with the
    fence, drops the first line if a second line exists and the last line
    if a line is left before it, and trims again; otherwise it returns
    the trimmed text.  With three lines or more this is the function of
    the specification.  On the fenced example the result is the JSON
    text, which decodes to the expected object. *)
Theorem clean_json_text_piecewise :
  (forall text, clean_json_text text = sanitizer_amended text)
  /\ (forall text,
        (3 <= length (lines (strip text)))%nat ->
        clean_json_text text = sanitizer_spec text)
  /\ clean_json_text example_raw = example_json
  /\ Json.loads (clean_json_text example_raw)
     = Some (PyVal.PDict
               [("translated_items",
                 PyVal.PList [PyVal.PDict [("id", PyVal.PInt 0);
                                           ("text", PyVal.PStr "hi")]])]).
Proof.
  split; [exact clean_json_text_amended|].
  split; [| split; reflexivity].
  intros text H3. rewrite clean_json_text_amended.
  unfold sanitizer_amended, sanitizer_spec.
  destruct (first_pos text "{"); destruct (last_pos text "}"); try reflexivity;
    destruct (startswith (strip text) fence); try reflexivity;
    now rewrite drop_fence_lines_three.
Qed.

End SanitizerFacts.

(* ================================================================== *)
(** * Properties of the translation protocol *)
(* ================================================================== *)

Module ProtocolFacts.
Import PyStr PyVal Protocol.

(** ** Keys and comparisons *)

Lemma py_lt_same_kind (k k' : pyval) (b : bool) :
  py_lt k k' = Some b ->
  (num_val k = None <-> num_val k' = None).
Proof.
  destruct k, k'; simpl; intros H; try discriminate;
    split; intros E; try discriminate; reflexivity.
Qed.

Lemma py_lt_numbers (k k' : pyval) (a b : Q) :
  num_val k = Some a -> num_val k' = Some b ->
  py_lt k k' = Some (Qltb a b).
Proof.
  destruct k, k'; simpl; intros Ha Hb; try discriminate;
    injection Ha as <-; injection Hb as <-; reflexivity.
Qed.

Lemma Qltb_true (a b : Q) : Qltb a b = true -> (a < b)%Q.
Proof.
  unfold Qltb. intros H. apply negb_true_iff in H.
  apply Qnot_le_lt. intros Hle. apply Qle_bool_iff in Hle. congruence.
Qed.

Lemma Qltb_false (a b : Q) : Qltb a b = false -> (b <= a)%Q.
Proof.
  unfold Qltb. intros H. apply negb_false_iff in H.
  now apply Qle_bool_iff.
Qed.

(** An item whose id equals [i] has a numeric key, equal to [i]. *)
Lemma has_id_key (i : Z) (p : pyval * pyval) :
  decorated_ok p -> has_id i (snd p) = true ->
  exists q, num_val (fst p) = Some q /\ (q == inject_Z i)%Q.
Proof.
  destruct p as [k x]. unfold decorated_ok, sort_key, get, has_id. simpl.
  destruct x; try discriminate.
  intros Hk Hid. injection Hk as <-.
  destruct (lookup "id" d) as [v|]; [|discriminate].
  destruct v; simpl in Hid; try discriminate; eexists; split;
    try reflexivity; now apply Qeq_bool_iff.
Qed.

Lemma decorated_ok_dict (p : pyval * pyval) :
  decorated_ok p -> is_dict (snd p) = true.
Proof.
  destruct p as [k x]. unfold decorated_ok, sort_key, get. simpl.
  destruct x; intros H; try discriminate. reflexivity.
Qed.

Lemma decorate_ok (l : list pyval) :
  forall dl, decorate l = inr dl ->
             Forall decorated_ok dl /\ map snd dl = l.
Proof.
  induction l as [|x rest IH]; simpl; intros dl H.
  - injection H as <-. split; [constructor | reflexivity].
  - destruct (sort_key x) as [e|k] eqn:Ek; [discriminate|].
    destruct (decorate rest) as [e|r]; [discriminate|].
    injection H as <-. destruct (IH r eq_refl) as [Hall Hmap].
    split; [constructor; [exact Ek | exact Hall] | simpl; now rewrite Hmap].
Qed.

(** ** The insertion keeps the order of the items of one id *)

Section Stability.

Variable i : Z.

Let P (p : pyval * pyval) : bool := has_id i (snd p).

Lemma insert_sorted_stable (k x : pyval) (acc : list (pyval * pyval)) :
  forall acc',
    insert_sorted k x acc = inr acc' ->
    decorated_ok (k, x) ->
    Forall decorated_ok acc ->
    StronglySorted key_le acc ->
    StronglySorted key_le acc'
    /\ Forall decorated_ok acc'
    /\ Forall (fun p => p = (k, x) \/ In p acc) acc'
    /\ filter P acc' = filter P acc ++ filter P [(k, x)].
Proof.
  induction acc as [|[k' y] rest IH]; intros acc' Hins Hkx Hok Hsorted.
  - simpl in Hins. injection Hins as <-.
    repeat split.
    + constructor; constructor.
    + constructor; [exact Hkx | constructor].
    + constructor; [now left | constructor].
  - simpl in Hins.
    inversion Hok as [|? ? Hok1 Hok2]; subst.
    inversion Hsorted as [|? ? Hs1 Hs2]; subst.
    destruct (py_lt k k') as [[|]|] eqn:Elt; [| |discriminate].
    + (* the new element goes in front *)
      injection Hins as <-.
      assert (Hfront : forall a, num_val k = Some a ->
                exists b, num_val k' = Some b /\ (a < b)%Q).
      { intros a Ha. destruct (num_val k') as [b|] eqn:Eb.
        - exists b. split; [reflexivity|].
          rewrite (py_lt_numbers k k' a b Ha Eb) in Elt.
          injection Elt as Elt. now apply Qltb_true.
        - apply (py_lt_same_kind _ _ _ Elt) in Eb. congruence. }
      repeat split.
      * constructor; [exact Hsorted|].
        constructor.
        -- intros a b Ha Hb. simpl in Ha, Hb.
           destruct (Hfront a Ha) as (b' & Hb' & Hlt).
           rewrite Hb in Hb'. injection Hb' as <-. lra.
        -- rewrite Forall_forall in Hs2 |- *. intros p Hp a c Ha Hc.
           simpl in Ha. destruct (Hfront a Ha) as (b & Hb & Hlt).
           specialize (Hs2 p Hp b c Hb Hc). lra.
      * constructor; assumption.
      * constructor; [now left|].
        rewrite Forall_forall. intros p Hp. now right.
      * assert (Hnone : P (k, x) = true -> filter P ((k', y) :: rest) = []).
        { intros EP.
          destruct (has_id_key i (k, x) Hkx EP) as (a & Ha & Hai).
          destruct (Hfront a Ha) as (b & Hb & Hlt).
          assert (Hall : forall p, In p ((k', y) :: rest) -> P p = false).
          { intros p Hp. destruct (P p) eqn:EPp; [|reflexivity].
            assert (Hokp : decorated_ok p).
            { rewrite Forall_forall in Hok. now apply Hok. }
            destruct (has_id_key i p Hokp EPp) as (c & Hc & Hci).
            destruct Hp as [<- | Hp].
            - simpl in Hc. rewrite Hb in Hc. injection Hc as <-. lra.
            - rewrite Forall_forall in Hs2.
              specialize (Hs2 p Hp b c Hb Hc). lra. }
          clear -Hall. induction ((k', y) :: rest) as [|p l IHl]; [reflexivity|].
          simpl. rewrite (Hall p (or_introl eq_refl)).
          apply IHl. intros q Hq. apply Hall. now right. }
        cbn [filter app]. destruct (P (k, x)) eqn:EP.
        -- specialize (Hnone eq_refl). cbn [filter] in Hnone.
           rewrite Hnone. reflexivity.
        -- now rewrite app_nil_r.
    + (* the new element goes further back *)
      destruct (insert_sorted k x rest) as [e|r] eqn:Er; [discriminate|].
      injection Hins as <-.
      destruct (IH r eq_refl Hkx Hok2 Hs1) as (Hsr & Hokr & Hinr & Hfr).
      repeat split.
      * constructor; [exact Hsr|].
        rewrite Forall_forall in Hinr, Hs2 |- *. intros p Hp.
        destruct (Hinr p Hp) as [-> | Hin]; [|now apply Hs2].
        intros b a Hb Ha. simpl in Ha, Hb.
        rewrite (py_lt_numbers k k' a b Ha Hb) in Elt.
        injection Elt as Elt. now apply Qltb_false.
      * constructor; assumption.
      * constructor; [right; now left|].
        rewrite Forall_forall in Hinr |- *. intros p Hp.
        destruct (Hinr p Hp) as [-> | Hin]; [now left | right; now right].
      * simpl. simpl in Hfr. rewrite Hfr.
        destruct (P (k', y)); reflexivity.
Qed.

Lemma sort_decorated_stable (todo : list (pyval * pyval)) :
  forall acc sorted,
    sort_decorated todo acc = inr sorted ->
    Forall decorated_ok todo ->
    Forall decorated_ok acc ->
    StronglySorted key_le acc ->
    Forall decorated_ok sorted
    /\ filter P sorted = filter P acc ++ filter P todo.
Proof.
  induction todo as [|[k x] rest IH]; intros acc sorted Hsort Htodo Hacc Hs.
  - simpl in Hsort. injection Hsort as <-. split; [exact Hacc|].
    simpl. now rewrite app_nil_r.
  - simpl in Hsort. inversion Htodo as [|? ? Hkx Hrest]; subst.
    destruct (insert_sorted k x acc) as [e|acc'] eqn:Ei; [discriminate|].
    destruct (insert_sorted_stable k x acc acc' Ei Hkx Hacc Hs)
      as (Hs' & Hok' & _ & Hf).
    destruct (IH acc' sorted Hsort Hrest Hok' Hs') as [Hoks Hfs].
    split; [exact Hoks|].
    rewrite Hfs, Hf, <- app_assoc. f_equal.
    cbn [filter app]. destruct (P (k, x)); reflexivity.
Qed.

End Stability.

(** ** From the sorted array back to the response array *)

Lemma find_filter {A : Type} (f : A -> bool) (l : list A) :
  List.find f l = hd_error (filter f l).
Proof.
  induction l as [|x rest IH]; simpl; [reflexivity|].
  destruct (f x); [reflexivity | exact IH].
Qed.

Lemma filter_map_snd {A B : Type} (f : B -> bool) (l : list (A * B)) :
  filter f (map snd l) = map snd (filter (fun p => f (snd p)) l).
Proof.
  induction l as [|p rest IH]; simpl; [reflexivity|].
  destruct (f (snd p)); simpl; now rewrite IH.
Qed.

(** Sorting succeeds on dictionaries only, and the first item of a given
    id is the same before and after: the sort is stable. *)
Lemma sort_items_find (items : pyval) (sorted : list pyval) :
  sort_items items = inr sorted ->
  exists l,
    items = PList l
    /\ Forall (fun x => is_dict x = true) sorted
    /\ forall i, List.find (has_id i) sorted = List.find (has_id i) l.
Proof.
  unfold sort_items. destruct items as [| | | | |l|]; try discriminate.
  destruct (decorate l) as [e|dl] eqn:Ed; [discriminate|].
  destruct (sort_decorated dl []) as [e|sd] eqn:Es; [discriminate|].
  intros H. injection H as <-. exists l.
  destruct (decorate_ok l dl Ed) as [Hok Hmap].
  split; [reflexivity|]. split.
  - destruct (sort_decorated_stable 0 dl [] sd Es Hok) as [Hoks _];
      [constructor | constructor |].
    rewrite Forall_forall in Hoks |- *. intros x Hx.
    apply in_map_iff in Hx as (p & <- & Hp).
    apply decorated_ok_dict. now apply Hoks.
  - intros i.
    destruct (sort_decorated_stable i dl [] sd Es Hok) as [_ Hf];
      [constructor | constructor |].
    rewrite !find_filter, <- Hmap, !filter_map_snd, Hf. reflexivity.
Qed.

(** ** The two loops of the reconciliation *)

Lemma scan_items_find (items : list pyval) (i : Z) :
  Forall (fun x => is_dict x = true) items ->
  scan_items items i = inr (option_map text_of (List.find (has_id i) items)).
Proof.
  induction items as [|item rest IH]; intros Hall; simpl; [reflexivity|].
  inversion Hall as [|? ? Hd Hrest]; subst.
  destruct item; try discriminate. simpl.
  destruct (py_eq _ (PInt i)); [reflexivity | now apply IH].
Qed.

Lemma reconcile_reconciled (items : list pyval) (texts : list string) :
  Forall (fun x => is_dict x = true) items ->
  forall i, reconcile items texts i = inr (reconciled items texts i).
Proof.
  intros Hall. induction texts as [|t rest IH]; intros i; simpl; [reflexivity|].
  rewrite (scan_items_find items i Hall), IH.
  destruct (List.find (has_id i) items); reflexivity.
Qed.

Lemma reconciled_length (items : list pyval) (texts : list string) :
  forall i, length (reconciled items texts i) = length texts.
Proof.
  induction texts as [|t rest IH]; intros i; simpl; [reflexivity|].
  now rewrite IH.
Qed.

Lemma reconciled_ext (items items' : list pyval) (texts : list string) :
  (forall i, List.find (has_id i) items = List.find (has_id i) items') ->
  forall i, reconciled items texts i = reconciled items' texts i.
Proof.
  intros Hfind. induction texts as [|t rest IH]; intros i; simpl; [reflexivity|].
  now rewrite Hfind, IH.
Qed.

Lemma reconciled_nth (items : list pyval) (texts : list string) :
  forall i n t,
    nth_error texts n = Some t ->
    nth_error (reconciled items texts i) n
    = Some (match List.find (has_id (i + Z.of_nat n)) items with
            | Some item => text_of item
            | None => PStr t
            end).
Proof.
  induction texts as [|t0 rest IH]; intros i n t Hn.
  - destruct n; discriminate.
  - destruct n as [|n]; simpl in Hn |- *.
    + injection Hn as ->. now rewrite Z.add_0_r.
    + rewrite (IH (i + 1) n t Hn).
      replace (i + 1 + Z.of_nat n) with (i + Z.of_nat (S n)) by lia. reflexivity.
Qed.

(** Every entry of the reconciled list is an input text or the text value
    of an item. *)
Lemma reconciled_entries (items : list pyval) (texts : list string) :
  forall i,
    Forall (fun v => (exists t, In t texts /\ v = PStr t)
                     \/ (exists item, In item items /\ v = text_of item))
           (reconciled items texts i).
Proof.
  induction texts as [|t rest IH]; intros i; simpl; constructor.
  - destruct (List.find (has_id i) items) as [item|] eqn:Ef.
    + right. exists item. split; [|reflexivity].
      now apply find_some in Ef.
    + left. exists t. split; [now left | reflexivity].
  - specialize (IH (i + 1)). rewrite Forall_forall in IH |- *.
    intros v Hv. destruct (IH v Hv) as [(t' & Ht & ->) | Hr].
    + left. exists t'. split; [now right | reflexivity].
    + now right.
Qed.

Section Attempt.

Variable json_loads : string -> option pyval.

(** The [try] block from a response whose array could be sorted. *)
Lemma process_response_sorted (texts : list string) (raw : string)
    (items : list pyval) :
  response_items json_loads raw = inr items ->
  process_response json_loads texts raw = inr (reconciled items texts 0)
  /\ exists result_json l,
       json_loads (Sanitizer.clean_json_text raw) = Some result_json
       /\ locate_items result_json = inr (PList l)
       /\ sort_items (PList l) = inr items
       /\ reconciled items texts 0 = reconciled l texts 0.
Proof.
  intros Hitems. unfold process_response. rewrite Hitems.
  unfold response_items in Hitems.
  destruct (json_loads (Sanitizer.clean_json_text raw)) as [j|] eqn:Ej;
    [|discriminate].
  destruct (locate_items j) as [e|v] eqn:Ev; [discriminate|].
  destruct (sort_items_find v items Hitems) as (l & -> & Hd & Hfind).
  rewrite (reconcile_reconciled items texts Hd 0).
  rewrite reconciled_length, Z.eqb_refl. simpl.
  split; [reflexivity|].
  exists j, l. repeat split; try assumption.
  now apply reconciled_ext.
Qed.

Lemma process_response_inv (texts : list string) (raw : string)
    (out : list pyval) :
  process_response json_loads texts raw = inr out ->
  exists items,
    response_items json_loads raw = inr items
    /\ out = reconciled items texts 0.
Proof.
  unfold process_response.
  destruct (response_items json_loads raw) as [e|items] eqn:Ei; [discriminate|].
  destruct (process_response_sorted texts raw items Ei) as [Hp _].
  unfold process_response in Hp. rewrite Ei in Hp. rewrite Hp.
  intros H. injection H as <-. exists items. split; reflexivity.
Qed.

Lemma attempt_outcome_length (texts : list string) (r : exn + string)
    (out : list pyval) :
  attempt_outcome json_loads texts r = inr out -> length out = length texts.
Proof.
  destruct r as [e|raw]; simpl; [discriminate|]. intros H.
  apply process_response_inv in H as (items & _ & ->).
  apply reconciled_length.
Qed.

End Attempt.

(** ** The retry loop *)

Section Run.

Variable World : Type.
Variable generate_content : World -> request -> (exn + string) * World.
Variable time_time : World -> Q * World.
Variable time_sleep : Q -> World -> World.
Variable json_loads : string -> option pyval.
Variable json_dumps : pyval -> string.

Let translate :=
  translate_chunk World generate_content time_time time_sleep json_loads
                  json_dumps.

(** The three ways through [translate_chunk]: the first attempt succeeds;
    the first fails and the second succeeds; both fail.  In each the
    function returns a pair, and the event log is the calls it made. *)
Lemma translate_chunk_cases (text_list : list string)
    (src_lang tgt_lang context_guide : string) (enable_reasoning : bool)
    (w : World) :
  let req := build_request json_dumps text_list src_lang tgt_lang
                           context_guide enable_reasoning in
  let first := generate_content (snd (time_time w)) req in
  let second := generate_content (time_sleep (inject_Z 1) (snd first)) req in
  exists out dbg w',
    (run World (translate text_list src_lang tgt_lang context_guide
                          enable_reasoning) w
     = (Some (out, dbg), (w', [EvGenerate req]))
     /\ attempt_outcome json_loads text_list (fst first) = inr out
     /\ (exists raw, fst first = inr raw /\ dbg_raw_response dbg = raw)
     /\ dbg_status dbg = Success /\ dbg_attempts dbg = 1)
    \/ (run World (translate text_list src_lang tgt_lang context_guide
                             enable_reasoning) w
        = (Some (out, dbg),
           (w', [EvGenerate req; EvSleep (inject_Z 1); EvGenerate req]))
        /\ (exists e, attempt_outcome json_loads text_list (fst first) = inl e)
        /\ attempt_outcome json_loads text_list (fst second) = inr out
        /\ (exists raw, fst second = inr raw /\ dbg_raw_response dbg = raw)
        /\ dbg_status dbg = Success /\ dbg_attempts dbg = 2)
    \/ (run World (translate text_list src_lang tgt_lang context_guide
                             enable_reasoning) w
        = (Some (out, dbg),
           (w', [EvGenerate req; EvSleep (inject_Z 1); EvGenerate req]))
        /\ (exists e, attempt_outcome json_loads text_list (fst first) = inl e)
        /\ (exists e, attempt_outcome json_loads text_list (fst second) = inl e
                      /\ dbg_status dbg = Error e)
        /\ out = map PStr text_list /\ dbg_attempts dbg = 2).
Proof.
  intros req first second. subst first second.
  unfold translate, run, translate_chunk, bind, now.
  fold req.
  change (range (max_retries + 1)) with [0; 1].
  cbn [fst snd].
  destruct (time_time w) as [t0 w0]. cbn [fst snd retry_loop].
  unfold bind, generate, sleep, now, ret. cbn [fst snd app].
  destruct (generate_content w0 req) as [r1 w1]. cbn [fst snd].
  destruct r1 as [e1|raw1]; cbn [attempt_outcome].
  - (* the first call raises *)
    change (0 <? max_retries) with true. cbn [fst snd app].
    destruct (generate_content (time_sleep (inject_Z 1) w1) req) as [r2 w2].
    cbn [fst snd app].
    destruct r2 as [e2|raw2]; cbn [attempt_outcome].
    + change (1 <? max_retries) with false. cbn [fst snd].
      destruct (time_time w2) as [t2 w3].
      do 3 eexists. right. right.
      split; [reflexivity|]. split; [now exists e1|].
      split; [exists e2; split; reflexivity|]. split; reflexivity.
    + destruct (process_response json_loads text_list raw2) as [e2|out2] eqn:E2.
      * change (1 <? max_retries) with false. cbn [fst snd].
        destruct (time_time w2) as [t2 w3].
        do 3 eexists. right. right.
        split; [reflexivity|]. split; [now exists e1|].
        split; [exists e2; split; reflexivity|]. split; reflexivity.
      * cbn [fst snd]. destruct (time_time w2) as [t2 w3].
        do 3 eexists. right. left.
        split; [reflexivity|]. split; [now exists e1|].
        split; [reflexivity|]. split; [exists raw2; split; reflexivity|].
        split; reflexivity.
  - (* the first call answers *)
    destruct (process_response json_loads text_list raw1) as [e1|out1] eqn:E1.
    + change (0 <? max_retries) with true. cbn [fst snd app].
      destruct (generate_content (time_sleep (inject_Z 1) w1) req) as [r2 w2].
      cbn [fst snd app].
      destruct r2 as [e2|raw2]; cbn [attempt_outcome].
      * change (1 <? max_retries) with false. cbn [fst snd].
        destruct (time_time w2) as [t2 w3].
        do 3 eexists. right. right.
        split; [reflexivity|]. split; [now exists e1|].
        split; [exists e2; split; reflexivity|]. split; reflexivity.
      * destruct (process_response json_loads text_list raw2) as [e2|out2] eqn:E2.
        -- change (1 <? max_retries) with false. cbn [fst snd].
           destruct (time_time w2) as [t2 w3].
           do 3 eexists. right. right.
           split; [reflexivity|]. split; [now exists e1|].
           split; [exists e2; split; reflexivity|]. split; reflexivity.
        -- cbn [fst snd]. destruct (time_time w2) as [t2 w3].
           do 3 eexists. right. left.
           split; [reflexivity|]. split; [now exists e1|].
           split; [reflexivity|]. split; [exists raw2; split; reflexivity|].
           split; reflexivity.
    + cbn [fst snd]. destruct (time_time w1) as [t1 w2].
      do 3 eexists. left.
      split; [reflexivity|]. split; [reflexivity|].
      split; [exists raw1; split; reflexivity|]. split; reflexivity.
Qed.


(** C1, amended.  For every batch of K texts, every choice of languages,
    context guide and reasoning flag and every behaviour of the generation
    call and of the decoder, [translate_chunk] returns a pair (no
    exception escapes; the function never leaves the loop without a
    result) whose list has exactly K entries.  Unless the status is
    [Success] the entries are the K input strings.  With status [Success]
    the list is the reconciliation of the recorded raw response: each
    entry is an input string or the text value of a response item, which
    is passed on as it is, string or not. *)
Theorem translate_chunk_cardinality (text_list : list string)
    (src_lang tgt_lang context_guide : string) (enable_reasoning : bool)
    (w : World) :
  exists out dbg st,
    run World (translate text_list src_lang tgt_lang context_guide
                         enable_reasoning) w
    = (Some (out, dbg), st)
    /\ length out = length text_list
    /\ (dbg_status dbg <> Success -> out = map PStr text_list)
    /\ (dbg_status dbg = Success ->
        exists items,
          response_items json_loads (dbg_raw_response dbg) = inr items
          /\ out = reconciled items text_list 0
          /\ Forall (fun v => (exists t, In t text_list /\ v = PStr t)
                              \/ (exists item, In item items /\ v = text_of item))
                    out).
Proof.
  destruct (translate_chunk_cases text_list src_lang tgt_lang context_guide
              enable_reasoning w)
    as (out & dbg & w' & [H | [H | H]]).
  - destruct H as (Hrun & Hout & (raw & Hraw & Hdbg) & Hst & _).
    exists out, dbg, (w', [EvGenerate (build_request json_dumps text_list src_lang
                             tgt_lang context_guide enable_reasoning)]).
    split; [exact Hrun|].
    split; [now apply (attempt_outcome_length json_loads) in Hout|].
    split; [intros Hne; contradiction|].
    intros _. rewrite Hraw in Hout. simpl in Hout.
    apply process_response_inv in Hout as (items & Hitems & ->).
    exists items. rewrite Hdbg.
    split; [exact Hitems | split; [reflexivity | apply reconciled_entries]].
  - destruct H as (Hrun & _ & Hout & (raw & Hraw & Hdbg) & Hst & _).
    eexists out, dbg, _.
    split; [exact Hrun|].
    split; [now apply (attempt_outcome_length json_loads) in Hout|].
    split; [intros Hne; contradiction|].
    intros _. rewrite Hraw in Hout. simpl in Hout.
    apply process_response_inv in Hout as (items & Hitems & ->).
    exists items. rewrite Hdbg.
    split; [exact Hitems | split; [reflexivity | apply reconciled_entries]].
  - destruct H as (Hrun & _ & (e & _ & Hst) & -> & _).
    eexists _, dbg, _.
    split; [exact Hrun|].
    split; [apply length_map|].
    split; [reflexivity|].
    rewrite Hst. discriminate.
Qed.

(** Reconciliation on a successful first attempt.  When the first
    response decodes to an
    object whose item array is a list that [sort_items] can sort (a list
    of objects with mutually orderable ids), [translate_chunk] succeeds,
    and at every position the output is the text value of an item of the
    array whose id equals the position (the empty string when the item has
    no text), or the input text when no item has that id. *)
Lemma translate_chunk_reconciles (text_list : list string)
    (src_lang tgt_lang context_guide : string) (enable_reasoning : bool)
    (w : World) (raw : string) (result_json : pyval) (l items : list pyval) :
  fst (generate_content (snd (time_time w))
         (build_request json_dumps text_list src_lang tgt_lang context_guide
                        enable_reasoning)) = inr raw ->
  json_loads (Sanitizer.clean_json_text raw) = Some result_json ->
  locate_items result_json = inr (PList l) ->
  sort_items (PList l) = inr items ->
  exists dbg st,
    run World (translate text_list src_lang tgt_lang context_guide
                         enable_reasoning) w
    = (Some (reconciled l text_list 0, dbg), st)
    /\ dbg_status dbg = Success
    /\ dbg_raw_response dbg = raw
    /\ (forall i, List.find (has_id i) items = List.find (has_id i) l).
Proof.
  intros Hfirst Hj Hloc Hsort.
  assert (Hitems : response_items json_loads raw = inr items).
  { unfold response_items. now rewrite Hj, Hloc. }
  destruct (process_response_sorted json_loads text_list raw items Hitems)
    as (Hp & j' & l' & Hj' & Hloc' & Hsort' & Heq).
  rewrite Hj in Hj'. injection Hj' as <-.
  rewrite Hloc in Hloc'. injection Hloc' as <-.
  destruct (sort_items_find (PList l) items Hsort) as (l2 & El & _ & Hfind).
  injection El as <-.
  destruct (translate_chunk_cases text_list src_lang tgt_lang context_guide
              enable_reasoning w)
    as (out & dbg & w' & [H | [H | H]]).
  - destruct H as (Hrun & Hout & (raw' & Hraw & Hdbg) & Hst & _).
    rewrite Hfirst in Hout, Hraw. injection Hraw as <-.
    simpl in Hout. rewrite Hp in Hout. injection Hout as <-.
    eexists dbg, _. rewrite <- Heq.
    split; [exact Hrun|]. split; [exact Hst|]. split; [exact Hdbg | exact Hfind].
  - destruct H as (_ & (e & He) & _). rewrite Hfirst in He. simpl in He.
    rewrite Hp in He. discriminate.
  - destruct H as (_ & (e & He) & _). rewrite Hfirst in He. simpl in He.
    rewrite Hp in He. discriminate.
Qed.


End Run.

(** C1, counterexample.  The response answers id 0 with the number 5 as
    text: the function returns one entry, as it must, but the entry is the
    number, not a string. *)
Lemma translate_chunk_number_text :
  exists out,
    Scripted.texts_of
      (Scripted.translate_chunk [inr Scripted.number_text_response] ["a"] "" false)
    = Some out
    /\ length out = 1%nat
    /\ out = [PInt 5]
    /\ forallb is_str out = false.
Proof.
  exists [PInt 5]. repeat split; vm_compute; reflexivity.
Qed.



(** C3.  If every invocation of the generation call raises,
    [translate_chunk] returns the input texts unchanged with a status that
    records an error and an attempt count of 2; it has made exactly two
    calls, with one sleep of one second between them. *)
Theorem translate_chunk_retry_exhaustion
    (World : Type)
    (generate_content : World -> request -> (exn + string) * World)
    (time_time : World -> Q * World) (time_sleep : Q -> World -> World)
    (json_loads : string -> option pyval) (json_dumps : pyval -> string)
    (text_list : list string) (src_lang tgt_lang context_guide : string)
    (enable_reasoning : bool) (w : World) :
  (forall w' r, exists e, fst (generate_content w' r) = inl e) ->
  exists dbg w' e,
    run World
        (translate_chunk World generate_content time_time time_sleep
           json_loads json_dumps text_list src_lang tgt_lang
           context_guide enable_reasoning) w
    = (Some (map PStr text_list, dbg),
       (w', [EvGenerate (build_request json_dumps text_list src_lang tgt_lang
                           context_guide enable_reasoning);
             EvSleep (inject_Z 1);
             EvGenerate (build_request json_dumps text_list src_lang tgt_lang
                           context_guide enable_reasoning)]))
    /\ dbg_status dbg = Error e
    /\ dbg_attempts dbg = 2.
Proof.
  intros Hraise.
  destruct (translate_chunk_cases World generate_content time_time time_sleep
              json_loads json_dumps text_list src_lang tgt_lang context_guide
              enable_reasoning w)
    as (out & dbg & w' & [H | [H | H]]).
  - destruct H as (_ & Hout & _).
    destruct (Hraise (snd (time_time w))
                (build_request json_dumps text_list src_lang tgt_lang
                               context_guide enable_reasoning)) as [e He].
    rewrite He in Hout. discriminate.
  - destruct H as (_ & _ & Hout & _).
    match type of Hout with
    | attempt_outcome _ _ (fst (generate_content ?w2 ?r)) = _ =>
        destruct (Hraise w2 r) as [e He]
    end.
    rewrite He in Hout. discriminate.
  - destruct H as (Hrun & _ & (e & _ & Hst) & -> & Hatt).
    exists dbg, w', e. repeat split; assumption.
Qed.

(** The retry example: the input x, y against a service that always
    raises. *)
Lemma translate_chunk_retry_exhaustion_witness :
  exists dbg w' e,
    run Failing.World
        (translate_chunk Failing.World Failing.generate_content
           Failing.time_time Failing.time_sleep Json.loads Scripted.json_dumps
           ["x"; "y"] "English" "Korean" "" false) tt
    = (Some ([PStr "x"; PStr "y"], dbg),
       (w', [EvGenerate (build_request Scripted.json_dumps ["x"; "y"]
                           "English" "Korean" "" false);
             EvSleep (inject_Z 1);
             EvGenerate (build_request Scripted.json_dumps ["x"; "y"]
                           "English" "Korean" "" false)]))
    /\ dbg_status dbg = Error e
    /\ dbg_attempts dbg = 2.
Proof.
  apply (translate_chunk_retry_exhaustion Failing.World
           Failing.generate_content Failing.time_time Failing.time_sleep
           Json.loads Scripted.json_dumps ["x"; "y"] "English" "Korean" ""
           false tt).
  intros w' r. exists (GenerationError "quota exceeded"). reflexivity.
Defined.






End ProtocolFacts.

(* ================================================================== *)
(** * The pattern of [parse_srt], step by step *)
(* ================================================================== *)

Module RegexFacts.
Import PyStr Regex Codec.

(** ** Lists of results *)

Lemma flat_map_map {A B C : Type} (f : B -> list C) (g : A -> B) (l : list A) :
  flat_map f (map g l) = flat_map (fun x => f (g x)) l.
Proof.
  induction l as [|x rest IH]; simpl; [reflexivity | now rewrite IH].
Qed.

Lemma hd_error_app {A : Type} (l1 l2 : list A) :
  hd_error (l1 ++ l2)
  = match hd_error l1 with Some x => Some x | None => hd_error l2 end.
Proof. destruct l1; reflexivity. Qed.

Lemma hd_error_none {A : Type} (l : list A) : hd_error l = None -> l = [].
Proof. destruct l; [reflexivity | discriminate]. Qed.

(** ** Strings *)

Lemma span_app (p : ascii -> bool) (s : string) :
  fst (span p s) +++ snd (span p s) = s.
Proof.
  induction s as [|c rest IH]; simpl; [reflexivity|].
  destruct (p c); [|reflexivity].
  destruct (span p rest) as [a b]. simpl in *. now rewrite IH.
Qed.

Lemma length_append (a b : string) :
  String.length (a +++ b) = (String.length a + String.length b)%nat.
Proof. induction a as [|c a IH]; simpl; [reflexivity | now rewrite IH]. Qed.

Lemma substring_prefix (a b : string) :
  substring 0 (String.length a) (a +++ b) = a.
Proof. induction a as [|c a IH]; simpl; [now destruct b | now rewrite IH]. Qed.

Lemma consumed_app (a rest : string) : consumed (a +++ rest) rest = a.
Proof.
  unfold consumed. rewrite length_append.
  replace (String.length a + String.length rest - String.length rest)%nat
    with (String.length a) by lia.
  apply substring_prefix.
Qed.

Lemma append_assoc (a b c : string) : (a +++ b) +++ c = a +++ (b +++ c).
Proof. induction a as [|x a IH]; simpl; [reflexivity | now rewrite IH]. Qed.

Lemma append_empty_r (a : string) : a +++ EmptyString = a.
Proof. induction a as [|x a IH]; simpl; [reflexivity | now rewrite IH]. Qed.

(** ** The star of a character class *)

Lemma star_greedy_chr (p : ascii -> bool) :
  forall fuel caps s,
    (String.length s <= fuel)%nat ->
    star_iter (matches (Chr p)) true fuel caps s
    = map (pair caps) (greedy_rests p s).
Proof.
  induction fuel as [|fuel IH]; intros caps s Hlen.
  - destruct s; [reflexivity | simpl in Hlen; lia].
  - destruct s as [|c s']; [reflexivity|].
    cbn [star_iter matches greedy_rests].
    destruct (p c); [|reflexivity].
    cbn [flat_map snd fst].
    assert (Hlt : (String.length s' <? String.length (String c s'))%nat = true).
    { apply Nat.ltb_lt. simpl. lia. }
    rewrite Hlt, app_nil_r, IH by (simpl in Hlen; lia).
    now rewrite map_app.
Qed.

Lemma matches_star_greedy (p : ascii -> bool) (caps : captures) (s : string) :
  matches (Star true (Chr p)) caps s = map (pair caps) (greedy_rests p s).
Proof. cbn [matches]. now apply star_greedy_chr. Qed.

(** Every character goes through [.|\n]. *)
Lemma matches_any_char (caps : captures) (c : ascii) (s : string) :
  matches (Alt dot (char nl)) caps (String c s) = [(caps, s)].
Proof.
  unfold dot, char. cbn [matches].
  rewrite (Ascii.eqb_sym nl c).
  destruct (Ascii.eqb c nl); reflexivity.
Qed.

Lemma star_lazy_any :
  forall fuel caps s,
    (String.length s <= fuel)%nat ->
    star_iter (matches (Alt dot (char nl))) false fuel caps s
    = map (pair caps) (suffixes s).
Proof.
  induction fuel as [|fuel IH]; intros caps s Hlen.
  - destruct s; [reflexivity | simpl in Hlen; lia].
  - destruct s as [|c s']; [reflexivity|].
    cbn [star_iter]. rewrite matches_any_char.
    cbn [flat_map snd fst].
    assert (Hlt : (String.length s' <? String.length (String c s'))%nat = true).
    { apply Nat.ltb_lt. simpl. lia. }
    rewrite Hlt, app_nil_r, IH by (simpl in Hlen; lia).
    reflexivity.
Qed.

Lemma matches_seq (r1 r2 : regex) (caps : captures) (s : string) :
  matches (Seq r1 r2) caps s
  = flat_map (fun x : result => matches r2 (fst x) (snd x)) (matches r1 caps s).
Proof. reflexivity. Qed.

(** A greedy star in front of an expression that rejects the characters
    of the star: the star takes the whole run. *)
Lemma flat_map_greedy_skip (p : ascii -> bool) (F : string -> list result) :
  (forall c s', p c = true -> F (String c s') = []) ->
  forall s, flat_map F (greedy_rests p s) = F (snd (span p s)).
Proof.
  intros HF. induction s as [|c s' IH]; simpl.
  - now rewrite app_nil_r.
  - destruct (p c) eqn:Ec.
    + rewrite flat_map_app, IH. simpl. rewrite (HF c s' Ec), !app_nil_r.
      now destruct (span p s').
    + simpl. now rewrite app_nil_r.
Qed.

Lemma matches_seq_star_skip (p : ascii -> bool) (r2 : regex)
    (caps : captures) (s : string) :
  (forall c s', p c = true -> matches r2 caps (String c s') = []) ->
  matches (Seq (Star true (Chr p)) r2) caps s
  = matches r2 caps (snd (span p s)).
Proof.
  intros H. rewrite matches_seq, matches_star_greedy, flat_map_map.
  cbn [fst snd].
  now apply (flat_map_greedy_skip p (fun r => matches r2 caps r)).
Qed.

Lemma matches_seq_chr (p : ascii -> bool) (r : regex) (caps : captures)
    (s : string) :
  matches (Seq (Chr p) r) caps s
  = match s with
    | String c s' => if p c then matches r caps s' else []
    | EmptyString => []
    end.
Proof.
  cbn [matches]. destruct s as [|c s']; [reflexivity|].
  destruct (p c); simpl; [now rewrite app_nil_r | reflexivity].
Qed.

(** ** Fixed sequences of character classes *)

Lemma matches_cat_classes (classes : list (ascii -> bool)) :
  forall p caps s,
    matches (cat (map Chr (p :: classes))) caps s
    = match take_classes (p :: classes) s with
      | Some (_, r) => [(caps, r)]
      | None => []
      end.
Proof.
  induction classes as [|q more IH]; intros p caps s.
  - simpl. destruct s as [|c rest]; [reflexivity|]. now destruct (p c).
  - change (cat (map Chr (p :: q :: more)))
      with (Seq (Chr p) (cat (map Chr (q :: more)))).
    rewrite matches_seq_chr.
    destruct s as [|c rest]; [reflexivity|].
    change (take_classes (p :: q :: more) (String c rest))
      with (if p c
            then match take_classes (q :: more) rest with
                 | Some (a, b) => Some (String c a, b)
                 | None => None
                 end
            else None).
    destruct (p c); [|reflexivity].
    rewrite IH.
    destruct (take_classes (q :: more) rest) as [[a b]|]; reflexivity.
Qed.

Lemma take_classes_app (classes : list (ascii -> bool)) :
  forall s a r, take_classes classes s = Some (a, r) -> s = a +++ r.
Proof.
  induction classes as [|p more IH]; intros s a r H; simpl in H.
  - injection H as <- <-. reflexivity.
  - destruct s as [|c rest]; [discriminate|].
    destruct (p c); [|discriminate].
    destruct (take_classes more rest) as [[a' r']|] eqn:E; [|discriminate].
    injection H as <- <-. simpl. now rewrite (IH rest a' r' E).
Qed.

Lemma space_not_digit (c : ascii) : is_space c = true -> is_digit c = false.
Proof.
  unfold is_space, is_digit. intros H.
  destruct (48 <=? nat_of_ascii c)%nat eqn:E1; [|reflexivity].
  destruct (nat_of_ascii c <=? 57)%nat eqn:E2; [|reflexivity].
  apply Nat.leb_le in E1. apply Nat.leb_le in E2.
  repeat (apply orb_true_iff in H as [H|H]);
    repeat (apply andb_true_iff in H as [? ?]);
    repeat match goal with
           | [ H' : (_ <=? _)%nat = true |- _ ] => apply Nat.leb_le in H'
           | [ H' : (_ =? _)%nat = true |- _ ] => apply Nat.eqb_eq in H'
           end; lia.
Qed.

Lemma nl_is_space : is_space nl = true.
Proof. reflexivity. Qed.

Lemma is_nl_space (c : ascii) : is_nl c = true -> is_space c = true.
Proof. unfold is_nl. intros H. apply Ascii.eqb_eq in H. now subst. Qed.

Lemma space_not_dash (c : ascii) : is_space c = true -> Ascii.eqb "-" c = false.
Proof.
  intros H. destruct (Ascii.eqb_spec "-" c) as [<- | ]; [discriminate | reflexivity].
Qed.

Lemma digit_not_space (c : ascii) : is_digit c = true -> is_space c = false.
Proof.
  intros H. destruct (is_space c) eqn:E; [|reflexivity].
  apply space_not_digit in E. congruence.
Qed.

Lemma digit_not_nl (c : ascii) : is_digit c = true -> Ascii.eqb nl c = false.
Proof.
  intros H. destruct (Ascii.eqb_spec nl c) as [<- | ]; [discriminate | reflexivity].
Qed.

(** ** The time range *)

Lemma matches_timestamp (caps : captures) (s : string) :
  matches timestamp caps s
  = match take_classes timestamp_classes s with
    | Some (_, r) => [(caps, r)]
    | None => []
    end.
Proof. exact (matches_cat_classes (tl timestamp_classes) is_digit caps s). Qed.

Lemma matches_timestamp_space (caps : captures) (c : ascii) (s : string) :
  is_space c = true -> matches timestamp caps (String c s) = [].
Proof.
  intros H. rewrite matches_timestamp. simpl.
  now rewrite (space_not_digit c H).
Qed.

Lemma scan_time_range_app (s tr r : string) :
  scan_time_range s = Some (tr, r) -> s = tr +++ r.
Proof.
  unfold scan_time_range.
  destruct (take_classes timestamp_classes s) as [[t1 s1]|] eqn:E1; [|discriminate].
  pose proof (span_app is_space s1) as Hw1.
  destruct (span is_space s1) as [w1 s2]. simpl in Hw1.
  destruct (take_classes arrow_classes s2) as [[ar s3]|] eqn:E2; [|discriminate].
  pose proof (span_app is_space s3) as Hw2.
  destruct (span is_space s3) as [w2 s4]. simpl in Hw2.
  destruct (take_classes timestamp_classes s4) as [[t2 s5]|] eqn:E3; [|discriminate].
  intros H. injection H as <- <-.
  apply take_classes_app in E1, E2, E3. subst s s1 s2 s3 s4.
  now rewrite !append_assoc.
Qed.

Lemma matches_time_range (caps : captures) (s : string) :
  matches time_range caps s
  = match scan_time_range s with
    | Some (_, r) => [(caps, r)]
    | None => []
    end.
Proof.
  unfold time_range, scan_time_range.
  change (cat [timestamp; Star true space; char "-"; char "-"; char ">";
               Star true space; timestamp])
    with (Seq timestamp
            (Seq (Star true space)
               (Seq (char "-") (Seq (char "-") (Seq (char ">")
                  (Seq (Star true space) timestamp)))))).
  rewrite matches_seq, matches_timestamp.
  destruct (take_classes timestamp_classes s) as [[t1 s1]|]; [|reflexivity].
  cbn [flat_map fst snd]. rewrite app_nil_r.
  unfold space at 1. rewrite matches_seq_star_skip.
  2:{ intros c s' Hc. unfold char. rewrite matches_seq_chr.
      now rewrite (space_not_dash c Hc). }
  destruct (span is_space s1) as [w1 s2]. cbn [snd].
  unfold char. rewrite matches_seq_chr.
  destruct s2 as [|c1 s2]; [reflexivity|]. cbn [take_classes arrow_classes].
  destruct (Ascii.eqb "-" c1); [|reflexivity].
  rewrite matches_seq_chr.
  destruct s2 as [|c2 s2]; [reflexivity|].
  destruct (Ascii.eqb "-" c2); [|reflexivity].
  rewrite matches_seq_chr.
  destruct s2 as [|c3 s3]; [reflexivity|].
  destruct (Ascii.eqb ">" c3); [|reflexivity].
  unfold space. rewrite matches_seq_star_skip.
  2:{ intros c s' Hc. now apply matches_timestamp_space. }
  destruct (span is_space s3) as [w2 s4]. cbn [snd].
  rewrite matches_timestamp.
  destruct (take_classes timestamp_classes s4) as [[t2 s5]|]; reflexivity.
Qed.

Lemma matches_group_time_range (caps : captures) (s : string) :
  matches (Group 2 time_range) caps s
  = match scan_time_range s with
    | Some (tr, r) => [((2%nat, tr) :: caps, r)]
    | None => []
    end.
Proof.
  cbn [matches]. rewrite matches_time_range.
  destruct (scan_time_range s) as [[tr r]|] eqn:E; [|reflexivity].
  apply scan_time_range_app in E. subst s.
  cbn [map fst snd]. now rewrite consumed_app.
Qed.

(** ** Expressions without groups leave the captures alone *)

Lemma star_iter_caps (body : captures -> string -> list result) (greedy : bool) :
  (forall caps s x, In x (body caps s) -> fst x = caps) ->
  forall fuel caps s x,
    In x (star_iter body greedy fuel caps s) -> fst x = caps.
Proof.
  intros Hbody. induction fuel as [|fuel IH]; intros caps s x Hx.
  - destruct Hx as [<- | []]. reflexivity.
  - cbn [star_iter] in Hx.
    assert (Hmore : forall y,
               In y (flat_map
                       (fun r : result =>
                          if (String.length (snd r) <? String.length s)%nat
                          then star_iter body greedy fuel (fst r) (snd r)
                          else [])
                       (body caps s)) -> fst y = caps).
    { intros y Hy. apply in_flat_map in Hy as (r & Hr & Hy).
      destruct (String.length (snd r) <? String.length s)%nat; [|destruct Hy].
      rewrite (IH _ _ _ Hy). now apply (Hbody caps s). }
    destruct greedy.
    + apply in_app_or in Hx as [Hx | [<- | []]]; [now apply Hmore | reflexivity].
    + destruct Hx as [<- | Hx]; [reflexivity | now apply Hmore].
Qed.

Lemma matches_groupless (r : regex) :
  groupless r = true ->
  forall caps s x, In x (matches r caps s) -> fst x = caps.
Proof.
  induction r as [| p | r1 IH1 r2 IH2 | r1 IH1 r2 IH2 | g r1 IH1 | n r1 IH1
                  | r1 IH1 | ]; cbn [groupless]; intros Hg caps s x Hx.
  - destruct Hx as [<- | []]. reflexivity.
  - cbn [matches] in Hx. destruct s as [|c rest]; [destruct Hx|].
    destruct (p c); [|destruct Hx]. destruct Hx as [<- | []]. reflexivity.
  - apply andb_true_iff in Hg as [Hg1 Hg2]. cbn [matches] in Hx.
    apply in_flat_map in Hx as (y & Hy & Hx).
    rewrite (IH2 Hg2 _ _ _ Hx). now apply (IH1 Hg1 caps s).
  - apply andb_true_iff in Hg as [Hg1 Hg2]. cbn [matches] in Hx.
    apply in_app_or in Hx as [Hx | Hx];
      [now apply (IH1 Hg1 caps s) | now apply (IH2 Hg2 caps s)].
  - cbn [matches] in Hx.
    apply (star_iter_caps (matches r1) g (IH1 Hg) _ _ _ _ Hx).
  - discriminate.
  - cbn [matches] in Hx.
    destruct (matches r1 caps s) as [|y more] eqn:E; [destruct Hx|].
    destruct Hx as [<- | []]. cbn [fst].
    apply (IH1 Hg caps s). rewrite E. now left.
  - cbn [matches] in Hx. destruct s; [|destruct Hx].
    destruct Hx as [<- | []]. reflexivity.
Qed.

(** ** The end of a block *)

Lemma nonempty_app {A : Type} (l1 l2 : list A) :
  nonempty (l1 ++ l2) = nonempty l1 || nonempty l2.
Proof. destruct l1; reflexivity. Qed.

Lemma matches_plus_digit (caps : captures) (s : string) :
  matches (plus digit) caps s
  = match s with
    | String c s' =>
        if is_digit c then map (pair caps) (greedy_rests is_digit s') else []
    | EmptyString => []
    end.
Proof.
  unfold plus, digit. rewrite matches_seq.
  destruct s as [|c s']; [reflexivity|].
  cbn [matches]. destruct (is_digit c); [|reflexivity].
  cbn [flat_map fst snd]. rewrite app_nil_r.
  now apply star_greedy_chr.
Qed.

Lemma span_digit_cons (c : ascii) (s : string) :
  is_digit c = true ->
  span is_digit (String c s)
  = (String c (fst (span is_digit s)), snd (span is_digit s)).
Proof. intros H. simpl. rewrite H. now destruct (span is_digit s). Qed.

(** Whitespace and a newline after it: possible when the run of
    whitespace holds a newline. *)
Lemma nl_in_run (caps : captures) (r : string) :
  nonempty (flat_map (fun x => matches (char nl) caps x)
                     (greedy_rests is_space r))
  = negb (all_chars (fun x => negb (is_nl x)) (fst (span is_space r))).
Proof.
  induction r as [|c r' IH]; [reflexivity|].
  cbn [greedy_rests span].
  destruct (is_space c) eqn:Ec.
  - rewrite flat_map_app, nonempty_app, IH.
    destruct (span is_space r') as [w' s2]. cbn [fst all_chars flat_map].
    unfold char, is_nl. cbn [matches]. rewrite (Ascii.eqb_sym nl c).
    destruct (Ascii.eqb c nl); simpl.
    + now rewrite orb_true_r.
    + now rewrite orb_false_r.
  - cbn [flat_map fst all_chars]. unfold char. cbn [matches].
    destruct (Ascii.eqb_spec nl c) as [<- | ]; [discriminate | reflexivity].
Qed.

Lemma nonempty_block_end (caps : captures) (s : string) :
  nonempty (matches block_end caps s) = at_block_end s.
Proof.
  unfold block_end.
  change (cat [char nl; plus digit; Star true space; char nl])
    with (Seq (char nl) (Seq (plus digit) (Seq (Star true space) (char nl)))).
  change (matches (Alt ?a EndOfString) caps s)
    with (matches a caps s ++ matches EndOfString caps s).
  rewrite nonempty_app. unfold char at 1. rewrite matches_seq_chr.
  destruct s as [|c rest]; [reflexivity|].
  change (matches EndOfString caps (String c rest)) with (@nil result).
  cbn [at_block_end index_ahead nonempty]. rewrite orb_false_r.
  unfold is_nl. rewrite (Ascii.eqb_sym nl c).
  destruct (Ascii.eqb c nl); [|reflexivity]. cbn [andb].
  rewrite matches_seq, matches_plus_digit.
  destruct rest as [|d rest'].
  - reflexivity.
  - destruct (is_digit d) eqn:Ed.
    + rewrite (span_digit_cons d rest' Ed).
      rewrite flat_map_map. cbn [fst snd].
      rewrite (flat_map_greedy_skip is_digit
                 (fun u => matches (Seq (Star true space) (char nl)) caps u)).
      * unfold space. rewrite matches_seq, matches_star_greedy, flat_map_map.
        cbn [fst snd]. rewrite nl_in_run.
        destruct (span is_digit rest') as [d' r]. cbn [snd fst].
        reflexivity.
      * intros c' s' Hc'. unfold space.
        rewrite matches_seq, matches_star_greedy. cbn [greedy_rests].
        rewrite (digit_not_space c' Hc'). cbn [map flat_map fst snd].
        unfold char. cbn [matches]. now rewrite (digit_not_nl c' Hc').
    + cbn [span]. rewrite Ed. reflexivity.
Qed.

Lemma groupless_block_end : groupless block_end = true.
Proof. reflexivity. Qed.

Lemma matches_lookahead_block_end (caps : captures) (s : string) :
  matches (Lookahead block_end) caps s
  = if at_block_end s then [(caps, s)] else [].
Proof.
  cbn [matches]. rewrite <- nonempty_block_end with (caps := caps).
  destruct (matches block_end caps s) as [|x more] eqn:E; [reflexivity|].
  cbn [nonempty].
  rewrite (matches_groupless block_end groupless_block_end caps s x);
    [reflexivity | rewrite E; now left].
Qed.

(** ** The text of a block: the lazy star against the lookahead *)

Lemma first_block_end (caps : captures) :
  forall r pre,
    hd_error
      (flat_map (fun u => if at_block_end u
                          then [((3%nat, consumed (pre +++ r) u) :: caps, u)]
                          else [])
                (suffixes r))
    = Some ((3%nat, pre +++ fst (until_block_end r)) :: caps,
            snd (until_block_end r)).
Proof.
  induction r as [|c r' IH]; intros pre.
  - cbn [suffixes flat_map at_block_end until_block_end fst snd app hd_error].
    rewrite consumed_app, append_empty_r. reflexivity.
  - cbn [suffixes flat_map until_block_end at_block_end].
    destruct (index_ahead (String c r')) eqn:Ea.
    + cbn [fst snd app hd_error].
      rewrite consumed_app, append_empty_r. reflexivity.
    + cbn [app].
      specialize (IH (pre +++ String c EmptyString)).
      rewrite append_assoc in IH. cbn [append] in IH.
      rewrite IH. destruct (until_block_end r') as [t rest]. cbn [fst snd].
      rewrite append_assoc. reflexivity.
Qed.

Lemma matches_text_and_end (caps : captures) (r : string) :
  hd_error (matches text_and_end caps r)
  = Some ((3%nat, fst (until_block_end r)) :: caps, snd (until_block_end r)).
Proof.
  unfold text_and_end. rewrite matches_seq.
  change (matches (Group 3 (Star false (Alt dot (char nl)))) caps r)
    with (map (fun x : result => ((3%nat, consumed r (snd x)) :: fst x, snd x))
              (star_iter (matches (Alt dot (char nl))) false
                         (String.length r) caps r)).
  rewrite star_lazy_any by lia.
  rewrite map_map, flat_map_map. cbn [fst snd].
  erewrite flat_map_ext.
  2:{ intros u. apply matches_lookahead_block_end. }
  exact (first_block_end caps r EmptyString).
Qed.

(** ** Whitespace up to a newline *)

Lemma span_all (p : ascii -> bool) (s : string) :
  all_chars p (fst (span p s)) = true.
Proof.
  induction s as [|c rest IH]; simpl; [reflexivity|].
  destruct (p c) eqn:Ec; [|reflexivity].
  destruct (span p rest) as [a b]. simpl in *. now rewrite Ec, IH.
Qed.

(** After the index: the whitespace must end with a newline, and the
    star takes all of it. *)
Lemma matches_after_index (T : regex) (caps : captures) :
  (forall c s', is_space c = true -> matches T caps (String c s') = []) ->
  forall s,
    matches (Seq (Star true space) (Seq (char nl) T)) caps s
    = match after_last_nl (fst (span is_space s)) with
      | Some EmptyString => matches T caps (snd (span is_space s))
      | _ => []
      end.
Proof.
  intros HT s. unfold space.
  rewrite matches_seq, matches_star_greedy, flat_map_map. cbn [fst snd].
  induction s as [|c s' IH].
  - reflexivity.
  - cbn [greedy_rests span]. destruct (is_space c) eqn:Ec.
    + rewrite flat_map_app, IH. clear IH.
      pose proof (span_app is_space s') as Happ.
      pose proof (span_all is_space s') as Hall.
      destruct (span is_space s') as [w' s2]. cbn [fst snd] in *.
      cbn [flat_map after_last_nl]. rewrite app_nil_r.
      unfold char. rewrite matches_seq_chr.
      unfold is_nl. rewrite (Ascii.eqb_sym nl c).
      destruct w' as [|d w''].
      * cbn [after_last_nl append] in *. subst s'.
        destruct (Ascii.eqb c nl); reflexivity.
      * cbn [all_chars] in Hall. apply andb_true_iff in Hall as [Hd _].
        cbn [append] in Happ. subst s'.
        rewrite (HT d _ Hd).
        destruct (after_last_nl (String d w'')) as [[|x a]|];
          destruct (Ascii.eqb c nl); rewrite ?app_nil_r; reflexivity.
    + cbn [flat_map fst snd after_last_nl]. rewrite app_nil_r.
      unfold char. rewrite matches_seq_chr.
      destruct (Ascii.eqb_spec nl c) as [<- | ]; [discriminate | reflexivity].
Qed.

(** After the time range: the text starts behind the last newline of the
    run of whitespace. *)
Lemma matches_after_time (caps : captures) (s : string) :
  hd_error (matches (Seq (Star true space) (Seq (char nl) text_and_end)) caps s)
  = match after_last_nl (fst (span is_space s)) with
    | None => None
    | Some a =>
        Some ((3%nat, fst (until_block_end (a +++ snd (span is_space s))))
                :: caps,
              snd (until_block_end (a +++ snd (span is_space s))))
    end.
Proof.
  unfold space.
  rewrite matches_seq, matches_star_greedy, flat_map_map. cbn [fst snd].
  induction s as [|c s' IH].
  - reflexivity.
  - cbn [greedy_rests span]. destruct (is_space c) eqn:Ec.
    + rewrite flat_map_app, hd_error_app, IH. clear IH.
      pose proof (span_app is_space s') as Happ.
      destruct (span is_space s') as [w' s2]. cbn [fst snd] in *.
      cbn [after_last_nl].
      destruct (after_last_nl w') as [a|]; [reflexivity|].
      cbn [flat_map]. rewrite app_nil_r.
      unfold char. rewrite matches_seq_chr.
      unfold is_nl. rewrite (Ascii.eqb_sym nl c).
      destruct (Ascii.eqb c nl); [|reflexivity].
      rewrite matches_text_and_end, Happ. reflexivity.
    + cbn [flat_map fst snd after_last_nl]. rewrite app_nil_r.
      unfold char. rewrite matches_seq_chr.
      destruct (Ascii.eqb_spec nl c) as [<- | ]; [discriminate | reflexivity].
Qed.

(** ** The pattern is the scanner *)

Lemma scan_time_range_space (c : ascii) (s : string) :
  is_space c = true -> scan_time_range (String c s) = None.
Proof.
  intros H. unfold scan_time_range. simpl. now rewrite (space_not_digit c H).
Qed.

Lemma match_at_block (s : string) :
  match_at srt_pattern s
  = option_map (fun br : srt_item * string => (caps_of (fst br), snd br))
               (match_block s).
Proof.
  unfold match_at.
  change srt_pattern
    with (Seq (Group 1 (plus digit))
            (Seq (Star true space)
               (Seq (char nl)
                  (Seq (Group 2 time_range)
                     (Seq (Star true space) (Seq (char nl) text_and_end)))))).
  rewrite matches_seq.
  change (matches (Group 1 (plus digit)) [] s)
    with (map (fun x : result => ((1%nat, consumed s (snd x)) :: fst x, snd x))
              (matches (plus digit) [] s)).
  rewrite matches_plus_digit. unfold match_block.
  destruct s as [|c s']; [reflexivity|].
  destruct (is_digit c) eqn:Ec; [|cbn [span]; rewrite Ec; reflexivity].
  rewrite (span_digit_cons c s' Ec).
  rewrite map_map, flat_map_map. cbn [fst snd String.eqb].
  assert (Hws : forall caps c0 s0,
             is_space c0 = true ->
             matches (Seq (Group 2 time_range)
                        (Seq (Star true space) (Seq (char nl) text_and_end)))
                     caps (String c0 s0) = []).
  { intros caps c0 s0 H0. rewrite matches_seq, matches_group_time_range.
    now rewrite (scan_time_range_space c0 s0 H0). }
  rewrite (flat_map_greedy_skip is_digit
             (fun u => matches
                         (Seq (Star true space)
                            (Seq (char nl)
                               (Seq (Group 2 time_range)
                                  (Seq (Star true space)
                                     (Seq (char nl) text_and_end)))))
                         [(1%nat, consumed (String c s') u)] u)).
  2:{ intros d s0 Hd. rewrite matches_after_index by (apply Hws).
      cbn [span]. now rewrite (digit_not_space d Hd). }
  pose proof (span_app is_digit s') as Happ.
  destruct (span is_digit s') as [ds s1]. cbn [fst snd] in *.
  assert (Hidx : consumed (String c s') s1 = String c ds).
  { rewrite <- Happ. exact (consumed_app (String c ds) s1). }
  rewrite Hidx. clear Hidx Happ.
  rewrite matches_after_index by (apply Hws).
  destruct (span is_space s1) as [w1 s2]. cbn [fst snd].
  destruct (after_last_nl w1) as [[|x a]|]; try reflexivity.
  rewrite matches_seq, matches_group_time_range.
  destruct (scan_time_range s2) as [[tr s3]|]; [|reflexivity].
  cbn [flat_map fst snd]. rewrite app_nil_r, matches_after_time.
  destruct (span is_space s3) as [w2 s4]. cbn [fst snd].
  destruct (after_last_nl w2) as [a|]; [|reflexivity].
  destruct (until_block_end (a +++ s4)) as [txt rest]. reflexivity.
Qed.

Lemma findall_scan (s : string) :
  forall skip,
    findall_from srt_pattern skip s = map caps_of (scan_from skip s).
Proof.
  induction s as [|c rest IH]; intros skip.
  - destruct skip; [|reflexivity]. cbn [findall_from scan_from].
    rewrite match_at_block. reflexivity.
  - destruct skip as [|skip]; [|apply IH].
    cbn [findall_from scan_from]. rewrite match_at_block.
    destruct (match_block (String c rest)) as [[b after]|]; cbn [option_map fst snd].
    + cbn [map]. now rewrite IH.
    + apply IH.
Qed.

(** The regular expression of [parse_srt] finds the blocks that the
    scanner finds. *)
Lemma parse_srt_scan (content : string) :
  parse_srt content = scan_blocks content.
Proof.
  unfold parse_srt, scan_blocks, findall.
  rewrite findall_scan, map_map. reflexivity.
Qed.



End RegexFacts.

(* ================================================================== *)
(** * Parsing and rebuilding well-formed subtitle text *)
(* ================================================================== *)

Module CodecFacts.
Import PyStr Regex Codec RegexFacts.

(** ** Runs of a class in front of a text *)

Lemma span_append (p : ascii -> bool) (a r : string) :
  starts_with_class p r = false ->
  span p (a +++ r) = (fst (span p a), snd (span p a) +++ r).
Proof.
  intros Hr. induction a as [|c a IH]; simpl.
  - destruct r as [|d r]; simpl in *; [reflexivity | now rewrite Hr].
  - destruct (p c); [|reflexivity].
    rewrite IH. now destruct (span p a).
Qed.

Lemma span_all_chars (p : ascii -> bool) (a : string) :
  all_chars p a = true -> span p a = (a, EmptyString).
Proof.
  induction a as [|c a IH]; simpl; intros H; [reflexivity|].
  apply andb_true_iff in H as [Hc Ha]. now rewrite Hc, (IH Ha).
Qed.

Lemma span_run (p : ascii -> bool) (a r : string) :
  all_chars p a = true -> starts_with_class p r = false ->
  span p (a +++ r) = (a, r).
Proof.
  intros Ha Hr. now rewrite (span_append p a r Hr), (span_all_chars p a Ha).
Qed.

Lemma span_none (p : ascii -> bool) (r : string) :
  starts_with_class p r = false -> span p r = (EmptyString, r).
Proof.
  destruct r as [|c r]; simpl; intros H; [reflexivity | now rewrite H].
Qed.

(** ** Fixed sequences, again *)

Lemma take_classes_append (classes : list (ascii -> bool)) :
  forall s a r rest,
    take_classes classes s = Some (a, r) ->
    take_classes classes (s +++ rest) = Some (a, r +++ rest).
Proof.
  induction classes as [|p more IH]; intros s a r rest H; simpl in H.
  - injection H as <- <-. reflexivity.
  - destruct s as [|c s]; [discriminate|]. simpl.
    destruct (p c); [|discriminate].
    destruct (take_classes more s) as [[a' r']|] eqn:E; [|discriminate].
    injection H as <- <-. now rewrite (IH s a' r' rest E).
Qed.

Lemma take_classes_split (c1 c2 : list (ascii -> bool)) :
  forall s,
    take_classes (c1 ++ c2) s
    = match take_classes c1 s with
      | Some (a, r) =>
          match take_classes c2 r with
          | Some (b, r') => Some (a +++ b, r')
          | None => None
          end
      | None => None
      end.
Proof.
  induction c1 as [|p more IH]; intros s; simpl.
  - destruct (take_classes c2 s) as [[b r']|]; reflexivity.
  - destruct s as [|c s]; [reflexivity|].
    destruct (p c); [|reflexivity]. rewrite IH.
    destruct (take_classes more s) as [[a r]|]; [|reflexivity].
    destruct (take_classes c2 r) as [[b r']|]; reflexivity.
Qed.

(** A text in the format of a time range is what [scan_time_range]
    takes from the front of any continuation. *)
Lemma scan_time_range_exact (t rest : string) :
  is_time_range t = true ->
  scan_time_range (t +++ rest) = Some (t, rest).
Proof.
  unfold is_time_range. intros H.
  rewrite take_classes_split in H.
  destruct (take_classes timestamp_classes t) as [[t1 r1]|] eqn:E1; [|discriminate].
  rewrite take_classes_split in H.
  destruct (take_classes [Ascii.eqb " "] r1) as [[sp1 r2]|] eqn:E2; [|discriminate].
  rewrite take_classes_split in H.
  destruct (take_classes arrow_classes r2) as [[ar r3]|] eqn:E3; [|discriminate].
  rewrite take_classes_split in H.
  destruct (take_classes [Ascii.eqb " "] r3) as [[sp2 r4]|] eqn:E4; [|discriminate].
  destruct (take_classes timestamp_classes r4) as [[t2 r5]|] eqn:E5; [|discriminate].
  destruct r5; [|discriminate]. clear H.
  pose proof (take_classes_app _ _ _ _ E1) as H1.
  pose proof (take_classes_app _ _ _ _ E2) as H2.
  pose proof (take_classes_app _ _ _ _ E3) as H3.
  pose proof (take_classes_app _ _ _ _ E4) as H4.
  pose proof (take_classes_app _ _ _ _ E5) as H5.
  rewrite append_empty_r in H5.
  (* the two separators are single spaces *)
  assert (Hsp1 : sp1 = " ").
  { destruct r1 as [|c r1]; [discriminate|]. cbn [take_classes] in E2.
    destruct (Ascii.eqb_spec " " c) as [<- | ]; [|discriminate].
    now injection E2 as <- _. }
  assert (Hsp2 : sp2 = " ").
  { destruct r3 as [|c r3]; [discriminate|]. cbn [take_classes] in E4.
    destruct (Ascii.eqb_spec " " c) as [<- | ]; [|discriminate].
    now injection E4 as <- _. }
  subst sp1 sp2.
  (* the arrow and the second timestamp do not start with whitespace *)
  assert (Har : starts_with_class is_space r2 = false).
  { destruct r2 as [|c r2]; [reflexivity|].
    cbn [take_classes arrow_classes] in E3. cbn [starts_with_class].
    destruct (Ascii.eqb_spec "-" c) as [<- | ]; [reflexivity | discriminate]. }
  assert (Ht2 : starts_with_class is_space r4 = false).
  { destruct r4 as [|c r4]; [reflexivity|].
    cbn [take_classes timestamp_classes] in E5. cbn [starts_with_class].
    destruct (is_digit c) eqn:Ec; [|discriminate].
    now apply digit_not_space. }
  unfold scan_time_range.
  rewrite (take_classes_append _ _ _ _ rest E1).
  rewrite H2. cbn [append].
  assert (Hw1 : span is_space (String " " (r2 +++ rest)) = (" ", r2 +++ rest)).
  { change (String " " (r2 +++ rest)) with (" " +++ (r2 +++ rest)).
    apply span_run; [reflexivity|].
    destruct r2; [simpl in E3; discriminate | exact Har]. }
  rewrite Hw1.
  rewrite (take_classes_append _ _ _ _ rest E3).
  rewrite H4. cbn [append].
  assert (Hw2 : span is_space (String " " (r4 +++ rest)) = (" ", r4 +++ rest)).
  { change (String " " (r4 +++ rest)) with (" " +++ (r4 +++ rest)).
    apply span_run; [reflexivity|].
    destruct r4; [simpl in E5; discriminate | exact Ht2]. }
  rewrite Hw2.
  rewrite (take_classes_append _ _ _ _ rest E5). cbn [append].
  f_equal. f_equal.
  rewrite H1, H2, H3, H4, H5. cbn [append]. reflexivity.
Qed.

Lemma time_range_starts_with_digit (t rest : string) :
  is_time_range t = true -> starts_with_class is_space (t +++ rest) = false.
Proof.
  unfold is_time_range. destruct t as [|c t]; [discriminate|].
  simpl. destruct (is_digit c) eqn:Ec; [|discriminate].
  intros _. now apply digit_not_space.
Qed.

(** ** Trimming the text of a block *)

Lemma lstrip_length (s : string) : (String.length (lstrip s) <= String.length s)%nat.
Proof.
  induction s as [|c s IH]; simpl; [lia|].
  destruct (is_space c); simpl; lia.
Qed.

Lemma rstrip_length (s : string) : (String.length (rstrip s) <= String.length s)%nat.
Proof.
  induction s as [|c s IH]; simpl; [lia|].
  destruct (rstrip s); [destruct (is_space c)|]; simpl in *; lia.
Qed.

Lemma strip_fixed_head (t : string) :
  strip t = t -> starts_with_class is_space t = false.
Proof.
  destruct t as [|c t]; [reflexivity|]. simpl. intros H.
  destruct (is_space c) eqn:Ec; [|reflexivity]. exfalso.
  unfold strip in H. cbn [lstrip] in H. rewrite Ec in H.
  pose proof (rstrip_length (lstrip t)) as H1.
  pose proof (lstrip_length t) as H2.
  rewrite H in H1. simpl in H1. lia.
Qed.

Lemma lstrip_fixed (t : string) :
  starts_with_class is_space t = false -> lstrip t = t.
Proof. destruct t as [|c t]; simpl; intros H; [reflexivity | now rewrite H]. Qed.

Lemma rstrip_spaces (w : string) :
  all_chars is_space w = true -> rstrip w = EmptyString.
Proof.
  induction w as [|c w IH]; simpl; intros H; [reflexivity|].
  apply andb_true_iff in H as [Hc Hw]. now rewrite (IH Hw), Hc.
Qed.

Lemma rstrip_append_spaces (a w : string) :
  all_chars is_space w = true -> rstrip (a +++ w) = rstrip a.
Proof.
  intros Hw. induction a as [|c a IH]; simpl.
  - now apply rstrip_spaces.
  - now rewrite IH.
Qed.

(** The text of a well-formed block, with the newline that ends it,
    trims to itself. *)
Lemma strip_block_text (t : string) :
  strip t = t -> t <> EmptyString ->
  strip (t +++ String nl EmptyString) = t.
Proof.
  intros Hfix Hne. pose proof (strip_fixed_head t Hfix) as Hhead.
  unfold strip. rewrite lstrip_fixed.
  - rewrite rstrip_append_spaces by reflexivity.
    unfold strip in Hfix. now rewrite (lstrip_fixed t Hhead) in Hfix.
  - destruct t; [contradiction | exact Hhead].
Qed.

(** ** Lines and the lookahead *)

Lemma lines_append_nl (a b : string) :
  Sanitizer.lines (a +++ String nl b) = Sanitizer.lines a ++ Sanitizer.lines b.
Proof.
  induction a as [|c a IH]; [reflexivity|].
  cbn [append Sanitizer.lines]. rewrite IH.
  destruct (Ascii.eqb c nl); [reflexivity|].
  pose proof (SanitizerFacts.lines_nonempty a) as Hne.
  destruct (Sanitizer.lines a); [contradiction | reflexivity].
Qed.

Lemma no_nl_span_rest (p : ascii -> bool) (l : string) :
  Sanitizer.no_nl l -> Sanitizer.no_nl (snd (span p l)).
Proof.
  unfold Sanitizer.no_nl. induction l as [|c l IH]; simpl; intros H; [reflexivity|].
  apply orb_false_iff in H as [Hc Hl].
  destruct (p c).
  - specialize (IH Hl). now destruct (span p l).
  - simpl. now rewrite Hc, Hl.
Qed.

(** Whitespace in a line reaches the newline after the line exactly when
    the line ends in whitespace only. *)
Lemma space_run_reaches_nl (r rest : string) :
  Sanitizer.no_nl r ->
  negb (all_chars (fun x => negb (is_nl x))
                  (fst (span is_space (r +++ String nl rest))))
  = all_chars is_space r.
Proof.
  unfold Sanitizer.no_nl. induction r as [|c r IH]; intros H.
  - cbn [append span]. rewrite nl_is_space.
    destruct (span is_space rest). reflexivity.
  - simpl in H. apply orb_false_iff in H as [Hc Hr].
    cbn [append span all_chars]. destruct (is_space c); [|reflexivity].
    specialize (IH Hr).
    destruct (span is_space (r +++ String nl rest)) as [w s2].
    cbn [fst all_chars andb] in *. unfold is_nl at 1. rewrite Hc. exact IH.
Qed.

Lemma index_ahead_line (l rest : string) :
  Sanitizer.no_nl l ->
  index_ahead (String nl (l +++ String nl rest)) = is_index_like l.
Proof.
  intros Hl. unfold index_ahead, is_index_like.
  change (is_nl nl) with true. cbn [andb].
  rewrite (span_append is_digit l (String nl rest)) by reflexivity.
  pose proof (no_nl_span_rest is_digit l Hl) as Hr.
  destruct (span is_digit l) as [d r]. cbn [fst snd] in *.
  now rewrite (space_run_reaches_nl r rest Hr).
Qed.

(** ** The text runs to the end of the block *)

Lemma until_block_end_append (a rest : string) :
  (forall pre u, a = pre +++ u -> u <> EmptyString ->
                 index_ahead (u +++ rest) = false) ->
  at_block_end rest = true ->
  until_block_end (a +++ rest) = (a, rest).
Proof.
  intros Hin Hend. induction a as [|c a IH].
  - cbn [append]. destruct rest as [|d rest]; [reflexivity|].
    cbn [until_block_end]. cbn [at_block_end] in Hend. now rewrite Hend.
  - cbn [append until_block_end].
    assert (H0 : index_ahead (String c a +++ rest) = false).
    { apply (Hin EmptyString (String c a) eq_refl). discriminate. }
    cbn [append] in H0. rewrite H0.
    rewrite IH; [reflexivity|].
    intros pre u Hpre Hu. apply (Hin (String c pre) u); [|exact Hu].
    cbn [append]. now rewrite Hpre.
Qed.

Lemma append_last_split (pre w t : string) (c : ascii) :
  pre +++ w = t +++ String c EmptyString -> w <> EmptyString ->
  exists w', w = w' +++ String c EmptyString /\ t = pre +++ w'.
Proof.
  revert t. induction pre as [|x pre IH]; intros t H Hw.
  - exists t. split; [exact H | reflexivity].
  - destruct t as [|y t]; cbn [append] in H.
    + injection H as _ H. destruct pre; [|discriminate].
      cbn [append] in H. contradiction.
    + injection H as <- H. destruct (IH t H Hw) as (w' & Hw' & Ht).
      exists w'. split; [exact Hw' | cbn [append]; now rewrite Ht].
Qed.

Lemma first_line_append (v rest : string) :
  exists l x,
    Sanitizer.lines v = l :: tl (Sanitizer.lines v)
    /\ v +++ String nl rest = l +++ String nl x.
Proof.
  pose proof (SanitizerFacts.lines_nonempty v) as Hne.
  pose proof (SanitizerFacts.unlines_lines v) as Hun.
  destruct (Sanitizer.lines v) as [|l more]; [contradiction|].
  destruct more as [|l2 more].
  - exists l, rest. split; [reflexivity|].
    unfold Sanitizer.unlines in Hun. cbn in Hun. now subst.
  - exists l, (Sanitizer.unlines (l2 :: more) +++ String nl rest).
    split; [reflexivity|].
    rewrite SanitizerFacts.unlines_cons in Hun by discriminate.
    rewrite <- Hun at 1. rewrite append_assoc. reflexivity.
Qed.

Lemma block_text_until_end (t rest : string) :
  is_block_text t = true -> block_follows rest ->
  until_block_end (t +++ String nl rest) = (t +++ String nl EmptyString, rest).
Proof.
  unfold is_block_text. intros Ht Hrest.
  apply andb_true_iff in Ht as [_ Hlines].
  assert (Happ : t +++ String nl rest = (t +++ String nl EmptyString) +++ rest).
  { now rewrite append_assoc. }
  rewrite Happ. apply until_block_end_append.
  - intros pre u Hsplit Hu.
    destruct u as [|c u]; [contradiction|].
    destruct (is_nl c) eqn:Ec; [|cbn [append index_ahead]; now rewrite Ec].
    apply Ascii.eqb_eq in Ec. subst c.
    symmetry in Hsplit.
    destruct (append_last_split pre (String nl u) t nl Hsplit Hu)
      as (w' & Hw' & Htext).
    destruct w' as [|x v].
    + (* the newline that ends the block *)
      cbn [append] in Hw'. injection Hw' as ->. cbn [append].
      destruct Hrest as [-> | (r & -> & _)]; reflexivity.
    + (* a newline inside the text *)
      cbn [append] in Hw'. injection Hw' as <- ->.
      destruct (first_line_append v rest) as (l & x & Hl & Hx).
      cbn [append]. rewrite append_assoc. cbn [append]. rewrite Hx.
      assert (Hnl : Sanitizer.no_nl l).
      { pose proof (SanitizerFacts.lines_no_nl v) as Hall.
        rewrite Hl in Hall. now inversion Hall. }
      rewrite (index_ahead_line l x Hnl).
      rewrite Htext, lines_append_nl in Hlines.
      pose proof (SanitizerFacts.lines_nonempty pre) as Hne.
      destruct (Sanitizer.lines pre) as [|p0 pmore]; [contradiction|].
      cbn [app tl] in Hlines. rewrite forallb_app in Hlines.
      apply andb_true_iff in Hlines as [_ Hv].
      rewrite Hl in Hv. cbn [forallb] in Hv.
      apply andb_true_iff in Hv as [Hv _].
      now apply negb_true_iff in Hv.
  - destruct Hrest as [-> | (r & -> & Hr)]; [reflexivity | exact Hr].
Qed.

(** ** One well-formed block *)

Lemma block_append (b : srt_item) (t rest : string) :
  block b t +++ rest
  = index b +++ String nl (time b +++ String nl (t +++ String nl rest)).
Proof.
  unfold block. rewrite append_assoc. cbn [append]. f_equal. f_equal.
  rewrite append_assoc. cbn [append]. f_equal. f_equal.
  rewrite append_assoc. reflexivity.
Qed.

Lemma digits_no_nl (l : string) :
  all_chars is_digit l = true -> Sanitizer.no_nl l.
Proof.
  unfold Sanitizer.no_nl. induction l as [|c l IH]; simpl; intros H; [reflexivity|].
  apply andb_true_iff in H as [Hc Hl]. rewrite (IH Hl), orb_false_r.
  rewrite Ascii.eqb_sym. now apply digit_not_nl.
Qed.

Lemma index_line_like (l : string) :
  is_index_line l = true -> is_index_like l = true.
Proof.
  unfold is_index_line, is_index_like. intros H.
  apply andb_true_iff in H as [Hne Hd].
  rewrite (span_all_chars is_digit l Hd). now rewrite Hne.
Qed.

Lemma match_block_wf (b : srt_item) (rest : string) :
  wf_block b = true -> block_follows rest ->
  match_block (block b (text b) +++ rest)
  = Some (mk_item (index b) (time b) (text b +++ String nl EmptyString), rest).
Proof.
  unfold wf_block. intros Hwf Hrest.
  apply andb_true_iff in Hwf as [Hwf Htext].
  apply andb_true_iff in Hwf as [Hidx Htime].
  pose proof Htext as Htext'. unfold is_block_text in Htext'.
  apply andb_true_iff in Htext' as [Htext' _].
  apply andb_true_iff in Htext' as [Hne Hfix].
  apply negb_true_iff in Hne. apply String.eqb_eq in Hfix.
  unfold is_index_line in Hidx. apply andb_true_iff in Hidx as [Hine Hdig].
  apply negb_true_iff in Hine.
  rewrite block_append. unfold match_block.
  rewrite (span_run is_digit (index b)) by (assumption || reflexivity).
  rewrite Hine.
  change (String nl (time b +++ String nl (text b +++ String nl rest)))
    with (String nl EmptyString
          +++ (time b +++ String nl (text b +++ String nl rest))).
  rewrite (span_run is_space (String nl EmptyString))
    by (reflexivity || now apply time_range_starts_with_digit).
  cbn [after_last_nl]. change (is_nl nl) with true. cbv iota.
  rewrite (scan_time_range_exact (time b) _ Htime).
  change (String nl (text b +++ String nl rest))
    with (String nl EmptyString +++ (text b +++ String nl rest)).
  rewrite (span_run is_space (String nl EmptyString)).
  - cbn [after_last_nl]. change (is_nl nl) with true. cbv iota.
    cbn [append].
    now rewrite (block_text_until_end (text b) rest Htext Hrest).
  - reflexivity.
  - pose proof (strip_fixed_head (text b) Hfix) as Hhead.
    destruct (text b); [discriminate | exact Hhead].
Qed.

(** ** A sequence of well-formed blocks *)

Lemma scan_from_skip (a r : string) :
  scan_from (String.length a) (a +++ r) = scan_from 0 r.
Proof. induction a as [|c a IH]; [reflexivity | exact IH]. Qed.

Lemma scan_from_wf_block (b : srt_item) (rest : string) :
  wf_block b = true -> block_follows rest ->
  scan_from 0 (block b (text b) +++ rest)
  = mk_item (index b) (time b) (text b +++ String nl EmptyString)
    :: scan_from 0 rest.
Proof.
  intros Hwf Hrest. pose proof (match_block_wf b rest Hwf Hrest) as Hm.
  assert (Hlen : String.length (block b (text b) +++ rest)
                 = (String.length (block b (text b)) + String.length rest)%nat)
    by apply length_append.
  destruct (block b (text b)) as [|c blk] eqn:Eb.
  - exfalso. unfold block in Eb. destruct (index b); discriminate.
  - cbn [append] in *. cbn [scan_from]. rewrite Hm.
    f_equal. rewrite Hlen. cbn [String.length].
    replace (S (String.length blk) + String.length rest - String.length rest - 1)%nat
      with (String.length blk) by lia.
    apply scan_from_skip.
Qed.

Lemma srt_text_cons (b : srt_item) (more : list srt_item) :
  srt_text (b :: more)
  = block b (text b)
    +++ match more with
        | [] => EmptyString
        | _ :: _ => String nl (srt_text more)
        end.
Proof.
  unfold srt_text. destruct more as [|b2 more]; cbn [map join].
  - now rewrite append_empty_r.
  - reflexivity.
Qed.

Lemma scan_from_srt_text (blocks : list srt_item) :
  forallb wf_block blocks = true ->
  scan_from 0 (srt_text blocks)
  = map (fun b => mk_item (index b) (time b) (text b +++ String nl EmptyString))
        blocks.
Proof.
  induction blocks as [|b more IH]; intros Hall; [reflexivity|].
  cbn [forallb] in Hall. apply andb_true_iff in Hall as [Hb Hmore].
  rewrite srt_text_cons. cbn [map]. rewrite <- (IH Hmore).
  destruct more as [|b2 more'].
  - rewrite scan_from_wf_block; [reflexivity | exact Hb | now left].
  - rewrite scan_from_wf_block; [| exact Hb |].
    + reflexivity.
    + right. exists (srt_text (b2 :: more')). split; [reflexivity|].
      cbn [forallb] in Hmore. apply andb_true_iff in Hmore as [Hb2 _].
      unfold wf_block in Hb2. apply andb_true_iff in Hb2 as [Hb2 _].
      apply andb_true_iff in Hb2 as [Hidx2 _].
      rewrite srt_text_cons, block_append.
      rewrite index_ahead_line.
      * now apply index_line_like.
      * apply digits_no_nl. unfold is_index_line in Hidx2.
        now apply andb_true_iff in Hidx2 as [_ ?].
Qed.

(** [parse_srt] on the text of well-formed blocks gives the blocks
    back. *)
Lemma parse_srt_text (blocks : list srt_item) :
  forallb wf_block blocks = true ->
  parse_srt (srt_text blocks) = blocks.
Proof.
  intros Hall. rewrite parse_srt_scan. unfold scan_blocks.
  rewrite (scan_from_srt_text blocks Hall), map_map. cbn [index time text].
  rewrite <- (map_id blocks) at 2. apply map_ext_in.
  intros b Hb. rewrite forallb_forall in Hall. specialize (Hall b Hb).
  unfold wf_block in Hall. apply andb_true_iff in Hall as [_ Htext].
  unfold is_block_text in Htext. apply andb_true_iff in Htext as [Htext _].
  apply andb_true_iff in Htext as [Hne Hfix].
  apply negb_true_iff in Hne. apply String.eqb_eq in Hfix.
  rewrite strip_block_text.
  - now destruct b.
  - exact Hfix.
  - intros E. rewrite E in Hne. discriminate.
Qed.

(** ** Rebuilding *)

Lemma map_seq_nth {A B : Type} (f : A -> B) (d : A) (l : list A) :
  map (fun i => f (nth i l d)) (seq 0 (length l)) = map f l.
Proof.
  induction l as [|x l IH]; [reflexivity|].
  cbn [length seq map nth]. rewrite <- seq_shift, map_map. cbn [nth].
  now rewrite IH.
Qed.

(** [rebuild_srt] with the records' own texts writes the blocks one
    after the other, a blank line between two. *)
Lemma rebuild_srt_own_texts (records : list srt_item) :
  rebuild_srt records [map text records] = srt_text records.
Proof.
  unfold rebuild_srt, srt_text. cbn [concat]. rewrite app_nil_r.
  rewrite length_map, Nat.min_id. f_equal.
  rewrite <- (map_seq_nth (fun b => block b (text b)) (mk_item "" "" "") records).
  apply map_ext. intros i.
  f_equal. exact (map_nth text records (mk_item "" "" "") i).
Qed.

(** C9.  For the subtitle text of N well-formed blocks (an index of
    digits, a time range in the format [HH:MM:SS,mmm --> HH:MM:SS,mmm],
    a text that is not empty, is trimmed and has no line after its first
    that reads as an index; a blank line between two blocks), [parse_srt]
    yields the N blocks as records, in order, and [rebuild_srt] on these
    records and their own texts writes the subtitle text again: the same
    indices, the same time ranges, the same texts. *)
Theorem parse_rebuild_round_trip (blocks : list srt_item) :
  forallb wf_block blocks = true ->
  parse_srt (srt_text blocks) = blocks
  /\ length (parse_srt (srt_text blocks)) = length blocks
  /\ rebuild_srt (parse_srt (srt_text blocks))
                 [map text (parse_srt (srt_text blocks))]
     = srt_text blocks.
Proof.
  intros Hwf. rewrite (parse_srt_text blocks Hwf).
  split; [reflexivity|]. split; [reflexivity|].
  apply rebuild_srt_own_texts.
Qed.

(** The round trip on two blocks, the first with a text of two lines. *)
Lemma parse_rebuild_round_trip_witness :
  parse_srt (srt_text two_blocks) = two_blocks
  /\ length (parse_srt (srt_text two_blocks)) = length two_blocks
  /\ rebuild_srt (parse_srt (srt_text two_blocks))
                 [map text (parse_srt (srt_text two_blocks))]
     = srt_text two_blocks.
Proof.
  apply (parse_rebuild_round_trip two_blocks). reflexivity.
Defined.

End CodecFacts.

(* ================================================================== *)
(** * The chunker against its budget *)
(* ================================================================== *)

Module BudgetFacts.
Import Chunker Budget ChunkerFacts.

Lemma total_length_app (a b : list srt_item) :
  total_length (a ++ b) = total_length a + total_length b.
Proof.
  induction a as [|x a IH]; simpl; [reflexivity | rewrite IH; lia].
Qed.

Lemma total_length_nonneg (a : list srt_item) : 0 <= total_length a.
Proof.
  induction a as [|x a IH]; simpl; [lia | unfold PyStr.len; lia].
Qed.

(** [current_length] is the text length of the open batch. *)
Lemma step_current_length (chunk_size : Z) (st : loop_state) (item : srt_item) :
  current_length st = total_length (current_chunk st) ->
  current_length (step chunk_size st item)
  = total_length (current_chunk (step chunk_size st item)).
Proof.
  intros H. unfold step.
  destruct (current_length st + PyStr.len (text item) >? chunk_size); simpl.
  - lia.
  - rewrite total_length_app, H. simpl. lia.
Qed.

(** The loop keeps every batch of two records or more within the
    budget. *)
Lemma fold_within_budget (chunk_size : Z) (parsed_data : list srt_item) :
  forall st,
    current_length st = total_length (current_chunk st) ->
    (forall b, In b (current_chunk st :: chunks st) ->
               (2 <= length b)%nat -> total_length b <= chunk_size) ->
    let st' := fold_left (step chunk_size) parsed_data st in
    forall b, In b (current_chunk st' :: chunks st') ->
              (2 <= length b)%nat -> total_length b <= chunk_size.
Proof.
  induction parsed_data as [|item rest IH]; intros st Hlen Hall; simpl.
  - exact Hall.
  - apply IH.
    + now apply step_current_length.
    + unfold step.
      destruct (Z.gtb_spec (current_length st + PyStr.len (text item)) chunk_size)
        as [Hover | Hfits]; simpl.
      * intros b [<- | Hb] H2; [simpl in H2; lia |].
        apply in_app_or in Hb as [Hb | [<- | []]].
        -- apply Hall; [now right | exact H2].
        -- apply Hall; [now left | exact H2].
      * intros b [<- | Hb] H2.
        -- rewrite total_length_app. simpl. lia.
        -- apply Hall; [now right | exact H2].
Qed.

(** X1.  For every input and every chunk size, a batch of [chunk_text]
    that holds two records or more has a total text length of at most
    the chunk size: only a batch made of a single record can exceed the
    budget. *)
Theorem chunk_text_within_budget (parsed_data : list srt_item) (chunk_size : Z) :
  Forall (fun batch => (2 <= length batch)%nat ->
                       total_length batch <= chunk_size)
         (chunk_text parsed_data chunk_size).
Proof.
  apply Forall_forall. intros b Hb.
  pose proof (fold_within_budget chunk_size parsed_data init eq_refl) as H.
  simpl in H.
  assert (Hinit : forall b, In b ([] :: @nil (list srt_item)) ->
                            (2 <= length b)%nat -> total_length b <= chunk_size).
  { intros b' [<- | []] H2. simpl in H2. lia. }
  specialize (H Hinit b).
  apply H. unfold chunk_text in Hb.
  destruct (current_chunk (fold_left (step chunk_size) parsed_data init)) eqn:E.
  - now right.
  - apply in_app_or in Hb as [Hb | [<- | []]]; [now right | now left].
Qed.

(** ** A batch is closed only when the next record does not fit *)

Lemma closed_when_full_extend (chunk_size : Z) (batches : list (list srt_item))
    (batch : list srt_item) (item : srt_item) :
  batch <> [] ->
  closed_when_full chunk_size (batches ++ [batch]) ->
  closed_when_full chunk_size (batches ++ [batch ++ [item]]).
Proof.
  intros Hne. induction batches as [|b bs IH]; simpl; [auto|].
  destruct bs as [|b' bs']; simpl in *.
  - destruct batch as [|x batch']; [contradiction|]. simpl. auto.
  - intros [H1 H2]. split; [exact H1 | apply IH; exact H2].
Qed.

Lemma closed_when_full_close (chunk_size : Z) (batches : list (list srt_item))
    (batch : list srt_item) (item : srt_item) :
  total_length batch + PyStr.len (text item) > chunk_size ->
  closed_when_full chunk_size (batches ++ [batch]) ->
  closed_when_full chunk_size ((batches ++ [batch]) ++ [[item]]).
Proof.
  intros Hfull. induction batches as [|b bs IH]; simpl.
  - auto.
  - destruct bs as [|b' bs']; simpl in *.
    + intros [H1 _]. split; [exact H1 | split; [exact Hfull | exact I]].
    + intros [H1 H2]. split; [exact H1 | apply IH; exact H2].
Qed.

Lemma fold_closed_when_full (chunk_size : Z) (parsed_data : list srt_item) :
  forall st,
    current_length st = total_length (current_chunk st) ->
    (current_chunk st = [] -> chunks st = []) ->
    closed_when_full chunk_size (chunks st ++ [current_chunk st]) ->
    let st' := fold_left (step chunk_size) parsed_data st in
    (current_chunk st' = [] -> chunks st' = [])
    /\ closed_when_full chunk_size (chunks st' ++ [current_chunk st']).
Proof.
  induction parsed_data as [|item rest IH]; intros st Hlen Hempty Hc; simpl.
  - auto.
  - apply IH.
    + now apply step_current_length.
    + intros E. now apply step_current_nonempty in E.
    + unfold step.
      destruct (Z.gtb_spec (current_length st + PyStr.len (text item)) chunk_size)
        as [Hover | Hfits]; simpl.
      * apply closed_when_full_close; [lia | exact Hc].
      * destruct (current_chunk st) as [|x cur] eqn:E.
        -- rewrite (Hempty eq_refl). simpl. exact I.
        -- apply closed_when_full_extend; [discriminate | exact Hc].
Qed.

Lemma closed_when_full_at (chunk_size : Z) (before : list (list srt_item))
    (batch : list srt_item) (item : srt_item) (rest : list srt_item)
    (after : list (list srt_item)) :
  closed_when_full chunk_size (before ++ batch :: (item :: rest) :: after) ->
  total_length batch + PyStr.len (text item) > chunk_size.
Proof.
  induction before as [|b bs IH]; simpl.
  - intros [H _]. exact H.
  - destruct (bs ++ batch :: (item :: rest) :: after) eqn:E.
    + destruct bs; discriminate.
    + intros [_ H]. apply IH. exact H.
Qed.

Lemma chunk_text_closed_when_full (parsed_data : list srt_item) (chunk_size : Z) :
  closed_when_full chunk_size (chunk_text parsed_data chunk_size).
Proof.
  destruct (fold_closed_when_full chunk_size parsed_data init eq_refl)
    as [Hempty Hc]; simpl; auto.
  unfold chunk_text.
  destruct (current_chunk (fold_left (step chunk_size) parsed_data init)) eqn:E.
  - rewrite (Hempty eq_refl). exact I.
  - exact Hc.
Qed.

(** X2.  [chunk_text] packs greedily: wherever a batch is followed by
    another one, the first record of the following batch did not fit,
    that is the text length of the batch plus the length of that record
    exceeds the chunk size. *)
Theorem chunk_text_closes_when_full (parsed_data : list srt_item)
    (chunk_size : Z) (before : list (list srt_item)) (batch : list srt_item)
    (item : srt_item) (rest : list srt_item) (after : list (list srt_item)) :
  chunk_text parsed_data chunk_size
  = before ++ batch :: (item :: rest) :: after ->
  total_length batch + PyStr.len (text item) > chunk_size.
Proof.
  intros H. apply (closed_when_full_at chunk_size before batch item rest after).
  rewrite <- H. apply chunk_text_closed_when_full.
Qed.

Lemma chunk_text_closes_when_full_witness :
  chunk_text three_lines 10 = [[line1; line2]; [line3]]
  /\ total_length [line1; line2] + PyStr.len (text line3) > 10.
Proof.
  split; [reflexivity|].
  apply (chunk_text_closes_when_full three_lines 10 [] _ _ [] []).
  reflexivity.
Defined.

(** ** Input that fits one batch *)

Lemma fold_single_batch (chunk_size : Z) (parsed_data : list srt_item) :
  forall st,
    chunks st = [] ->
    current_length st = total_length (current_chunk st) ->
    total_length (current_chunk st) + total_length parsed_data <= chunk_size ->
    let st' := fold_left (step chunk_size) parsed_data st in
    chunks st' = [] /\ current_chunk st' = current_chunk st ++ parsed_data.
Proof.
  induction parsed_data as [|item rest IH]; intros st Hc Hlen Hfit; simpl.
  - now rewrite app_nil_r.
  - simpl in Hfit. pose proof (total_length_nonneg rest) as Hrest.
    assert (Hstep : step chunk_size st item
                    = {| chunks := [];
                         current_chunk := current_chunk st ++ [item];
                         current_length := current_length st
                                           + PyStr.len (text item) |}).
    { unfold step.
      destruct (Z.gtb_spec (current_length st + PyStr.len (text item)) chunk_size);
        [lia | now rewrite Hc]. }
    rewrite Hstep.
    destruct (IH {| chunks := [];
                    current_chunk := current_chunk st ++ [item];
                    current_length := current_length st
                                      + PyStr.len (text item) |})
      as [H1 H2]; simpl.
    + reflexivity.
    + rewrite total_length_app. simpl. lia.
    + rewrite total_length_app. simpl. lia.
    + split; [exact H1 |]. rewrite H2. cbn [current_chunk]. rewrite <- app_assoc. reflexivity.
Qed.

(** X3.  A non-empty record sequence whose texts together fit the chunk
    size comes back as one batch holding all the records. *)
Theorem chunk_text_single_batch (parsed_data : list srt_item) (chunk_size : Z) :
  parsed_data <> [] ->
  total_length parsed_data <= chunk_size ->
  chunk_text parsed_data chunk_size = [parsed_data].
Proof.
  intros Hne Hfit. unfold chunk_text.
  destruct (fold_single_batch chunk_size parsed_data init eq_refl eq_refl)
    as [Hc Hcur]; [simpl; lia |].
  rewrite Hc, Hcur. simpl.
  destruct parsed_data; [contradiction | reflexivity].
Qed.

Lemma chunk_text_single_batch_witness :
  chunk_text three_lines 1500 = [three_lines].
Proof.
  apply chunk_text_single_batch; [discriminate | vm_compute; discriminate].
Defined.

(** ** Where an empty batch can stand *)

Lemma fold_tail_no_empty (chunk_size : Z) (parsed_data : list srt_item) :
  forall st,
    current_chunk st <> [] ->
    chunks st <> [] ->
    Forall (fun c => c <> []) (tl (chunks st)) ->
    let st' := fold_left (step chunk_size) parsed_data st in
    current_chunk st' <> [] /\ chunks st' <> []
    /\ Forall (fun c => c <> []) (tl (chunks st')).
Proof.
  induction parsed_data as [|item rest IH]; intros st Hcur Hne Hall; simpl.
  - auto.
  - apply IH.
    + apply step_current_nonempty.
    + destruct (step_chunks chunk_size st item) as [-> | ->]; [exact Hne|].
      destruct (chunks st); discriminate.
    + destruct (step_chunks chunk_size st item) as [-> | ->]; [exact Hall|].
      destruct (chunks st) as [|c cs]; [contradiction|]. simpl in *.
      apply Forall_app; split; [exact Hall | constructor; [exact Hcur | constructor]].
Qed.

(** X4.  In the output of [chunk_text] only the first batch can be empty,
    and it is empty exactly when the first record alone exceeds the chunk
    size: every later batch holds a record. *)
Theorem chunk_text_empty_batches (parsed_data : list srt_item) (chunk_size : Z) :
  Forall (fun batch => batch <> []) (tl (chunk_text parsed_data chunk_size))
  /\ (hd_error (chunk_text parsed_data chunk_size) = Some []
      <-> exists item rest,
            parsed_data = item :: rest
            /\ PyStr.len (text item) > chunk_size).
Proof.
  destruct parsed_data as [|item rest].
  - split; [constructor|]. split; [discriminate|].
    intros (item & rest & H & _). discriminate.
  - destruct (Z_gt_le_dec (PyStr.len (text item)) chunk_size) as [Hbig | Hfit].
    + assert (Hstep : step chunk_size init item
                      = {| chunks := [[]]; current_chunk := [item];
                           current_length := PyStr.len (text item) |}).
      { unfold step, init; simpl.
        destruct (Z.gtb_spec (PyStr.len (text item)) chunk_size);
          [reflexivity | lia]. }
      destruct (chunk_text_empty_head_when_first_exceeds item rest chunk_size Hbig)
        as [more Hmore].
      split.
      * unfold chunk_text. simpl fold_left. rewrite Hstep.
        destruct (fold_tail_no_empty chunk_size rest
                    {| chunks := [[]]; current_chunk := [item];
                       current_length := PyStr.len (text item) |})
          as (Hcur & Hne & Hall); simpl; try discriminate; [constructor|].
        destruct (current_chunk _) eqn:E; [exact Hall|].
        destruct (chunks _) as [|c cs]; [contradiction|]. simpl in *.
        apply Forall_app; split; [exact Hall|].
        constructor; [discriminate | constructor].
      * rewrite Hmore. simpl. split; [|reflexivity].
        intros _. exists item, rest. split; [reflexivity | exact Hbig].
    + pose proof (chunk_text_no_empty_when_first_fits item rest chunk_size Hfit)
        as Hall.
      split.
      * destruct (chunk_text (item :: rest) chunk_size); [constructor|].
        simpl. now inversion Hall.
      * split.
        -- intros Hhd.
           destruct (chunk_text (item :: rest) chunk_size) as [|c cs];
             [discriminate|].
           simpl in Hhd. injection Hhd as ->. inversion Hall. contradiction.
        -- intros (item' & rest' & Heq & Hbig). injection Heq as <- <-. lia.
Qed.

End BudgetFacts.

(* ================================================================== *)
(** * The sanitizer: shape of its result *)
(* ================================================================== *)

Module SanitizerShape.
Import PyStr Sanitizer Parts SanitizerFacts RegexFacts.

Lemma part_refl (s : string) : is_part s s.
Proof. exists EmptyString, EmptyString. simpl. now rewrite append_empty_r. Qed.

Lemma part_trans (a b c : string) : is_part a b -> is_part b c -> is_part a c.
Proof.
  intros (p1 & q1 & ->) (p2 & q2 & ->).
  exists (p2 +++ p1), (q1 +++ q2).
  now rewrite !append_assoc.
Qed.

Lemma part_suffix (pre s : string) : is_part s (pre +++ s).
Proof. exists pre, EmptyString. now rewrite append_empty_r. Qed.

Lemma part_prefix (s post : string) : is_part s (s +++ post).
Proof. now exists EmptyString, post. Qed.

Lemma part_cons (c : ascii) (r s : string) : is_part r s -> is_part r (String c s).
Proof. intros (p & q & ->). now exists (String c p), q. Qed.

Lemma substring_zero_prefix (s : string) :
  forall m, exists post, s = substring 0 m s +++ post.
Proof.
  induction s as [|c s IH]; intros [|m]; simpl.
  - now exists EmptyString.
  - now exists EmptyString.
  - now exists (String c s).
  - destruct (IH m) as [post H]. exists post. now rewrite <- H.
Qed.

Lemma substring_part (s : string) :
  forall n m, is_part (substring n m s) s.
Proof.
  induction s as [|c s IH]; intros n m.
  - destruct n, m; apply part_refl.
  - destruct n as [|n].
    + destruct (substring_zero_prefix (String c s) m) as [post H].
      rewrite H at 2. apply part_prefix.
    + simpl. apply part_cons, IH.
Qed.

Lemma lstrip_suffix (s : string) : exists pre, s = pre +++ lstrip s.
Proof.
  induction s as [|c s IH]; simpl.
  - now exists EmptyString.
  - destruct (is_space c).
    + destruct IH as [pre H]. exists (String c pre). simpl. now rewrite <- H.
    + now exists EmptyString.
Qed.

Lemma rstrip_prefix (s : string) : exists post, s = rstrip s +++ post.
Proof.
  induction s as [|c s IH]; cbn [rstrip].
  - now exists EmptyString.
  - destruct IH as [post H]. destruct (rstrip s) as [|d r].
    + simpl in H. subst post. destruct (is_space c).
      * now exists (String c s).
      * now exists s.
    + exists post. simpl. simpl in H. now rewrite <- H.
Qed.

Lemma strip_part (s : string) : is_part (strip s) s.
Proof.
  unfold strip.
  destruct (lstrip_suffix s) as [pre Hl].
  destruct (rstrip_prefix (lstrip s)) as [post Hr].
  exists pre, post. now rewrite <- Hr.
Qed.

(** What [split] and [rsplit] with one cut return. *)
Lemma split1_shape (s : string) (c : ascii) :
  split1 s c = [s]
  \/ exists a b, split1 s c = [a; b] /\ s = a +++ String c b.
Proof.
  induction s as [|d s IH]; simpl.
  - now left.
  - destruct (Ascii.eqb_spec d c) as [-> | Hne].
    + right. now exists EmptyString, s.
    + destruct IH as [-> | (a & b & -> & Hs)].
      * now left.
      * right. exists (String d a), b. split; [reflexivity|]. simpl. now rewrite <- Hs.
Qed.

Lemma rsplit1_shape (s : string) (c : ascii) :
  rsplit1 s c = [s]
  \/ exists a b, rsplit1 s c = [a; b] /\ s = a +++ String c b.
Proof.
  induction s as [|d s IH]; cbn [rsplit1].
  - now left.
  - destruct IH as [-> | (a & b & -> & Hs)].
    + destruct (Ascii.eqb_spec d c) as [-> | Hne].
      * right. now exists EmptyString, s.
      * now left.
    + right. exists (String d a), b. split; [reflexivity|]. simpl. now rewrite <- Hs.
Qed.

Lemma split1_last_part (s : string) (c : ascii) :
  is_part (last (split1 s c) EmptyString) s.
Proof.
  destruct (split1_shape s c) as [-> | (a & b & -> & Hs)]; simpl.
  - apply part_refl.
  - rewrite Hs.
    exists (a +++ String c EmptyString), EmptyString.
    rewrite append_empty_r, append_assoc. reflexivity.
Qed.

Lemma rsplit1_head_part (s : string) (c : ascii) :
  is_part (hd EmptyString (rsplit1 s c)) s.
Proof.
  destruct (rsplit1_shape s c) as [-> | (a & b & -> & Hs)]; simpl.
  - apply part_refl.
  - rewrite Hs. apply part_prefix.
Qed.

Lemma slice_part (s : string) (a b : Z) : is_part (slice s a b) s.
Proof. unfold slice. apply substring_part. Qed.

(** X5.  The sanitizer only cuts: for every text its result is a
    contiguous part of the text, so no character is added, replaced or
    reordered. *)
Theorem clean_json_text_is_part (text : string) :
  is_part (clean_json_text text) text.
Proof.
  unfold clean_json_text.
  destruct (negb (find text "{" =? -1) && negb (rfind text "}" =? -1)).
  - apply slice_part.
  - apply (part_trans _ (strip text)); [|apply strip_part].
    destruct (startswith (strip text) fence).
    + eapply part_trans; [apply strip_part|].
      eapply part_trans; [apply rsplit1_head_part|].
      apply split1_last_part.
    + apply strip_part.
Qed.

(** ** Brace extraction *)

Lemma substring_none (s : string) : forall n, substring n 0 s = EmptyString.
Proof.
  induction s as [|c s IH]; intros [|n]; simpl; try reflexivity. apply IH.
Qed.

Lemma last_pos_substring (s : string) (c : ascii) :
  forall n, last_pos s c = Some n ->
            substring 0 (S n) s = substring 0 n s +++ String c EmptyString.
Proof.
  induction s as [|d s IH]; intros n; simpl; [discriminate|].
  destruct (last_pos s c) as [k|] eqn:E.
  - intros H. injection H as <-. cbn [append]. f_equal. apply (IH k eq_refl).
  - destruct (Ascii.eqb_spec d c) as [-> | Hne]; [|discriminate].
    intros H. injection H as <-. simpl. now destruct s.
Qed.

(** With both braces in the text, what is extracted is empty or runs
    from an opening to a closing brace. *)
Lemma between_shape (text : string) :
  forall i j,
    first_pos text "{" = Some i -> last_pos text "}" = Some j ->
    between text i j = EmptyString
    \/ exists mid, between text i j = String "{" (mid +++ String "}" EmptyString).
Proof.
  induction text as [|c s IH]; intros i j; [discriminate|].
  cbn [first_pos last_pos].
  destruct (Ascii.eqb_spec c "{") as [-> | Hne].
  - intros Hi. injection Hi as <-.
    destruct (last_pos s "}") as [n|] eqn:E; [|discriminate].
    intros Hj. injection Hj as <-. right.
    exists (substring 0 n s). unfold between.
    change (S (S n) - 0)%nat with (S (S n)). cbn [substring].
    now rewrite (last_pos_substring s "}" n E).
  - destruct (first_pos s "{") as [i'|] eqn:Ei; [|discriminate].
    intros Hi. injection Hi as <-.
    destruct (last_pos s "}") as [n|] eqn:E.
    + intros Hj. injection Hj as <-.
      change (between (String c s) (S i') (S n)) with (between s i' n).
      now apply IH.
    + destruct (Ascii.eqb c "}"); [|discriminate].
      intros Hj. injection Hj as <-. left. unfold between.
      change (1 - S i')%nat with 0%nat. apply substring_none.
Qed.

Lemma rstrip_ends (a : string) (c : ascii) :
  is_space c = false ->
  rstrip (a +++ String c EmptyString) = a +++ String c EmptyString.
Proof.
  intros Hc. induction a as [|x a IH]; cbn [append rstrip].
  - now rewrite Hc.
  - rewrite IH. destruct a; reflexivity.
Qed.

Lemma strip_braced (mid : string) :
  strip (String "{" (mid +++ String "}" EmptyString))
  = String "{" (mid +++ String "}" EmptyString).
Proof.
  unfold strip. cbn [lstrip]. change (is_space "{") with false. cbv iota.
  apply (rstrip_ends (String "{" mid) "}"). reflexivity.
Qed.

(** The result of the sanitizer, case by case. *)
Lemma clean_json_text_cases (text : string) :
  clean_json_text text = EmptyString
  \/ (exists mid, clean_json_text text = String "{" (mid +++ String "}" EmptyString))
  \/ ((first_pos text "{" = None \/ last_pos text "}" = None)
      /\ exists t, clean_json_text text = strip t).
Proof.
  rewrite clean_json_text_amended. unfold sanitizer_amended.
  destruct (first_pos text "{") as [i|] eqn:Ei.
  - destruct (last_pos text "}") as [j|] eqn:Ej.
    + destruct (between_shape text i j Ei Ej) as [-> | H]; auto.
    + right. right. split; [now right|].
      destruct (startswith (strip text) fence); eauto.
  - right. right. split; [now left|].
    destruct (last_pos text "}"); destruct (startswith (strip text) fence); eauto.
Qed.

(** X7.  Whatever the text, the result of the sanitizer carries no
    whitespace at either end: trimming it changes nothing. *)
Theorem clean_json_text_trimmed (text : string) :
  strip (clean_json_text text) = clean_json_text text.
Proof.
  destruct (clean_json_text_cases text) as [-> | [(mid & ->) | (_ & t & ->)]].
  - reflexivity.
  - apply strip_braced.
  - apply strip_idempotent.
Qed.

(** ** Sanitizing twice *)

Lemma contains_char_append (a b : string) (c : ascii) :
  contains_char (a +++ b) c = contains_char a c || contains_char b c.
Proof.
  induction a as [|x a IH]; simpl; [reflexivity|].
  now rewrite IH, orb_assoc.
Qed.

Lemma part_contains (r s : string) (c : ascii) :
  is_part r s -> contains_char s c = false -> contains_char r c = false.
Proof.
  intros (p & q & ->). rewrite !contains_char_append.
  intros H. apply orb_false_iff in H as [_ H].
  now apply orb_false_iff in H as [H _].
Qed.

Lemma first_pos_contains (s : string) (c : ascii) :
  first_pos s c = None <-> contains_char s c = false.
Proof.
  induction s as [|d s IH]; simpl; [tauto|].
  destruct (Ascii.eqb d c); simpl.
  - split; discriminate.
  - destruct (first_pos s c); simpl in *; split; intros H;
      try discriminate; try reflexivity; try (now apply IH).
    apply IH in H. discriminate.
Qed.

Lemma last_pos_contains (s : string) (c : ascii) :
  last_pos s c = None <-> contains_char s c = false.
Proof.
  induction s as [|d s IH]; simpl; [tauto|].
  destruct (last_pos s c) eqn:E.
  - split; [discriminate|]. intros H.
    apply orb_false_iff in H as [_ H]. apply IH in H. discriminate.
  - destruct (Ascii.eqb d c); simpl.
    + split; discriminate.
    + split; intros _; [now apply IH | reflexivity].
Qed.

(** A text in which a brace is missing and that is trimmed and not
    fenced is left as it is. *)
Lemma clean_json_text_plain (r : string) :
  first_pos r "{" = None \/ last_pos r "}" = None ->
  strip r = r -> startswith r fence = false ->
  clean_json_text r = r.
Proof.
  intros Hb Hs Hf. rewrite clean_json_text_amended. unfold sanitizer_amended.
  rewrite Hs, Hf.
  destruct Hb as [-> | Hl]; [reflexivity|].
  rewrite Hl. now destruct (first_pos r "{").
Qed.

(** X8.  Sanitizing is idempotent as long as the result does not start
    with a fence: sanitizing the result once more returns it
    unchanged. *)
Theorem clean_json_text_idempotent (text : string) :
  startswith (clean_json_text text) fence = false ->
  clean_json_text (clean_json_text text) = clean_json_text text.
Proof.
  intros Hf.
  destruct (clean_json_text_cases text) as [E | [(mid & E) | (Hb & t & E)]].
  - rewrite E. reflexivity.
  - rewrite E.
    apply (between_braces EmptyString mid EmptyString); reflexivity.
  - apply clean_json_text_plain.
    + pose proof (clean_json_text_is_part text) as Hp.
      destruct Hb as [Hb | Hb]; [left | right].
      * apply first_pos_contains. apply (part_contains _ text); [exact Hp|].
        now apply first_pos_contains.
      * apply last_pos_contains. apply (part_contains _ text); [exact Hp|].
        now apply last_pos_contains.
    + rewrite E. apply strip_idempotent.
    + exact Hf.
Qed.

Lemma clean_json_text_idempotent_witness :
  clean_json_text (clean_json_text example_raw) = clean_json_text example_raw.
Proof.
  apply clean_json_text_idempotent. vm_compute. reflexivity.
Defined.

(** ** A wrapped object *)

(** X6.  An object that the model wraps in prose or fences is recovered
    exactly: when no opening brace comes before the object and no closing
    brace after it, the sanitizer returns the object, and an attempt of
    [translate_chunk] treats the wrapped response like the bare
    object. *)
Theorem clean_json_text_unwraps (json_loads : string -> option PyVal.pyval)
    (text_list : list string) (pre mid post : string) :
  contains_char pre "{" = false ->
  contains_char post "}" = false ->
  let object := String "{" (mid +++ String "}" EmptyString) in
  clean_json_text (pre +++ object +++ post) = object
  /\ clean_json_text object = object
  /\ Protocol.process_response json_loads text_list (pre +++ object +++ post)
     = Protocol.process_response json_loads text_list object.
Proof.
  intros Hpre Hpost object.
  assert (H1 : clean_json_text (pre +++ object +++ post) = object).
  { unfold object. cbn [append]. rewrite append_assoc. cbn [append].
    now apply between_braces. }
  assert (H2 : clean_json_text object = object).
  { apply (between_braces EmptyString mid EmptyString); reflexivity. }
  split; [exact H1 | split; [exact H2 |]].
  unfold Protocol.process_response, Protocol.response_items.
  now rewrite H1, H2.
Qed.

Lemma clean_json_text_unwraps_witness :
  clean_json_text (wrapped_prefix +++ wrapped_object +++ wrapped_suffix)
  = wrapped_object.
Proof.
  apply (clean_json_text_unwraps Json.loads []
           wrapped_prefix
           (lit "\qtranslated_items\q:[{\qid\q:0,\qtext\q:\qhi\q}]")
           wrapped_suffix);
    vm_compute; reflexivity.
Defined.

End SanitizerShape.

(* ================================================================== *)
(** * The protocol: calls, diagnostics and accepted responses *)
(* ================================================================== *)

Module ProtocolTrace.
Import PyStr PyVal Protocol Responses ProtocolFacts.

Section Trace.

Variable World : Type.
Variable generate_content : World -> request -> (exn + string) * World.
Variable time_time : World -> Q * World.
Variable time_sleep : Q -> World -> World.
Variable json_loads : string -> option pyval.
Variable json_dumps : pyval -> string.

Let translate :=
  translate_chunk World generate_content time_time time_sleep json_loads
                  json_dumps.

(** The loop writes the attempt count, the raw response, the status and
    the duration, and leaves the other entries of the diagnostics as they
    were when it was entered. *)
Lemma retry_loop_static (attempts : list Z) :
  forall (text_list : list string) (req : request) (start_time : Q)
         (d : diagnostics) (s s' : World * list event)
         (out : list pyval) (dbg : diagnostics),
    retry_loop World generate_content time_time time_sleep json_loads
               attempts text_list req start_time d s
    = (Some (out, dbg), s') ->
    dbg_input_json dbg = dbg_input_json d
    /\ dbg_context_used dbg = dbg_context_used d
    /\ dbg_reasoning_mode dbg = dbg_reasoning_mode d.
Proof.
  induction attempts as [|attempt more IH];
    intros text_list req start_time d [w log] s' out dbg; cbn [retry_loop].
  - discriminate.
  - unfold bind, generate, now, sleep, ret. cbn [fst snd].
    destruct (generate_content w req) as [r w1].
    destruct r as [e|raw].
    + destruct (attempt <? max_retries).
      * intros H. apply IH in H. exact H.
      * cbn [fst snd]. destruct (time_time w1) as [t w2].
        intros H. injection H as _ <- _. auto.
    + destruct (process_response json_loads text_list raw) as [e|translated].
      * destruct (attempt <? max_retries).
        -- intros H. apply IH in H. exact H.
        -- cbn [fst snd]. destruct (time_time w1) as [t w2].
           intros H. injection H as _ <- _. auto.
      * cbn [fst snd]. destruct (time_time w1) as [t w2].
        intros H. injection H as _ <- _. auto.
Qed.

(** X9.  Whatever the generation call does, [translate_chunk] calls it
    once or twice, always with the same request; it sleeps one second
    exactly between two calls and never after the last one.  The attempt
    count of the diagnostics is the number of calls, a single call means
    success, and the status is never left at its initial value. *)
Theorem translate_chunk_call_budget (text_list : list string)
    (src_lang tgt_lang context_guide : string) (enable_reasoning : bool)
    (w : World) :
  let req := build_request json_dumps text_list src_lang tgt_lang
                           context_guide enable_reasoning in
  exists out dbg w' trace,
    run World (translate text_list src_lang tgt_lang context_guide
                         enable_reasoning) w
    = (Some (out, dbg), (w', trace))
    /\ ((trace = [EvGenerate req]
         /\ dbg_attempts dbg = 1 /\ dbg_status dbg = Success)
        \/ (trace = [EvGenerate req; EvSleep (inject_Z 1); EvGenerate req]
            /\ dbg_attempts dbg = 2))
    /\ dbg_attempts dbg = Z.of_nat (length (filter is_generate trace))
    /\ dbg_status dbg <> Unknown.
Proof.
  intros req.
  destruct (translate_chunk_cases World generate_content time_time time_sleep
              json_loads json_dumps text_list src_lang tgt_lang context_guide
              enable_reasoning w)
    as (out & dbg & w' & [H | [H | H]]); fold req in H.
  - destruct H as (Hrun & _ & _ & Hst & Hn).
    exists out, dbg, w', [EvGenerate req].
    split; [exact Hrun|]. split; [left; auto|].
    split; [rewrite Hn; reflexivity | rewrite Hst; discriminate].
  - destruct H as (Hrun & _ & _ & _ & Hst & Hn).
    exists out, dbg, w', [EvGenerate req; EvSleep (inject_Z 1); EvGenerate req].
    split; [exact Hrun|]. split; [right; auto|].
    split; [rewrite Hn; reflexivity | rewrite Hst; discriminate].
  - destruct H as (Hrun & _ & (e & _ & Hst) & _ & Hn).
    exists out, dbg, w', [EvGenerate req; EvSleep (inject_Z 1); EvGenerate req].
    split; [exact Hrun|]. split; [right; auto|].
    split; [rewrite Hn; reflexivity | rewrite Hst; discriminate].
Qed.

(** X10.  The diagnostics describe the request that was sent: on every
    path the recorded input JSON is the one placed in the prompt, the
    recorded context is the context section of the prompt (the word None
    when the prompt has no such section), and the reasoning mode is ON
    exactly when the prompt carries the reasoning instruction and the
    temperature is 0.2. *)
Theorem translate_chunk_diagnostics_match_request (text_list : list string)
    (src_lang tgt_lang context_guide : string) (enable_reasoning : bool)
    (w : World) :
  let req := build_request json_dumps text_list src_lang tgt_lang
                           context_guide enable_reasoning in
  exists out dbg st,
    run World (translate text_list src_lang tgt_lang context_guide
                         enable_reasoning) w
    = (Some (out, dbg), st)
    /\ dbg_input_json dbg = prompt_input_json (req_prompt req)
    /\ dbg_input_json dbg
       = json_dumps (PDict [("items", PList (indexed_input text_list 0))])
    /\ dbg_context_used dbg
       = match prompt_context_section (req_prompt req) with
         | Some guide => guide
         | None => "None"
         end
    /\ dbg_reasoning_mode dbg
       = (if prompt_reasoning_instruction (req_prompt req) then ON else OFF)
    /\ temperature (req_generation_config req)
       = match dbg_reasoning_mode dbg with ON => (2 # 10)%Q | OFF => (1 # 10)%Q end.
Proof.
  intros req.
  destruct (translate_chunk_cases World generate_content time_time time_sleep
              json_loads json_dumps text_list src_lang tgt_lang context_guide
              enable_reasoning w)
    as (out & dbg & w' & H).
  assert (Hrun : exists st,
             run World (translate text_list src_lang tgt_lang context_guide
                                  enable_reasoning) w
             = (Some (out, dbg), st)).
  { destruct H as [H | [H | H]]; destruct H as (Hrun & _); eauto. }
  clear H. destruct Hrun as [st Hrun].
  exists out, dbg, st. split; [exact Hrun|].
  unfold translate, run, translate_chunk, bind, now in Hrun.
  cbn [fst snd] in Hrun. destruct (time_time w) as [t0 w0].
  apply retry_loop_static in Hrun as (Hj & Hc & Hr).
  rewrite Hj, Hc, Hr. unfold req, build_request, initial_debug_info.
  destruct context_guide, enable_reasoning; repeat split; reflexivity.
Qed.

(** X11.  When both attempts fail, the returned texts are the input
    texts, the status is the error of the second attempt, and the raw
    response kept in the diagnostics is that of the last call that
    answered: after a first call that answered with a text that could not
    be used and a second call that raised, the diagnostics pair the first
    response with the second error. *)
Theorem translate_chunk_failure_diagnostics (text_list : list string)
    (src_lang tgt_lang context_guide : string) (enable_reasoning : bool)
    (w : World) (e1 e2 : exn) :
  let req := build_request json_dumps text_list src_lang tgt_lang
                           context_guide enable_reasoning in
  let first := generate_content (snd (time_time w)) req in
  let second := generate_content (time_sleep (inject_Z 1) (snd first)) req in
  attempt_outcome json_loads text_list (fst first) = inl e1 ->
  attempt_outcome json_loads text_list (fst second) = inl e2 ->
  exists dbg st,
    run World (translate text_list src_lang tgt_lang context_guide
                         enable_reasoning) w
    = (Some (map PStr text_list, dbg), st)
    /\ dbg_status dbg = Error e2
    /\ dbg_raw_response dbg = last_answer (fst first) (fst second).
Proof.
  intros req first second. subst first second.
  unfold translate, run, translate_chunk, bind, now.
  fold req.
  change (range (max_retries + 1)) with [0; 1].
  cbn [fst snd].
  destruct (time_time w) as [t0 w0]. cbn [fst snd retry_loop].
  unfold bind, generate, sleep, now, ret. cbn [fst snd app].
  destruct (generate_content w0 req) as [r1 w1]. cbn [fst snd].
  change (0 <? max_retries) with true.
  change (1 <? max_retries) with false.
  destruct r1 as [x1|raw1]; cbn [attempt_outcome].
  - intros _. cbn [fst snd app].
    destruct (generate_content (time_sleep (inject_Z 1) w1) req) as [r2 w2].
    cbn [fst snd app].
    destruct r2 as [x2|raw2]; cbn [attempt_outcome].
    + intros H2. injection H2 as <-. cbn [fst snd].
      destruct (time_time w2) as [t2 w3]. eexists _, _.
      split; [reflexivity | split; [reflexivity|]].
      try reflexivity; destruct context_guide; reflexivity.
    + intros H2. rewrite H2. cbn [fst snd].
      destruct (time_time w2) as [t2 w3]. eexists _, _.
      split; [reflexivity | split; [reflexivity|]].
      try reflexivity; destruct context_guide; reflexivity.
  - intros H1. rewrite H1. cbn [fst snd app].
    destruct (generate_content (time_sleep (inject_Z 1) w1) req) as [r2 w2].
    cbn [fst snd app].
    destruct r2 as [x2|raw2]; cbn [attempt_outcome].
    + intros H2. injection H2 as <-. cbn [fst snd].
      destruct (time_time w2) as [t2 w3]. eexists _, _.
      split; [reflexivity | split; [reflexivity|]].
      try reflexivity; destruct context_guide; reflexivity.
    + intros H2. rewrite H2. cbn [fst snd].
      destruct (time_time w2) as [t2 w3]. eexists _, _.
      split; [reflexivity | split; [reflexivity|]].
      try reflexivity; destruct context_guide; reflexivity.
Qed.

(** X12.  A failed first attempt does not taint the second: when the
    first attempt fails and the second call answers with a response that
    can be used, the result is the reconciliation of the second response,
    the status is [Success], the attempt count is 2 and the recorded raw
    response is the second one. *)
Theorem translate_chunk_second_attempt (text_list : list string)
    (src_lang tgt_lang context_guide : string) (enable_reasoning : bool)
    (w : World) (e1 : exn) (raw2 : string) (items : list pyval) :
  let req := build_request json_dumps text_list src_lang tgt_lang
                           context_guide enable_reasoning in
  let first := generate_content (snd (time_time w)) req in
  let second := generate_content (time_sleep (inject_Z 1) (snd first)) req in
  attempt_outcome json_loads text_list (fst first) = inl e1 ->
  fst second = inr raw2 ->
  response_items json_loads raw2 = inr items ->
  exists dbg w',
    run World (translate text_list src_lang tgt_lang context_guide
                         enable_reasoning) w
    = (Some (reconciled items text_list 0, dbg),
       (w', [EvGenerate req; EvSleep (inject_Z 1); EvGenerate req]))
    /\ dbg_status dbg = Success
    /\ dbg_attempts dbg = 2
    /\ dbg_raw_response dbg = raw2.
Proof.
  intros req first second H1 H2 Hitems.
  destruct (process_response_sorted json_loads text_list raw2 items Hitems)
    as [Hp _].
  destruct (translate_chunk_cases World generate_content time_time time_sleep
              json_loads json_dumps text_list src_lang tgt_lang context_guide
              enable_reasoning w)
    as (out & dbg & w' & [H | [H | H]]);
    fold req in H; fold first in H; fold second in H.
  - destruct H as (_ & Hout & _). rewrite H1 in Hout. discriminate.
  - destruct H as (Hrun & _ & Hout & (raw & Hraw & Hdbg) & Hst & Hn).
    rewrite H2 in Hout, Hraw. injection Hraw as <-.
    cbn [attempt_outcome] in Hout. rewrite Hp in Hout. injection Hout as <-.
    exists dbg, w'. repeat split; assumption.
  - destruct H as (_ & _ & (e & Hout & _) & _).
    rewrite H2 in Hout. cbn [attempt_outcome] in Hout.
    rewrite Hp in Hout. discriminate.
Qed.


(** ** Responses that the sort accepts *)

Lemma py_eq_int (a b : Z) : py_eq (PInt a) (PInt b) = (a =? b).
Proof.
  cbn [py_eq num_val]. destruct (Z.eqb_spec a b) as [-> | Hne].
  - apply Qeq_bool_refl.
  - destruct (Qeq_bool (inject_Z a) (inject_Z b)) eqn:E; [|reflexivity].
    apply Qeq_bool_iff in E. unfold Qeq in E. simpl in E. lia.
Qed.

Lemma find_unique {A : Type} (f : A -> bool) (l : list A) (x : A) :
  In x l -> f x = true ->
  (forall y, In y l -> f y = true -> y = x) ->
  List.find f l = Some x.
Proof.
  induction l as [|y l IH]; intros Hin Hx Huniq; [contradiction|].
  simpl. destruct (f y) eqn:Ey.
  - f_equal. apply Huniq; [now left | exact Ey].
  - destruct Hin as [-> | Hin]; [congruence|].
    apply IH; [exact Hin | exact Hx |].
    intros z Hz. apply Huniq. now right.
Qed.




Lemma In_indexed_input (translated : list string) :
  forall i item,
    In item (indexed_input translated i) <->
    exists n t,
      nth_error translated n = Some t
      /\ item = PDict [("id", PInt (i + Z.of_nat n)); ("text", PStr t)].
Proof.
  induction translated as [|t0 rest IH]; intros i item; simpl.
  - split; [contradiction|]. intros (n & t & Hn & _). destruct n; discriminate.
  - split.
    + intros [<- | Hin].
      * exists 0%nat, t0. split; [reflexivity|]. now rewrite Z.add_0_r.
      * apply IH in Hin as (n & t & Hn & ->). exists (S n), t.
        split; [exact Hn|].
        replace (i + Z.of_nat (S n)) with (i + 1 + Z.of_nat n) by lia.
        reflexivity.
    + intros (n & t & Hn & ->). destruct n as [|n]; simpl in Hn.
      * left. injection Hn as ->. now rewrite Z.add_0_r.
      * right. apply IH. exists n, t. split; [exact Hn|].
        replace (i + Z.of_nat (S n)) with (i + 1 + Z.of_nat n) by lia.
        reflexivity.
Qed.

(** Keys that are integers can always be sorted. *)
Lemma insert_sorted_int (k x : pyval) (acc : list (pyval * pyval)) :
  (exists z, k = PInt z) ->
  Forall (fun p => exists z, fst p = PInt z) acc ->
  exists r, insert_sorted k x acc = inr r
            /\ Forall (fun p => exists z, fst p = PInt z) r.
Proof.
  intros [z ->]. induction acc as [|[k' y] acc IH]; intros Hall; simpl.
  - eexists. split; [reflexivity|]. constructor; [now exists z | constructor].
  - inversion Hall as [|? ? [z' Hk'] Hrest]; subst. simpl in Hk'. subst k'.
    cbn [py_lt num_val].
    destruct (Qltb (inject_Z z) (inject_Z z')).
    + eexists. split; [reflexivity|].
      constructor; [now exists z | exact Hall].
    + destruct (IH Hrest) as (r & -> & Hr).
      eexists. split; [reflexivity|].
      constructor; [now exists z' | exact Hr].
Qed.

Lemma sort_decorated_int (todo : list (pyval * pyval)) :
  forall acc,
    Forall (fun p => exists z, fst p = PInt z) todo ->
    Forall (fun p => exists z, fst p = PInt z) acc ->
    exists r, sort_decorated todo acc = inr r.
Proof.
  induction todo as [|[k x] todo IH]; intros acc Htodo Hacc; simpl.
  - now exists acc.
  - inversion Htodo as [|? ? Hk Hrest]; subst.
    destruct (insert_sorted_int k x acc Hk Hacc) as (r & -> & Hr).
    now apply IH.
Qed.

Lemma decorate_int (l : list pyval) :
  (forall item, In item l -> exists z, sort_key item = inr (PInt z)) ->
  exists dl, decorate l = inr dl
             /\ Forall (fun p => exists z, fst p = PInt z) dl.
Proof.
  induction l as [|x l IH]; intros H; simpl.
  - exists []. split; [reflexivity | constructor].
  - destruct (H x (or_introl eq_refl)) as [z ->].
    destruct IH as (dl & -> & Hdl); [intros y Hy; apply H; now right|].
    eexists. split; [reflexivity|].
    constructor; [now exists z | exact Hdl].
Qed.

(** An array whose items are objects with integer ids (or without id)
    is sorted without error. *)
Lemma sort_items_int_ids (l : list pyval) :
  (forall item, In item l -> exists z, sort_key item = inr (PInt z)) ->
  exists items, sort_items (PList l) = inr items.
Proof.
  intros H. unfold sort_items.
  destruct (decorate_int l H) as (dl & -> & Hdl).
  destruct (sort_decorated_int dl [] Hdl (Forall_nil _)) as (r & ->).
  eauto.
Qed.

(** The reconciliation of an array that holds, in any order, exactly the
    items numbered from 0 with the texts [translated]. *)
Lemma reconciled_complete (l : list pyval) (texts translated : list string) :
  length translated = length texts ->
  (forall item, In item l <-> In item (indexed_input translated 0)) ->
  reconciled l texts 0 = map PStr translated.
Proof.
  intros Hlen Hmem. apply nth_error_ext. intros n.
  destruct (nth_error texts n) as [t|] eqn:Et.
  - assert (Hn : (n < length translated)%nat).
    { rewrite Hlen. apply nth_error_Some. congruence. }
    destruct (nth_error translated n) as [t'|] eqn:Et';
      [|apply nth_error_None in Et'; lia].
    rewrite (reconciled_nth l texts 0 n t Et), Z.add_0_l.
    rewrite (map_nth_error PStr n translated Et').
    rewrite (find_unique (has_id (Z.of_nat n)) l
               (PDict [("id", PInt (Z.of_nat n)); ("text", PStr t')])).
    + reflexivity.
    + apply Hmem, In_indexed_input. exists n, t'. now rewrite Z.add_0_l.
    + cbn [has_id lookup]. change (String.eqb "id" "id") with true. cbv iota.
      rewrite py_eq_int. apply Z.eqb_refl.
    + intros y Hy Hid. apply Hmem, In_indexed_input in Hy as (m & tm & Hm & ->).
      rewrite Z.add_0_l in Hid |- *.
      cbn [has_id lookup] in Hid. change (String.eqb "id" "id") with true in Hid.
      cbv iota in Hid. rewrite py_eq_int in Hid.
      apply Z.eqb_eq, Nat2Z.inj in Hid. subst m.
      rewrite Et' in Hm. injection Hm as <-. reflexivity.
  - apply nth_error_None in Et.
    assert (H1 : nth_error (reconciled l texts 0) n = None).
    { apply nth_error_None. rewrite reconciled_length. exact Et. }
    assert (H2 : nth_error (map PStr translated) n = None).
    { apply nth_error_None. rewrite length_map, Hlen. exact Et. }
    now rewrite H1, H2.
Qed.

(** X14.  A complete response is used in full, whatever its order: when
    the array of the first response holds exactly the items with the ids
    0, ..., K-1 and the texts [translated], in any order, the result is
    the list [translated] in the order of the ids, with status
    [Success]. *)
Theorem translate_chunk_complete_response (text_list : list string)
    (src_lang tgt_lang context_guide : string) (enable_reasoning : bool)
    (w : World) (raw : string) (result_json : pyval) (l : list pyval)
    (translated : list string) :
  fst (generate_content (snd (time_time w))
         (build_request json_dumps text_list src_lang tgt_lang context_guide
                        enable_reasoning)) = inr raw ->
  json_loads (Sanitizer.clean_json_text raw) = Some result_json ->
  locate_items result_json = inr (PList l) ->
  length translated = length text_list ->
  (forall item, In item l <-> In item (indexed_input translated 0)) ->
  exists dbg st,
    run World (translate text_list src_lang tgt_lang context_guide
                         enable_reasoning) w
    = (Some (map PStr translated, dbg), st)
    /\ dbg_status dbg = Success.
Proof.
  intros Hfirst Hj Hloc Hlen Hmem.
  destruct (sort_items_int_ids l) as [items Hsort].
  { intros item Hin. apply Hmem, In_indexed_input in Hin as (n & t & _ & ->).
    eexists. reflexivity. }
  destruct (translate_chunk_reconciles World generate_content time_time
              time_sleep json_loads json_dumps text_list src_lang tgt_lang
              context_guide enable_reasoning w raw result_json l items
              Hfirst Hj Hloc Hsort)
    as (dbg & st & Hrun & Hst & _).
  exists dbg, st. rewrite <- (reconciled_complete l text_list translated Hlen Hmem).
  split; assumption.
Qed.


End Trace.

Lemma translate_chunk_failure_diagnostics_witness :
  exists dbg st,
    Scripted.translate_chunk
      [inr refusal_response; inl (GenerationError "boom")] ["a"; "b"] "" false
    = (Some ([PStr "a"; PStr "b"], dbg), st)
    /\ dbg_status dbg = Error (GenerationError "boom")
    /\ dbg_raw_response dbg = refusal_response.
Proof.
  apply (translate_chunk_failure_diagnostics Scripted.World
           Scripted.generate_content Scripted.time_time Scripted.time_sleep
           Json.loads Scripted.json_dumps ["a"; "b"] "English" "Korean" ""
           false [inr refusal_response; inl (GenerationError "boom")]
           JSONDecodeError (GenerationError "boom"));
    vm_compute; reflexivity.
Defined.

Lemma translate_chunk_second_attempt_witness :
  exists dbg w',
    Scripted.translate_chunk
      [inr refusal_response; inr Scripted.example_response]
      ["a"; "b"; "c"] "" false
    = (Some ([PStr "A"; PStr "b"; PStr "C"], dbg),
       (w', [EvGenerate (build_request Scripted.json_dumps ["a"; "b"; "c"]
                           "English" "Korean" "" false);
             EvSleep (inject_Z 1);
             EvGenerate (build_request Scripted.json_dumps ["a"; "b"; "c"]
                           "English" "Korean" "" false)]))
    /\ dbg_status dbg = Success
    /\ dbg_attempts dbg = 2
    /\ dbg_raw_response dbg = Scripted.example_response.
Proof.
  apply (translate_chunk_second_attempt Scripted.World
           Scripted.generate_content Scripted.time_time Scripted.time_sleep
           Json.loads Scripted.json_dumps ["a"; "b"; "c"] "English" "Korean" ""
           false [inr refusal_response; inr Scripted.example_response]
           JSONDecodeError Scripted.example_response
           [PDict [("id", PInt 0); ("text", PStr "A")];
            PDict [("id", PInt 2); ("text", PStr "C")]]);
    vm_compute; reflexivity.
Defined.


Lemma translate_chunk_complete_response_witness :
  exists dbg st,
    Scripted.translate_chunk [inr shuffled_response] ["a"; "b"] "" false
    = (Some ([PStr "A"; PStr "B"], dbg), st)
    /\ dbg_status dbg = Success.
Proof.
  apply (translate_chunk_complete_response Scripted.World
           Scripted.generate_content Scripted.time_time Scripted.time_sleep
           Json.loads Scripted.json_dumps ["a"; "b"] "English" "Korean" ""
           false [inr shuffled_response] shuffled_response
           (PDict [("translated_items",
                    PList [PDict [("id", PInt 1); ("text", PStr "B")];
                           PDict [("id", PInt 0); ("text", PStr "A")]])])
           [PDict [("id", PInt 1); ("text", PStr "B")];
            PDict [("id", PInt 0); ("text", PStr "A")]]
           ["A"; "B"]);
    try (vm_compute; reflexivity).
  intros item. simpl. tauto.
Defined.


End ProtocolTrace.

(* ================================================================== *)
(** * The codec: what is parsed, what is written *)
(* ================================================================== *)

Module CodecShape.
Import PyStr Regex Codec Records RegexFacts CodecFacts.

(** ** [rebuild_srt] pairs records and translations *)

Lemma combine_seq_nth {A B C : Type} (f : A -> B -> C) (d : A) (d' : B)
    (l : list A) :
  forall l',
    map (fun i => f (nth i l d) (nth i l' d'))
        (seq 0 (Nat.min (length l) (length l')))
    = map (fun p => f (fst p) (snd p)) (combine l l').
Proof.
  induction l as [|x l IH]; intros [|y l']; try reflexivity.
  cbn [length Nat.min seq map combine nth fst snd]. f_equal.
  rewrite <- seq_shift, map_map. cbn [nth]. apply IH.
Qed.

Lemma rebuild_srt_zip (data : list srt_item) (chunks : list (list string)) :
  rebuild_srt data chunks
  = srt_text (translated_records data (concat chunks)).
Proof.
  unfold rebuild_srt, srt_text, translated_records. f_equal.
  rewrite map_map.
  rewrite (combine_seq_nth block (mk_item "" "" "") EmptyString).
  apply map_ext. intros [r t]. reflexivity.
Qed.

(** X16.  [rebuild_srt] pairs the i-th record with the i-th translation
    of the flattened chunks: the boundaries between chunks play no role,
    and whatever has no partner (records beyond the translations,
    translations beyond the records) is left out without error.  The
    output holds as many blocks as the shorter of the two lists. *)
Theorem rebuild_srt_pairs (data : list srt_item) (chunks : list (list string)) :
  rebuild_srt data chunks
  = srt_text (translated_records data (concat chunks))
  /\ length (translated_records data (concat chunks))
     = Nat.min (length data) (length (concat chunks))
  /\ rebuild_srt data chunks
     = rebuild_srt (firstn (length (concat chunks)) data) [concat chunks].
Proof.
  split; [apply rebuild_srt_zip|]. split.
  - unfold translated_records. now rewrite length_map, length_combine.
  - rewrite !rebuild_srt_zip. cbn [concat]. rewrite app_nil_r.
    unfold translated_records. f_equal. f_equal.
    generalize (concat chunks) as ts. clear chunks.
    induction data as [|r data IH]; intros [|t ts]; try reflexivity.
    cbn [length firstn combine]. now rewrite <- IH.
Qed.

(** ** The time range of a record *)

Lemma take_classes_exact (classes : list (ascii -> bool)) :
  forall s a r X,
    take_classes classes s = Some (a, r) ->
    take_classes classes (a +++ X) = Some (a, X).
Proof.
  induction classes as [|p more IH]; intros s a r X H; simpl in H.
  - injection H as <- <-. reflexivity.
  - destruct s as [|c s]; [discriminate|].
    destruct (p c) eqn:Ec; [|discriminate].
    destruct (take_classes more s) as [[a' r']|] eqn:E; [|discriminate].
    injection H as <- <-. cbn [append take_classes]. rewrite Ec.
    now rewrite (IH s a' r' X E).
Qed.

Lemma take_classes_head (p : ascii -> bool) (more : list (ascii -> bool))
    (s a r : string) :
  take_classes (p :: more) s = Some (a, r) ->
  exists c a', a = String c a' /\ p c = true.
Proof.
  simpl. destruct s as [|c s]; [discriminate|].
  destruct (p c) eqn:Ec; [|discriminate].
  destruct (take_classes more s) as [[a' r']|]; [|discriminate].
  intros H. injection H as <- <-. now exists c, a'.
Qed.

Lemma scan_time_range_span (s tr r : string) :
  scan_time_range s = Some (tr, r) ->
  forall X, scan_time_range (tr +++ X) = Some (tr, X).
Proof.
  unfold scan_time_range at 1.
  destruct (take_classes timestamp_classes s) as [[t1 s1]|] eqn:E1; [|discriminate].
  pose proof (span_all is_space s1) as Hw1.
  destruct (span is_space s1) as [w1 s2]. cbn [fst] in Hw1.
  destruct (take_classes arrow_classes s2) as [[ar s3]|] eqn:E2; [|discriminate].
  pose proof (span_all is_space s3) as Hw2.
  destruct (span is_space s3) as [w2 s4]. cbn [fst] in Hw2.
  destruct (take_classes timestamp_classes s4) as [[t2 s5]|] eqn:E3; [|discriminate].
  intros H. injection H as <- <-. intros X.
  destruct (take_classes_head _ _ _ _ _ E2) as (c2 & ar' & Har & Hc2).
  destruct (take_classes_head _ _ _ _ _ E3) as (c3 & t2' & Ht2 & Hc3).
  rewrite !append_assoc. unfold scan_time_range.
  rewrite (take_classes_exact _ _ _ _ (w1 +++ ar +++ w2 +++ t2 +++ X) E1).
  rewrite (span_run is_space w1 (ar +++ w2 +++ t2 +++ X) Hw1).
  - rewrite (take_classes_exact _ _ _ _ (w2 +++ t2 +++ X) E2).
    rewrite (span_run is_space w2 (t2 +++ X) Hw2).
    + now rewrite (take_classes_exact _ _ _ _ X E3).
    + rewrite Ht2. cbn. now apply digit_not_space.
  - rewrite Har. cbn. destruct (is_space c2) eqn:Es; [|reflexivity].
    apply space_not_dash in Es. congruence.
Qed.

Lemma is_time_span_scan (t rest : string) :
  is_time_span t = true -> scan_time_range (t +++ rest) = Some (t, rest).
Proof.
  unfold is_time_span.
  destruct (scan_time_range t) as [[tr r]|] eqn:E; [|discriminate].
  destruct r; [|discriminate]. intros _.
  pose proof (scan_time_range_app t tr EmptyString E) as Ht.
  rewrite append_empty_r in Ht. subst tr.
  apply (scan_time_range_span t t EmptyString E).
Qed.

Lemma time_span_starts_with_digit (t rest : string) :
  is_time_span t = true -> starts_with_class is_space (t +++ rest) = false.
Proof.
  unfold is_time_span, scan_time_range.
  destruct (take_classes timestamp_classes t) as [[t1 s1]|] eqn:E1; [|discriminate].
  intros _.
  destruct (take_classes_head _ _ _ _ _ E1) as (c & t1' & Ht1 & Hc).
  apply take_classes_app in E1. rewrite E1, Ht1. cbn.
  now apply digit_not_space.
Qed.

Lemma time_range_is_span (t : string) :
  is_time_range t = true -> is_time_span t = true.
Proof.
  intros H. unfold is_time_span.
  pose proof (scan_time_range_exact t EmptyString H) as Hs.
  rewrite append_empty_r in Hs. now rewrite Hs.
Qed.

(** ** What every record looks like *)

Lemma match_block_timing (s : string) (b : srt_item) (rest : string) :
  match_block s = Some (b, rest) -> wf_timing b = true.
Proof.
  unfold match_block.
  pose proof (span_all is_digit s) as Hd.
  destruct (span is_digit s) as [idx s1]. cbn [fst] in Hd.
  destruct (String.eqb idx EmptyString) eqn:Ei; [discriminate|].
  destruct (span is_space s1) as [w1 s2].
  destruct (after_last_nl w1) as [[|? ?]|]; try discriminate.
  destruct (scan_time_range s2) as [[tr s3]|] eqn:Et; [|discriminate].
  destruct (span is_space s3) as [w2 s4].
  destruct (after_last_nl w2) as [a|]; [|discriminate].
  destruct (until_block_end (a +++ s4)) as [txt r].
  intros H. injection H as <- <-.
  unfold wf_timing, is_index_line, is_time_span. cbn [index time].
  rewrite Ei, Hd. cbn [negb andb].
  pose proof (scan_time_range_span s2 tr s3 Et EmptyString) as Hs.
  rewrite append_empty_r in Hs. now rewrite Hs.
Qed.

Lemma scan_from_timing (s : string) :
  forall skip, Forall (fun b => wf_timing b = true) (scan_from skip s).
Proof.
  induction s as [|c s IH]; intros [|skip]; cbn [scan_from];
    try constructor; try apply IH.
  destruct (match_block (String c s)) as [[b after]|] eqn:E; [|apply IH].
  constructor; [now apply (match_block_timing _ _ _ E) | apply IH].
Qed.

(** X18.  Whatever the input, every record that [parse_srt] returns has
    an index made of one or more digits, a time range that the pattern
    accepts (two timestamps [HH:MM:SS,mmm] around an arrow, any
    whitespace on the sides of the arrow), and a text with no whitespace
    at either end. *)
Theorem parse_srt_records (content : string) :
  Forall (fun r => is_index_line (index r) = true
                   /\ is_time_span (time r) = true
                   /\ strip (text r) = text r)
         (parse_srt content).
Proof.
  rewrite parse_srt_scan. unfold scan_blocks.
  apply Forall_forall. intros r Hr.
  apply in_map_iff in Hr as (b & <- & Hb). cbn [index time text].
  pose proof (scan_from_timing content 0) as Hall.
  rewrite Forall_forall in Hall. specialize (Hall b Hb).
  unfold wf_timing in Hall. apply andb_true_iff in Hall as [Hi Ht].
  split; [exact Hi | split; [exact Ht | apply SanitizerFacts.strip_idempotent]].
Qed.

(** ** Input without a block *)

Lemma take_classes_contains (classes : list (ascii -> bool)) :
  forall s a r p c,
    take_classes classes s = Some (a, r) ->
    In p classes -> (forall x, p x = true -> x = c) ->
    Sanitizer.contains_char a c = true.
Proof.
  induction classes as [|p0 more IH]; intros s a r p c H Hin Hp; [contradiction|].
  simpl in H. destruct s as [|x s]; [discriminate|].
  destruct (p0 x) eqn:Ex; [|discriminate].
  destruct (take_classes more s) as [[a' r']|] eqn:E; [|discriminate].
  injection H as <- <-. cbn [Sanitizer.contains_char].
  destruct Hin as [<- | Hin].
  - rewrite (Hp x Ex), Ascii.eqb_refl. reflexivity.
  - rewrite (IH s a' r' p c E Hin Hp). apply orb_true_r.
Qed.

Lemma after_last_nl_contains (w x : string) :
  after_last_nl w = Some x -> Sanitizer.contains_char w nl = true.
Proof.
  revert x. induction w as [|c w IH]; intros x; cbn [after_last_nl]; [discriminate|].
  cbn [Sanitizer.contains_char].
  destruct (after_last_nl w) as [a|].
  - intros _. rewrite (IH a eq_refl). apply orb_true_r.
  - unfold is_nl. destruct (Ascii.eqb c nl); [reflexivity | discriminate].
Qed.

Lemma scan_time_range_contains (s tr r : string) (c : ascii) :
  scan_time_range s = Some (tr, r) ->
  In c [","%char; ":"%char; "-"%char; ">"%char] ->
  Sanitizer.contains_char tr c = true.
Proof.
  unfold scan_time_range.
  destruct (take_classes timestamp_classes s) as [[t1 s1]|] eqn:E1; [|discriminate].
  destruct (span is_space s1) as [w1 s2].
  destruct (take_classes arrow_classes s2) as [[ar s3]|] eqn:E2; [|discriminate].
  destruct (span is_space s3) as [w2 s4].
  destruct (take_classes timestamp_classes s4) as [[t2 s5]|] eqn:E3; [|discriminate].
  intros H. injection H as <- <-. intros Hc.
  rewrite !SanitizerShape.contains_char_append.
  destruct Hc as [<- | [<- | [<- | [<- | []]]]].
  - rewrite (take_classes_contains _ _ _ _ (Ascii.eqb ",") "," E1);
      [reflexivity | simpl; tauto | intros x Hx; now apply Ascii.eqb_eq in Hx].
  - rewrite (take_classes_contains _ _ _ _ (Ascii.eqb ":") ":" E1);
      [reflexivity | simpl; tauto | intros x Hx; now apply Ascii.eqb_eq in Hx].
  - rewrite (take_classes_contains _ _ _ _ (Ascii.eqb "-") "-" E2);
      [now rewrite !orb_true_r | simpl; tauto
       | intros x Hx; now apply Ascii.eqb_eq in Hx].
  - rewrite (take_classes_contains _ _ _ _ (Ascii.eqb ">") ">" E2);
      [now rewrite !orb_true_r | simpl; tauto
       | intros x Hx; now apply Ascii.eqb_eq in Hx].
Qed.

Lemma match_block_required (s : string) (b : srt_item) (rest : string)
    (c : ascii) :
  match_block s = Some (b, rest) -> In c required_chars ->
  Sanitizer.contains_char s c = true.
Proof.
  unfold match_block.
  pose proof (span_app is_digit s) as H1.
  destruct (span is_digit s) as [idx s1]. cbn [fst snd] in H1.
  destruct (String.eqb idx EmptyString); [discriminate|].
  pose proof (span_app is_space s1) as H2.
  destruct (span is_space s1) as [w1 s2]. cbn [fst snd] in H2.
  destruct (after_last_nl w1) as [[|? ?]|] eqn:Ea; try discriminate.
  destruct (scan_time_range s2) as [[tr s3]|] eqn:Et; [|discriminate].
  intros _ Hc.
  pose proof (scan_time_range_app s2 tr s3 Et) as H3.
  rewrite <- H1, <- H2, H3, !SanitizerShape.contains_char_append.
  destruct Hc as [<- | Hc].
  - rewrite (after_last_nl_contains w1 _ Ea). now rewrite orb_true_r.
  - rewrite (scan_time_range_contains s2 tr s3 c Et Hc).
    now rewrite !orb_true_r.
Qed.

Lemma scan_from_nothing (s : string) (c : ascii) :
  In c required_chars -> Sanitizer.contains_char s c = false ->
  forall skip, scan_from skip s = [].
Proof.
  intros Hc. induction s as [|x s IH]; intros Hs [|skip]; try reflexivity.
  - cbn [scan_from].
    destruct (match_block (String x s)) as [[b after]|] eqn:E.
    + rewrite (match_block_required _ _ _ c E Hc) in Hs. discriminate.
    + apply IH. cbn [Sanitizer.contains_char] in Hs.
      now apply orb_false_iff in Hs as [_ ?].
  - cbn [scan_from]. apply IH. cbn [Sanitizer.contains_char] in Hs.
    now apply orb_false_iff in Hs as [_ ?].
Qed.

(** X19.  Input in which a newline, a comma, a colon, a hyphen or a
    closing angle bracket does not occur at all gives no record: every
    block needs the newline after its index and the punctuation of the
    time range.  So a file whose timestamps are written with a period
    instead of the comma parses to nothing. *)
Theorem parse_srt_needs_punctuation (content : string) (c : ascii) :
  In c required_chars ->
  Sanitizer.contains_char content c = false ->
  parse_srt content = [].
Proof.
  intros Hc Hs. rewrite parse_srt_scan. unfold scan_blocks.
  now rewrite (scan_from_nothing content c Hc Hs 0).
Qed.

Lemma parse_srt_needs_punctuation_witness :
  parse_srt period_timestamps = [].
Proof.
  apply (parse_srt_needs_punctuation period_timestamps ","%char).
  - simpl. tauto.
  - reflexivity.
Defined.

(** ** Text before the first digit *)

Lemma match_block_non_digit (c : ascii) (s : string) :
  is_digit c = false -> match_block (String c s) = None.
Proof. intros H. unfold match_block. cbn [span]. now rewrite H. Qed.

Lemma scan_from_prefix (junk content : string) :
  no_digit junk = true ->
  scan_from 0 (junk +++ content) = scan_from 0 content.
Proof.
  unfold no_digit. induction junk as [|c junk IH]; intros H; [reflexivity|].
  cbn [all_chars] in H. apply andb_true_iff in H as [Hc Hj].
  apply negb_true_iff in Hc.
  cbn [append scan_from]. rewrite (match_block_non_digit c _ Hc).
  now apply IH.
Qed.

(** X20.  Text without a digit in front of the subtitles is ignored:
    for any content, [parse_srt] returns the same records with and
    without such a prefix (a title line, blank lines). *)
Theorem parse_srt_skips_prefix (junk content : string) :
  no_digit junk = true ->
  parse_srt (junk +++ content) = parse_srt content.
Proof.
  intros H. rewrite !parse_srt_scan. unfold scan_blocks.
  now rewrite (scan_from_prefix junk content H).
Qed.

Lemma parse_srt_skips_prefix_witness :
  parse_srt (header +++ srt_text two_blocks) = parse_srt (srt_text two_blocks).
Proof.
  apply parse_srt_skips_prefix. reflexivity.
Defined.

(** ** Blocks in the shape that [rebuild_srt] writes *)

Lemma match_block_general (idx tm Y : string) :
  is_index_line idx = true -> is_time_span tm = true ->
  starts_with_class is_space Y = false ->
  match_block (idx +++ String nl (tm +++ String nl Y))
  = Some (mk_item idx tm (fst (until_block_end Y)), snd (until_block_end Y)).
Proof.
  intros Hidx Htime HY.
  unfold is_index_line in Hidx. apply andb_true_iff in Hidx as [Hine Hdig].
  apply negb_true_iff in Hine.
  unfold match_block.
  rewrite (span_run is_digit idx) by (assumption || reflexivity).
  rewrite Hine.
  change (String nl (tm +++ String nl Y))
    with (String nl EmptyString +++ (tm +++ String nl Y)).
  rewrite (span_run is_space (String nl EmptyString))
    by (reflexivity || now apply time_span_starts_with_digit).
  cbn [after_last_nl]. change (is_nl nl) with true. cbv iota.
  rewrite (is_time_span_scan tm _ Htime).
  change (String nl Y) with (String nl EmptyString +++ Y).
  rewrite (span_run is_space (String nl EmptyString) Y eq_refl HY).
  cbn [after_last_nl]. change (is_nl nl) with true. cbv iota.
  cbn [append]. now destruct (until_block_end Y).
Qed.

Lemma scan_from_match (s pre after : string) (b : srt_item) :
  match_block s = Some (b, after) -> s = pre +++ after ->
  pre <> EmptyString ->
  scan_from 0 s = b :: scan_from 0 after.
Proof.
  intros Hm -> Hne. destruct pre as [|c pre]; [contradiction|].
  cbn [append] in *. cbn [scan_from]. rewrite Hm. f_equal.
  cbn [String.length]. rewrite length_append.
  replace (S (String.length pre + String.length after) - String.length after - 1)%nat
    with (String.length pre) by lia.
  apply scan_from_skip.
Qed.

Lemma block_text_head (t rest : string) :
  is_block_text t = true -> starts_with_class is_space (t +++ rest) = false.
Proof.
  unfold is_block_text. intros H.
  apply andb_true_iff in H as [H _]. apply andb_true_iff in H as [Hne Hfix].
  apply negb_true_iff in Hne. apply String.eqb_eq in Hfix.
  pose proof (strip_fixed_head t Hfix) as Hhead.
  destruct t; [discriminate | exact Hhead].
Qed.

Lemma index_ahead_spaces (u : string) :
  all_chars is_space u = true -> index_ahead (String nl u) = false.
Proof.
  intros H. unfold index_ahead. change (is_nl nl) with true. cbn [andb].
  destruct u as [|c u]; [reflexivity|].
  cbn [all_chars] in H. apply andb_true_iff in H as [Hc _].
  cbn [span]. now rewrite (space_not_digit c Hc).
Qed.

Lemma all_chars_append (p : ascii -> bool) (a b : string) :
  all_chars p (a +++ b) = all_chars p a && all_chars p b.
Proof.
  induction a as [|c a IH]; simpl; [reflexivity|].
  now rewrite IH, andb_assoc.
Qed.

Lemma append_split (pre u A B : string) :
  pre +++ u = A +++ B ->
  (exists m, A = pre +++ m /\ u = m +++ B)
  \/ (exists m, pre = A +++ m /\ B = m +++ u).
Proof.
  revert A. induction pre as [|x pre IH]; intros A H.
  - left. now exists A.
  - destruct A as [|y A]; cbn [append] in H.
    + right. exists (String x pre). split; [reflexivity | now rewrite <- H].
    + injection H as <- H. destruct (IH A H) as [(m & -> & ->) | (m & -> & ->)].
      * left. now exists m.
      * right. now exists m.
Qed.

(** The text of the last block, followed by whitespace only, runs to the
    end of the input. *)
Lemma until_block_end_trailing (t w : string) :
  is_block_text t = true -> all_chars is_space w = true ->
  until_block_end (t +++ String nl w) = (t +++ String nl w, EmptyString).
Proof.
  intros Ht Hw.
  rewrite <- (append_empty_r (t +++ String nl w)) at 1.
  apply until_block_end_append; [|reflexivity].
  intros pre u Hsplit Hu. rewrite append_empty_r.
  destruct u as [|c u]; [contradiction|].
  destruct (is_nl c) eqn:Ec; [|cbn [index_ahead]; now rewrite Ec].
  apply Ascii.eqb_eq in Ec. subst c.
  symmetry in Hsplit.
  destruct (append_split pre (String nl u) t (String nl w) Hsplit)
    as [(m & Htext & Hm) | (m & _ & Hm)].
  - destruct m as [|x v]; cbn [append] in Hm.
    + injection Hm as ->. now apply index_ahead_spaces.
    + injection Hm as <- ->.
      destruct (first_line_append v w) as (l & y & Hl & Hy).
      rewrite Hy.
      assert (Hnl : Sanitizer.no_nl l).
      { pose proof (SanitizerFacts.lines_no_nl v) as Hall.
        rewrite Hl in Hall. now inversion Hall. }
      rewrite (index_ahead_line l y Hnl).
      unfold is_block_text in Ht. apply andb_true_iff in Ht as [_ Hlines].
      rewrite Htext, lines_append_nl in Hlines.
      pose proof (SanitizerFacts.lines_nonempty pre) as Hne.
      destruct (Sanitizer.lines pre) as [|p0 pmore]; [contradiction|].
      cbn [app tl] in Hlines. rewrite forallb_app in Hlines.
      apply andb_true_iff in Hlines as [_ Hv].
      rewrite Hl in Hv. cbn [forallb] in Hv.
      apply andb_true_iff in Hv as [Hv _].
      now apply negb_true_iff in Hv.
  - assert (Hall : all_chars is_space (m +++ String nl u) = true).
    { rewrite <- Hm. cbn [all_chars]. now rewrite Hw. }
    rewrite all_chars_append in Hall. apply andb_true_iff in Hall as [_ Hall].
    cbn [all_chars] in Hall. apply andb_true_iff in Hall as [_ Hall].
    now apply index_ahead_spaces.
Qed.

Lemma strip_block_text_trailing (t w : string) :
  is_block_text t = true -> all_chars is_space w = true ->
  strip (t +++ String nl w) = t.
Proof.
  intros Ht Hw. pose proof (block_text_head t EmptyString Ht) as Hhead.
  rewrite append_empty_r in Hhead.
  unfold is_block_text in Ht. apply andb_true_iff in Ht as [Ht _].
  apply andb_true_iff in Ht as [Hne Hfix].
  apply negb_true_iff in Hne. apply String.eqb_eq in Hfix.
  unfold strip. rewrite lstrip_fixed.
  - rewrite rstrip_append_spaces by (cbn [all_chars]; now rewrite Hw).
    unfold strip in Hfix. now rewrite (lstrip_fixed t Hhead) in Hfix.
  - destruct t; [discriminate | exact Hhead].
Qed.

Lemma scan_blocks_cons (s after : string) (b : srt_item) :
  scan_from 0 s = b :: scan_from 0 after ->
  scan_blocks s
  = mk_item (index b) (time b) (strip (text b)) :: scan_blocks after.
Proof. unfold scan_blocks. now intros ->. Qed.

Lemma wf_record_parts (b : srt_item) :
  wf_record b = true ->
  is_index_line (index b) = true /\ is_time_span (time b) = true
  /\ is_block_text (text b) = true.
Proof.
  unfold wf_record, wf_timing. intros H.
  apply andb_true_iff in H as [H Ht]. apply andb_true_iff in H as [Hi Hs].
  auto.
Qed.

(** The text of records in good shape, with whitespace after the last
    block, parses to the records. *)
Lemma scan_blocks_srt_text (blocks : list srt_item) (w : string) :
  forallb wf_record blocks = true -> all_chars is_space w = true ->
  scan_blocks (srt_text blocks +++ w) = blocks.
Proof.
  intros Hall Hw. induction blocks as [|b more IH].
  - cbn [srt_text map join append]. unfold scan_blocks.
    rewrite <- (append_empty_r w), scan_from_prefix; [reflexivity|].
    unfold no_digit. clear -Hw. induction w as [|c w IH]; [reflexivity|].
    cbn [all_chars] in *. apply andb_true_iff in Hw as [Hc Hw].
    now rewrite (space_not_digit c Hc), (IH Hw).
  - cbn [forallb] in Hall. apply andb_true_iff in Hall as [Hb Hmore].
    destruct (wf_record_parts b Hb) as (Hi & Hs & Ht).
    rewrite srt_text_cons. destruct more as [|b2 more'].
    + rewrite append_empty_r, block_append.
      pose proof (match_block_general (index b) (time b)
                    (text b +++ String nl w) Hi Hs (block_text_head _ _ Ht)) as Hm.
      rewrite (until_block_end_trailing (text b) w Ht Hw) in Hm. cbn [fst snd] in Hm.
      rewrite (scan_blocks_cons _ EmptyString _
                 (scan_from_match _ _ EmptyString _ Hm
                    (eq_sym (append_empty_r _)) ltac:(destruct (index b); discriminate))).
      cbn [index time text]. rewrite (strip_block_text_trailing _ _ Ht Hw).
      now destruct b.
    + rewrite append_assoc. cbn [append].
      set (R := srt_text (b2 :: more') +++ w) in *.
      assert (Hfollow : block_follows (String nl R)).
      { right. exists R. split; [reflexivity|].
        cbn [forallb] in Hmore. apply andb_true_iff in Hmore as [Hb2 _].
        destruct (wf_record_parts b2 Hb2) as (Hi2 & _ & _).
        unfold R. rewrite srt_text_cons, append_assoc, block_append.
        rewrite index_ahead_line.
        - now apply index_line_like.
        - apply digits_no_nl. unfold is_index_line in Hi2.
          now apply andb_true_iff in Hi2 as [_ ?]. }
      rewrite block_append.
      pose proof (match_block_general (index b) (time b)
                    (text b +++ String nl (String nl R)) Hi Hs
                    (block_text_head _ _ Ht)) as Hm.
      rewrite (block_text_until_end (text b) (String nl R) Ht Hfollow) in Hm.
      cbn [fst snd] in Hm.
      rewrite (scan_blocks_cons _ (String nl R) _
                 (scan_from_match _
                    (index b +++ String nl (time b +++ String nl
                       (text b +++ String nl EmptyString)))
                    (String nl R) _ Hm
                    ltac:(now rewrite <- block_append)
                    ltac:(destruct (index b); discriminate))).
      cbn [index time text].
      assert (Hstrip : strip (text b +++ String nl EmptyString) = text b).
      { now apply strip_block_text_trailing. }
      rewrite Hstrip.
      assert (Hskip : scan_blocks (String nl R) = scan_blocks R).
      { unfold scan_blocks.
        change (String nl R) with (String nl EmptyString +++ R).
        now rewrite (scan_from_prefix (String nl EmptyString) R eq_refl). }
      rewrite Hskip, (IH Hmore). now destruct b.
Qed.

Lemma parse_srt_records_text (blocks : list srt_item) (w : string) :
  forallb wf_record blocks = true -> all_chars is_space w = true ->
  parse_srt (srt_text blocks +++ w) = blocks.
Proof.
  intros Hall Hw. rewrite parse_srt_scan. now apply scan_blocks_srt_text.
Qed.

(** X21.  Whitespace after the last block does no harm: for records in
    good shape (an index of digits, a time range that the pattern
    accepts, a text that is not empty, is trimmed and has no later line
    that reads as an index), the subtitle text followed by any blank
    lines or spaces parses to exactly these records. *)
Theorem parse_srt_trailing_whitespace (blocks : list srt_item) (w : string) :
  forallb wf_record blocks = true -> all_chars is_space w = true ->
  parse_srt (srt_text blocks +++ w) = blocks.
Proof. exact (parse_srt_records_text blocks w). Qed.

Lemma parse_srt_trailing_whitespace_witness :
  parse_srt (srt_text two_blocks +++ blank_lines) = two_blocks.
Proof.
  apply parse_srt_trailing_whitespace; reflexivity.
Defined.

(** ** Reading back what [rebuild_srt] wrote *)

Lemma translated_records_wf (data : list srt_item) :
  forall translations,
    forallb wf_timing data = true ->
    forallb is_block_text translations = true ->
    forallb wf_record (translated_records data translations) = true.
Proof.
  unfold translated_records.
  induction data as [|r data IH]; intros [|t ts] Hd Ht; try reflexivity.
  cbn [forallb] in Hd, Ht.
  apply andb_true_iff in Hd as [Hr Hd]. apply andb_true_iff in Ht as [Ht Hts].
  cbn [combine map forallb fst snd].
  rewrite (IH ts Hd Hts), andb_true_r.
  unfold wf_record, wf_timing, with_text in *. cbn [index time text].
  now rewrite Hr, Ht.
Qed.

(** X17.  What [rebuild_srt] writes can be read back: for records with
    an index of digits and a time range that the pattern accepts, and
    translations that are not empty, are trimmed and have no later line
    that reads as an index, [parse_srt] on the output of [rebuild_srt]
    returns the records with their index and time unchanged and the
    translations as texts. *)
Theorem parse_rebuilt (data : list srt_item) (chunks : list (list string)) :
  forallb wf_timing data = true ->
  forallb is_block_text (concat chunks) = true ->
  parse_srt (rebuild_srt data chunks)
  = translated_records data (concat chunks).
Proof.
  intros Hd Ht. rewrite rebuild_srt_zip.
  rewrite <- (append_empty_r (srt_text _)).
  apply parse_srt_records_text; [|reflexivity].
  now apply translated_records_wf.
Qed.

Lemma parse_rebuilt_witness :
  parse_srt (rebuild_srt (parse_srt tight_arrow) [["Salut"]])
  = translated_records (parse_srt tight_arrow) ["Salut"].
Proof.
  apply (parse_rebuilt (parse_srt tight_arrow) [["Salut"]]);
    vm_compute; reflexivity.
Defined.

(** X22.  Parsing is stable under rewriting: for any input whose parsed
    texts are not empty and hold no later line that reads as an index,
    writing the parsed records with their own texts and parsing the
    result gives the same records again. *)
Theorem parse_rebuild_parse (content : string) :
  forallb (fun r => is_block_text (text r)) (parse_srt content) = true ->
  parse_srt (rebuild_srt (parse_srt content) [map text (parse_srt content)])
  = parse_srt content.
Proof.
  intros Ht. rewrite rebuild_srt_own_texts.
  rewrite <- (append_empty_r (srt_text _)).
  apply parse_srt_records_text; [|reflexivity].
  apply forallb_forall. intros r Hr.
  rewrite forallb_forall in Ht. specialize (Ht r Hr).
  unfold wf_record. rewrite Ht, andb_true_r.
  rewrite parse_srt_scan in Hr. unfold scan_blocks in Hr.
  apply in_map_iff in Hr as (b & <- & Hb).
  pose proof (scan_from_timing content 0) as Hall.
  rewrite Forall_forall in Hall. exact (Hall b Hb).
Qed.

Lemma parse_rebuild_parse_witness :
  parse_srt (rebuild_srt (parse_srt tight_arrow)
                         [map text (parse_srt tight_arrow)])
  = parse_srt tight_arrow.
Proof.
  apply parse_rebuild_parse. vm_compute. reflexivity.
Defined.

End CodecShape.

(* ================================================================== *)
(** * The sample of the context analysis *)
(* ================================================================== *)

Module AnalyzerFacts.
Import PyStr Analyzer RegexFacts.

Lemma substring_length (s : string) :
  forall n m,
    String.length (substring n m s)
    = Nat.min m (String.length s - n).
Proof.
  induction s as [|c s IH]; intros [|n] [|m]; cbn [substring String.length];
    try reflexivity.
  - rewrite IH. rewrite Nat.sub_0_r. reflexivity.
  - rewrite IH. reflexivity.
  - rewrite IH. reflexivity.
Qed.

Lemma substring_split (s : string) :
  forall n a b,
    substring n (a + b) s = substring n a s +++ substring (n + a) b s.
Proof.
  induction s as [|c s IH]; intros n a b.
  - destruct n, a, b; reflexivity.
  - destruct n as [|n].
    + destruct a as [|a].
      * reflexivity.
      * cbn [Nat.add substring append]. f_equal. apply (IH 0%nat a b).
    + cbn [Nat.add substring]. apply IH.
Qed.

Lemma slice_length (s : string) (a b : Z) :
  0 <= a <= b ->
  len (slice s a b) = Z.min b (len s) - Z.min a (len s).
Proof.
  intros H. unfold slice, clamp, len.
  destruct (Z.ltb_spec a 0) as [Ha|Ha]; [lia|].
  destruct (Z.ltb_spec b 0) as [Hb|Hb]; [lia|].
  rewrite substring_length. lia.
Qed.

Lemma slice_split (s : string) (a b c : Z) :
  0 <= a <= b -> b <= c ->
  slice s a c = slice s a b +++ slice s b c.
Proof.
  intros Hab Hbc. unfold slice, clamp.
  destruct (Z.ltb_spec a 0) as [Ha|Ha]; [lia|].
  destruct (Z.ltb_spec b 0) as [Hb|Hb]; [lia|].
  destruct (Z.ltb_spec c 0) as [Hc|Hc]; [lia|].
  replace (Z.to_nat (Z.min c (len s) - Z.min a (len s)))
    with (Z.to_nat (Z.min b (len s) - Z.min a (len s))
          + Z.to_nat (Z.min c (len s) - Z.min b (len s)))%nat by lia.
  rewrite substring_split. f_equal. f_equal. lia.
Qed.

Lemma len_append (a b : string) : len (a +++ b) = len a + len b.
Proof. unfold len. rewrite length_append. lia. Qed.

(** X23.  The sample that [analyze_context] places in its prompt is
    bounded whatever the size of the file: the whole text up to 3000
    characters, its first 3000 characters up to a length of 5000, and
    beyond that exactly 5005 characters (the first 3000, a separator
    line, 2000 from the middle). *)
Theorem sample_text_length (full_text : string) :
  len (sample_text full_text)
  = (if len full_text >? 5000 then 5005 else Z.min 3000 (len full_text))
  /\ len (sample_text full_text) <= 5005
  /\ (len full_text <= 3000 -> sample_text full_text = full_text).
Proof.
  assert (Hlen : len (sample_text full_text)
                 = if len full_text >? 5000 then 5005
                   else Z.min 3000 (len full_text)).
  { unfold sample_text.
    assert (Hn : 0 <= len full_text) by (unfold len; lia).
    destruct (Z.gtb_spec (len full_text) 5000) as [Hbig|Hsmall].
    - rewrite !len_append.
      rewrite (slice_length full_text 0 3000) by lia.
      pose proof (Z.div_mod (len full_text) 2 ltac:(lia)) as Hd.
      pose proof (Z.mod_pos_bound (len full_text) 2 ltac:(lia)) as Hm.
      rewrite slice_length by lia.
      change (len ellipsis) with 5. lia.
    - rewrite (slice_length full_text 0 3000) by lia. lia. }
  split; [exact Hlen|]. split.
  - rewrite Hlen. destruct (len full_text >? 5000); lia.
  - intros Hshort. unfold sample_text.
    destruct (Z.gtb_spec (len full_text) 5000) as [Hbig|_]; [lia|].
    unfold slice, clamp. cbn [Z.ltb].
    change (0 <? 0) with false. change (3000 <? 0) with false. cbv iota.
    rewrite Z.min_l by (unfold len; lia).
    rewrite (Z.min_r 3000) by lia.
    rewrite Z.sub_0_r. change (Z.to_nat 0) with 0%nat.
    unfold len. rewrite Nat2Z.id.
    rewrite <- (append_empty_r full_text) at 2.
    apply substring_prefix.
Qed.

(** X24.  For a text of more than 5000 and fewer than 6000 characters
    the two parts of the sample overlap: the part taken from the middle
    starts before position 3000, so the characters from the middle of the
    text up to position 3000 stand in the sample twice, at the end of its
    first part and at the start of its second. *)
Theorem sample_text_overlap (full_text : string) :
  5000 < len full_text < 6000 ->
  let mid := len full_text / 2 in
  let repeated := slice full_text mid 3000 in
  len repeated = 3000 - mid
  /\ 0 < len repeated
  /\ sample_text full_text
     = (slice full_text 0 mid +++ repeated) +++ ellipsis
       +++ (repeated +++ slice full_text 3000 (mid + 2000)).
Proof.
  intros Hn mid repeated.
  pose proof (Z.div_mod (len full_text) 2 ltac:(lia)) as Hd.
  pose proof (Z.mod_pos_bound (len full_text) 2 ltac:(lia)) as Hm.
  fold mid in Hd.
  assert (Hr : len repeated = 3000 - mid).
  { unfold repeated. rewrite slice_length by lia. lia. }
  split; [exact Hr|]. split; [lia|].
  unfold sample_text.
  destruct (Z.gtb_spec (len full_text) 5000) as [_|Hsmall]; [|lia].
  fold mid.
  rewrite (slice_split full_text 0 mid 3000) by lia.
  rewrite (slice_split full_text mid 3000 (mid + 2000)) by lia.
  reflexivity.
Qed.

Lemma sample_text_overlap_witness :
  len (slice mid_size_text 2700 3000) = 3000 - 2700.
Proof.
  apply (sample_text_overlap mid_size_text). vm_compute. split; reflexivity.
Defined.

End AnalyzerFacts.

(* ================================================================== *)
(** * The translation step keeps the subtitles aligned *)
(* ================================================================== *)

Module PipelineFacts.
Import PyStr PyVal Protocol Codec Chunker Records Pipeline.
Import ProtocolFacts ChunkerFacts CodecFacts CodecShape.

(** ** Lists written by index *)

Lemma store_nth {A : Type} (l : list A) :
  forall i x l',
    store l i x = inr l' ->
    length l' = length l
    /\ forall j, nth_error l' j
                 = if (j =? i)%nat then Some x else nth_error l j.
Proof.
  induction l as [|y l IH]; intros i x l' H; [discriminate|].
  destruct i as [|i]; cbn [store] in H.
  - injection H as <-. split; [reflexivity|].
    intros [|j]; reflexivity.
  - destruct (store l i x) as [e|r] eqn:E; [discriminate|].
    injection H as <-. destruct (IH i x r E) as [Hlen Hnth].
    split; [simpl; now rewrite Hlen|].
    intros [|j]; [reflexivity|]. cbn [nth_error]. rewrite Hnth. reflexivity.
Qed.

Lemma store_some {A : Type} (l : list A) :
  forall i x y, nth_error l i = Some y -> exists l', store l i x = inr l'.
Proof.
  induction l as [|z l IH]; intros [|i] x y H; try discriminate.
  - cbn [store]. eauto.
  - cbn [store]. cbn [nth_error] in H.
    destruct (IH i x y H) as [r ->]. eauto.
Qed.

Lemma skipn_cons {A : Type} (l : list A) :
  forall i x rest,
    skipn i l = x :: rest ->
    nth_error l i = Some x /\ skipn (S i) l = rest.
Proof.
  induction l as [|y l IH]; intros [|i] x rest H; try discriminate.
  - injection H as <- <-. split; reflexivity.
  - cbn [skipn] in H. destruct (IH i x rest H) as [H1 H2].
    split; [exact H1 | exact H2].
Qed.

(** ** Computations append to the log *)

Section Frames.

Variable World : Type.
Variable generate_content : World -> request -> (exn + string) * World.
Variable time_time : World -> Q * World.
Variable time_sleep : Q -> World -> World.
Variable json_loads : string -> option pyval.
Variable json_dumps : pyval -> string.

Lemma framed_ret {A : Type} (a : A) : framed World (ret World a).
Proof. intros w log. cbn. now rewrite app_nil_r. Qed.

Lemma framed_bind {A B : Type} (m : M World A) (f : A -> M World B) :
  framed World m -> (forall a, framed World (f a)) ->
  framed World (bind World m f).
Proof.
  intros Hm Hf w log. unfold bind. rewrite (Hm w log).
  destruct (m (w, [])) as [a [w1 l1]]. cbn [fst snd].
  rewrite (Hf a w1 (log ++ l1)), (Hf a w1 l1).
  destruct (f a (w1, [])) as [b [w2 l2]]. cbn [fst snd].
  now rewrite app_assoc.
Qed.

Lemma framed_now : framed World (now World time_time).
Proof.
  intros w log. unfold now. cbn [fst snd].
  destruct (time_time w) as [t w']. cbn. now rewrite app_nil_r.
Qed.

Lemma framed_sleep (seconds : Q) :
  framed World (sleep World time_sleep seconds).
Proof. intros w log. reflexivity. Qed.

Lemma framed_generate (r : request) :
  framed World (generate World generate_content r).
Proof.
  intros w log. unfold generate. cbn [fst snd].
  destruct (generate_content w r) as [out w']. reflexivity.
Qed.

Lemma framed_retry_loop (attempts : list Z) :
  forall (text_list : list string) (req : request) (start_time : Q)
         (d : diagnostics),
    framed World
      (retry_loop World generate_content time_time time_sleep json_loads
                  attempts text_list req start_time d).
Proof.
  induction attempts as [|attempt more IH]; intros text_list req start_time d;
    cbn [retry_loop].
  - apply framed_ret.
  - apply framed_bind; [apply framed_generate|].
    intros [e|raw].
    + destruct (attempt <? max_retries).
      * apply framed_bind; [apply framed_sleep | intros _; apply IH].
      * apply framed_bind; [apply framed_now | intros t; apply framed_ret].
    + destruct (process_response json_loads text_list raw) as [e|out].
      * destruct (attempt <? max_retries).
        -- apply framed_bind; [apply framed_sleep | intros _; apply IH].
        -- apply framed_bind; [apply framed_now | intros t; apply framed_ret].
      * apply framed_bind; [apply framed_now | intros t; apply framed_ret].
Qed.

Lemma framed_translate_chunk (text_list : list string)
    (src_lang tgt_lang context_guide : string) (enable_reasoning : bool) :
  framed World
    (translate_chunk World generate_content time_time time_sleep json_loads
                     json_dumps text_list src_lang tgt_lang context_guide
                     enable_reasoning).
Proof.
  unfold translate_chunk.
  apply framed_bind; [apply framed_now | intros t; apply framed_retry_loop].
Qed.

(** [translate_chunk] from any state: it returns, with one entry per
    text, and with the input texts unless the status is [Success]. *)
Lemma translate_chunk_at (text_list : list string)
    (src_lang tgt_lang context_guide : string) (enable_reasoning : bool)
    (st : World * list event) :
  exists out dbg st',
    translate_chunk World generate_content time_time time_sleep json_loads
                    json_dumps text_list src_lang tgt_lang context_guide
                    enable_reasoning st
    = (Some (out, dbg), st')
    /\ length out = length text_list
    /\ ((forall w r, exists e, fst (generate_content w r) = inl e) ->
        out = map PStr text_list).
Proof.
  destruct st as [w log].
  rewrite (framed_translate_chunk text_list src_lang tgt_lang context_guide
             enable_reasoning w log).
  destruct (translate_chunk_cases World generate_content time_time time_sleep
              json_loads json_dumps text_list src_lang tgt_lang context_guide
              enable_reasoning w)
    as (out & dbg & w' & [H | [H | H]]).
  - destruct H as (Hrun & Hout & _). unfold run in Hrun. rewrite Hrun.
    exists out, dbg. eexists. split; [reflexivity|].
    split; [now apply (attempt_outcome_length json_loads) in Hout|].
    intros Hraise.
    match type of Hout with
    | attempt_outcome _ _ (fst (generate_content ?w1 ?r)) = _ =>
        destruct (Hraise w1 r) as [e He]
    end.
    rewrite He in Hout. discriminate.
  - destruct H as (Hrun & _ & Hout & _). unfold run in Hrun. rewrite Hrun.
    exists out, dbg. eexists. split; [reflexivity|].
    split; [now apply (attempt_outcome_length json_loads) in Hout|].
    intros Hraise.
    match type of Hout with
    | attempt_outcome _ _ (fst (generate_content ?w1 ?r)) = _ =>
        destruct (Hraise w1 r) as [e He]
    end.
    rewrite He in Hout. discriminate.
  - destruct H as (Hrun & _ & _ & -> & _). unfold run in Hrun. rewrite Hrun.
    eexists _, dbg. eexists. split; [reflexivity|].
    split; [apply length_map | reflexivity].
Qed.

End Frames.

(** ** Rows of the session *)

Lemma row_exists (P : list srt_item -> list pyval -> Prop) (s : session)
    (i : nat) (chunk : list srt_item) :
  row_ok P s i -> nth_error (ss_chunks s) i = Some chunk ->
  (exists a, nth_error (ss_results s) i = Some a)
  /\ (exists b, nth_error (ss_debugs s) i = Some b)
  /\ (exists c, nth_error (ss_chunk_states s) i = Some c).
Proof.
  unfold row_ok. intros H Hc. rewrite Hc in H.
  destruct (nth_error (ss_results s) i); [|contradiction].
  destruct (nth_error (ss_debugs s) i); [|contradiction].
  destruct (nth_error (ss_chunk_states s) i); [|contradiction].
  repeat split; eexists; reflexivity.
Qed.

Lemma row_ok_agree (P : list srt_item -> list pyval -> Prop)
    (s s' : session) (j : nat) :
  nth_error (ss_chunks s') j = nth_error (ss_chunks s) j ->
  nth_error (ss_results s') j = nth_error (ss_results s) j ->
  nth_error (ss_debugs s') j = nth_error (ss_debugs s) j ->
  nth_error (ss_chunk_states s') j = nth_error (ss_chunk_states s) j ->
  row_ok P s j -> row_ok P s' j.
Proof. unfold row_ok. now intros -> -> -> ->. Qed.

Lemma set_chunk_status_nth (states : list chunk_state) (i : nat)
    (status : chunk_status) (c : chunk_state) :
  nth_error states i = Some c ->
  exists states',
    set_chunk_status states i status = inr states'
    /\ forall j, nth_error states' j
                 = if (j =? i)%nat
                   then Some (mk_chunk_state status (cs_duration c))
                   else nth_error states j.
Proof.
  intros H. unfold set_chunk_status, fetch. rewrite H.
  destruct (store_some states i (mk_chunk_state status (cs_duration c)) c H)
    as [l' E].
  rewrite E. exists l'. split; [reflexivity|].
  now destruct (store_nth states i _ l' E).
Qed.

Lemma set_chunk_duration_nth (states : list chunk_state) (i : nat)
    (duration : Q) (c : chunk_state) :
  nth_error states i = Some c ->
  exists states',
    set_chunk_duration states i duration = inr states'
    /\ forall j, nth_error states' j
                 = if (j =? i)%nat
                   then Some (mk_chunk_state (cs_status c) duration)
                   else nth_error states j.
Proof.
  intros H. unfold set_chunk_duration, fetch. rewrite H.
  destruct (store_some states i (mk_chunk_state (cs_status c) duration) c H)
    as [l' E].
  rewrite E. exists l'. split; [reflexivity|].
  now destruct (store_nth states i _ l' E).
Qed.

(** The four assignments succeed on a row that exists, and write that
    row only. *)
Lemma record_outcome_rows (i : nat) (res : list pyval) (dbg : diagnostics)
    (s : session) :
  (exists a, nth_error (ss_results s) i = Some a) ->
  (exists b, nth_error (ss_debugs s) i = Some b) ->
  (exists c, nth_error (ss_chunk_states s) i = Some c) ->
  exists s',
    record_outcome i res dbg s = inr s'
    /\ ss_chunks s' = ss_chunks s
    /\ ss_parsed_srt s' = ss_parsed_srt s
    /\ ss_is_running s' = ss_is_running s
    /\ ss_context_guide s' = ss_context_guide s
    /\ ss_final_srt_content s' = ss_final_srt_content s
    /\ (forall j, nth_error (ss_results s') j
                  = if (j =? i)%nat then Some (Some res)
                    else nth_error (ss_results s) j)
    /\ (forall j, nth_error (ss_debugs s') j
                  = if (j =? i)%nat then Some (Some dbg)
                    else nth_error (ss_debugs s) j)
    /\ (forall j, nth_error (ss_chunk_states s') j
                  = if (j =? i)%nat
                    then Some (mk_chunk_state
                                 (if is_success dbg then SUCCESS else ERROR)
                                 (dbg_duration dbg))
                    else nth_error (ss_chunk_states s) j).
Proof.
  intros [a Ha] [b Hb] [c Hc]. unfold record_outcome.
  destruct (store_some (ss_results s) i (Some res) a Ha) as [r1 E1].
  destruct (store_some (ss_debugs s) i (Some dbg) b Hb) as [r2 E2].
  rewrite E1, E2.
  destruct (set_chunk_status_nth (ss_chunk_states s) i
              (if is_success dbg then SUCCESS else ERROR) c Hc)
    as (st1 & E3 & H3).
  rewrite E3.
  assert (Hi : nth_error st1 i
               = Some (mk_chunk_state
                         (if is_success dbg then SUCCESS else ERROR)
                         (cs_duration c))).
  { now rewrite H3, Nat.eqb_refl. }
  destruct (set_chunk_duration_nth st1 i (dbg_duration dbg) _ Hi)
    as (st2 & E4 & H4).
  rewrite E4. eexists. split; [reflexivity|].
  cbn [ss_chunks ss_parsed_srt ss_is_running ss_context_guide
       ss_final_srt_content ss_results ss_debugs ss_chunk_states].
  repeat (split; [reflexivity|]).
  split; [now destruct (store_nth _ _ _ _ E1)|].
  split; [now destruct (store_nth _ _ _ _ E2)|].
  intros j. rewrite H4, H3. cbn [cs_status]. now destruct (j =? i)%nat.
Qed.

(** ** The loop *)

Section Steps.

Variable World : Type.
Variable generate_content : World -> request -> (exn + string) * World.
Variable time_time : World -> Q * World.
Variable time_sleep : Q -> World -> World.
Variable json_loads : string -> option pyval.
Variable json_dumps : pyval -> string.
Variable stop_requested : World -> bool * World.
Variable str_of : pyval -> string.

Variable P : list srt_item -> list pyval -> Prop.
Variables src_lang tgt_lang : string.
Variable enable_reasoning : bool.

(** What the loop needs of [translate_chunk]: it returns, with a result
    that satisfies [P]. *)
Hypothesis translate_returns :
  forall (chunk : list srt_item) (guide : string) (st : World * list event),
  exists out dbg st',
    translate_chunk World generate_content time_time time_sleep json_loads
                    json_dumps (texts_of_chunk chunk) src_lang tgt_lang
                    guide enable_reasoning st
    = (Some (out, dbg), st')
    /\ P chunk out.

Lemma record_outcome_consistent (i : nat) (chunk : list srt_item)
    (res : list pyval) (dbg : diagnostics) (s0 s : session) :
  consistent P s0 ->
  nth_error (ss_chunks s0) i = Some chunk ->
  P chunk res ->
  ss_chunks s = ss_chunks s0 -> ss_parsed_srt s = ss_parsed_srt s0 ->
  ss_results s = ss_results s0 -> ss_debugs s = ss_debugs s0 ->
  (forall j, j <> i ->
             nth_error (ss_chunk_states s) j
             = nth_error (ss_chunk_states s0) j) ->
  (exists c, nth_error (ss_chunk_states s) i = Some c) ->
  exists s',
    record_outcome i res dbg s = inr s'
    /\ consistent P s'
    /\ ss_chunks s' = ss_chunks s0
    /\ ss_parsed_srt s' = ss_parsed_srt s0
    /\ ss_is_running s' = ss_is_running s
    /\ ss_context_guide s' = ss_context_guide s
    /\ (forall j, j <> i ->
                  nth_error (ss_results s') j = nth_error (ss_results s0) j).
Proof.
  intros [Hcat Hrows] Hchunk HP Hc Hp Hr Hd Hst Hci.
  destruct (row_exists P s0 i chunk (Hrows i) Hchunk) as (Ha & Hb & _).
  rewrite <- Hr in Ha. rewrite <- Hd in Hb.
  destruct (record_outcome_rows i res dbg s Ha Hb Hci)
    as (s' & E & Hc' & Hp' & Hrun' & Hg' & _ & Hr' & Hd' & Hs').
  exists s'. split; [exact E|].
  split.
  - split; [now rewrite Hc', Hc, Hp', Hp|].
    intros j. destruct (Nat.eqb_spec j i) as [-> | Hne].
    + unfold row_ok. rewrite Hc', Hc, Hchunk, Hr', Hd', Hs', Nat.eqb_refl.
      split; [exact HP | split; reflexivity].
    + apply (row_ok_agree P s0 s' j).
      * now rewrite Hc', Hc.
      * rewrite Hr', Hr. apply Nat.eqb_neq in Hne. now rewrite Hne.
      * rewrite Hd', Hd. apply Nat.eqb_neq in Hne. now rewrite Hne.
      * rewrite Hs'. pose proof Hne as Hne'. apply Nat.eqb_neq in Hne'.
        rewrite Hne'. now apply Hst.
      * apply Hrows.
  - split; [now rewrite Hc', Hc|]. split; [now rewrite Hp', Hp|].
    split; [exact Hrun'|]. split; [exact Hg'|].
    intros j Hne. rewrite Hr', Hr. apply Nat.eqb_neq in Hne. now rewrite Hne.
Qed.

Lemma translation_loop_consistent (final_context : string)
    (todo : list (list srt_item)) :
  forall (i : nat) (s : session) (st : World * list event),
    skipn i (ss_chunks s) = todo ->
    consistent P s ->
    exists s' st',
      translation_loop World generate_content time_time time_sleep json_loads
                       json_dumps stop_requested todo i src_lang tgt_lang
                       final_context enable_reasoning s st
      = (inr s', st')
      /\ consistent P s'
      /\ ss_chunks s' = ss_chunks s
      /\ ss_parsed_srt s' = ss_parsed_srt s.
Proof.
  induction todo as [|chunk rest IH]; intros i s [w log] Hskip Hcons.
  - cbn [translation_loop]. unfold ret. exists s. eexists.
    split; [reflexivity | split; [exact Hcons | split; reflexivity]].
  - destruct (skipn_cons _ _ _ _ Hskip) as [Hchunk Hrest].
    cbn [translation_loop]. unfold bind at 1. unfold read_is_running.
    cbn [fst snd]. destruct (stop_requested w) as [stop w1].
    set (s1 := if stop then with_is_running s false else s).
    assert (H1 : ss_chunks s1 = ss_chunks s /\ ss_parsed_srt s1 = ss_parsed_srt s
                 /\ ss_results s1 = ss_results s /\ ss_debugs s1 = ss_debugs s
                 /\ ss_chunk_states s1 = ss_chunk_states s).
    { unfold s1. destruct stop; repeat split; reflexivity. }
    destruct H1 as (Hc1 & Hp1 & Hr1 & Hd1 & Hs1).
    assert (Hcons1 : consistent P s1).
    { destruct Hcons as [Hcat Hrows]. split; [now rewrite Hc1, Hp1|].
      intros j. apply (row_ok_agree P s s1 j); try congruence. apply Hrows. }
    destruct (ss_is_running s1) eqn:Erun; cbn [negb].
    + destruct Hcons as [Hcat Hrows].
      destruct (row_exists P s i chunk (Hrows i) Hchunk) as (_ & _ & c & Hci).
      rewrite <- Hs1 in Hci.
      destruct (set_chunk_status_nth (ss_chunk_states s1) i RUNNING c Hci)
        as (states & Est & Hst).
      rewrite Est. unfold bind at 1. unfold now at 1. cbn [fst snd].
      destruct (time_time w1) as [t w2].
      unfold bind at 1.
      destruct (translate_returns chunk final_context (w2, log))
        as (out & dbg & st3 & Htr & HP).
      rewrite Htr.
      destruct (record_outcome_consistent i chunk out dbg s
                  (with_chunk_states s1 states))
        as (s3 & Erec & Hcons3 & Hc3 & Hp3 & _ & _ & _);
        try assumption.
      * split; assumption.
      * intros j Hne. cbn [with_chunk_states ss_chunk_states].
        rewrite Hst. apply Nat.eqb_neq in Hne. now rewrite Hne, Hs1.
      * cbn [with_chunk_states ss_chunk_states]. rewrite Hst, Nat.eqb_refl.
        eauto.
      * rewrite Erec. unfold bind at 1. unfold sleep at 1. cbn [fst snd].
        destruct (IH (S i) s3
                    (time_sleep (1 # 2) (fst st3),
                     snd st3 ++ [EvSleep (1 # 2)]))
          as (s' & st' & Eloop & Hcons' & Hc' & Hp').
        -- now rewrite Hc3.
        -- exact Hcons3.
        -- exists s', st'. rewrite Eloop.
           split; [reflexivity|]. split; [exact Hcons'|].
           split; congruence.
    + unfold ret. exists s1. eexists. split; [reflexivity|].
      split; [exact Hcons1 | split; assumption].
Qed.

(** ** The safe results *)

Lemma nth_error_skipn_none {A : Type} (l : list A) :
  forall i, nth_error l i = None -> skipn i l = [].
Proof.
  induction l as [|x l IH]; intros [|i] H; try reflexivity; try discriminate.
  cbn [skipn]. now apply IH.
Qed.

Lemma nth_error_skipn_some {A : Type} (l : list A) :
  forall i x, nth_error l i = Some x -> skipn i l = x :: skipn (S i) l.
Proof.
  induction l as [|y l IH]; intros [|i] x H; try discriminate.
  - now injection H as ->.
  - cbn [skipn nth_error] in *. now apply IH.
Qed.

Hypothesis untranslated_ok :
  forall chunk, P chunk (map PStr (texts_of_chunk chunk)).

Lemma safe_results_rows (chunks : list (list srt_item))
    (results : list (option (list pyval))) :
  forall i,
    (forall k,
        match nth_error results k, nth_error chunks (i + k) with
        | Some (Some r), Some chunk => P chunk r
        | Some None, Some chunk => True
        | None, None => True
        | _, _ => False
        end) ->
    exists safe,
      safe_results results chunks i = inr safe
      /\ Forall2 (fun entry chunk => P chunk entry) safe (skipn i chunks).
Proof.
  induction results as [|res results IH]; intros i H.
  - exists []. split; [reflexivity|].
    specialize (H 0%nat). cbn [nth_error] in H. rewrite Nat.add_0_r in H.
    destruct (nth_error chunks i) eqn:E; [contradiction|].
    rewrite (nth_error_skipn_none chunks i E). constructor.
  - pose proof (H 0%nat) as H0. cbn [nth_error] in H0.
    rewrite Nat.add_0_r in H0.
    destruct (nth_error chunks i) as [chunk|] eqn:E;
      [|destruct res; contradiction].
    destruct (IH (S i)) as (more & Emore & Hmore).
    { intros k. specialize (H (S k)). cbn [nth_error] in H.
      now rewrite Nat.add_succ_r in H. }
    rewrite (nth_error_skipn_some chunks i chunk E).
    cbn [safe_results]. unfold fetch. rewrite E, Emore.
    destruct res as [r|].
    + exists (r :: more). split; [reflexivity|]. constructor; assumption.
    + eexists. split; [reflexivity|].
      constructor; [apply untranslated_ok | exact Hmore].
Qed.

Lemma store_final_rows (s : session) :
  consistent P s ->
  exists safe,
    store_final str_of s
    = inr (mk_session (ss_chunks s) (ss_results s) (ss_debugs s)
             (ss_parsed_srt s) (ss_chunk_states s) (ss_is_running s)
             (ss_context_guide s)
             (rebuild_srt_values str_of (ss_parsed_srt s) safe))
    /\ Forall2 (fun entry chunk => P chunk entry) safe (ss_chunks s).
Proof.
  intros [_ Hrows]. unfold store_final.
  destruct (safe_results_rows (ss_chunks s) (ss_results s) 0) as (safe & E & H).
  - intros k. cbn [Nat.add]. specialize (Hrows k). unfold row_ok in Hrows.
    destruct (nth_error (ss_chunks s) k);
      destruct (nth_error (ss_results s) k) as [[r|]|];
      destruct (nth_error (ss_debugs s) k) as [[d|]|];
      destruct (nth_error (ss_chunk_states s) k);
      try contradiction; try exact I.
    now destruct Hrows.
  - rewrite E. exists safe. split; [reflexivity | exact H].
Qed.

End Steps.

(** ** From the safe results to the final text *)

Lemma rebuild_srt_values_strings (str_of : pyval -> string)
    (data : list srt_item) (safe : list (list pyval)) :
  rebuild_srt_values str_of data safe
  = rebuild_srt data (map (map (format_value str_of)) safe).
Proof.
  unfold rebuild_srt_values, rebuild_srt.
  rewrite <- concat_map, length_map. f_equal.
  apply map_ext. intros i. f_equal.
  change EmptyString with (format_value str_of (PStr EmptyString)).
  now rewrite map_nth.
Qed.

Lemma translated_records_timing (data : list srt_item) :
  forall translations,
    (length data <= length translations)%nat ->
    map index (translated_records data translations) = map index data
    /\ map time (translated_records data translations) = map time data.
Proof.
  unfold translated_records.
  induction data as [|r data IH]; intros [|t ts] H; cbn [length] in H;
    try lia; try (split; reflexivity).
  cbn [combine map fst snd]. destruct (IH ts ltac:(lia)) as [H1 H2].
  cbn [with_text index time]. now rewrite H1, H2.
Qed.

Lemma concat_same_length (safe : list (list pyval))
    (chunks : list (list srt_item)) :
  Forall2 (fun entry chunk => same_length chunk entry) safe chunks ->
  length (concat safe) = length (concat chunks).
Proof.
  induction 1 as [|entry chunk safe chunks H _ IH]; [reflexivity|].
  cbn [concat]. rewrite !length_app, IH. unfold same_length in H. lia.
Qed.

Lemma concat_untranslated (safe : list (list pyval))
    (chunks : list (list srt_item)) :
  Forall2 (fun entry chunk => untranslated chunk entry) safe chunks ->
  concat safe = map PStr (map text (concat chunks)).
Proof.
  induction 1 as [|entry chunk safe chunks H _ IH]; [reflexivity|].
  cbn [concat]. rewrite !map_app, IH. unfold untranslated in H.
  now rewrite H.
Qed.

(** One entry per record in the safe results: the final text keeps the
    timing of the records. *)
Lemma rebuild_srt_values_timing (str_of : pyval -> string)
    (data : list srt_item) (safe : list (list pyval)) :
  length (concat safe) = length data ->
  keeps_timing data (rebuild_srt_values str_of data safe).
Proof.
  intros Hlen. rewrite rebuild_srt_values_strings, rebuild_srt_zip.
  eexists. split; [reflexivity|].
  apply translated_records_timing.
  rewrite <- concat_map, length_map. lia.
Qed.

(** The safe results are the records' own texts: the final text is the
    subtitle text of the records. *)
Lemma rebuild_srt_values_untranslated (str_of : pyval -> string)
    (data : list srt_item) (safe : list (list pyval)) :
  concat safe = map PStr (map text data) ->
  rebuild_srt_values str_of data safe = srt_text data.
Proof.
  intros H. rewrite rebuild_srt_values_strings, rebuild_srt_zip.
  rewrite <- concat_map, H.
  assert (Hid : map (format_value str_of) (map PStr (map text data))
                = map text data).
  { rewrite map_map. rewrite <- (map_id (map text data)) at 2.
    apply map_ext. reflexivity. }
  rewrite Hid.
  rewrite <- (rebuild_srt_own_texts data), rebuild_srt_zip.
  cbn [concat]. now rewrite app_nil_r.
Qed.

(** The batches of [chunk_text] hold the records, in order. *)
Lemma chunk_text_concat (parsed_data : list srt_item) (chunk_size : Z) :
  concat (chunk_text parsed_data chunk_size) = parsed_data.
Proof.
  unfold chunk_text.
  pose proof (seen_fold chunk_size parsed_data init) as H.
  unfold seen in H. simpl in H.
  destruct (current_chunk (fold_left (step chunk_size) parsed_data init)) eqn:E.
  - now rewrite app_nil_r in H.
  - rewrite concat_app. simpl. rewrite app_nil_r. exact H.
Qed.

Lemma nth_error_repeat_some {A : Type} (x : A) (n j : nat) :
  (j < n)%nat -> nth_error (repeat x n) j = Some x.
Proof.
  revert j. induction n as [|n IH]; intros [|j] H; try lia; [reflexivity|].
  cbn [repeat nth_error]. apply IH. lia.
Qed.

Lemma nth_error_repeat_none {A : Type} (x : A) (n j : nat) :
  (n <= j)%nat -> nth_error (repeat x n) j = None.
Proof.
  intros H. apply nth_error_None. now rewrite repeat_length.
Qed.

(** The session as it stands when the loop is entered. *)
Lemma initial_session_consistent (P : list srt_item -> list pyval -> Prop)
    (parsed : list srt_item) (chunk_size : Z) (guide final : string) :
  consistent P
    (mk_session (chunk_text parsed chunk_size)
       (repeat None (length (chunk_text parsed chunk_size)))
       (repeat None (length (chunk_text parsed chunk_size))) parsed
       (repeat (mk_chunk_state WAITING 0)
               (length (chunk_text parsed chunk_size)))
       true guide final).
Proof.
  split; [apply chunk_text_concat|].
  intros j. unfold row_ok.
  cbn [ss_chunks ss_results ss_debugs ss_chunk_states].
  destruct (nth_error (chunk_text parsed chunk_size) j) as [chunk|] eqn:E.
  - assert (Hj : (j < length (chunk_text parsed chunk_size))%nat).
    { apply nth_error_Some. congruence. }
    now rewrite !nth_error_repeat_some by exact Hj.
  - apply nth_error_None in E.
    now rewrite !nth_error_repeat_none by exact E.
Qed.

Lemma rows_lengths (P : list srt_item -> list pyval -> Prop) (s : session) :
  (forall j, row_ok P s j) ->
  length (ss_results s) = length (ss_chunks s)
  /\ length (ss_debugs s) = length (ss_chunks s)
  /\ length (ss_chunk_states s) = length (ss_chunks s).
Proof.
  intros Hrows.
  assert (Hle : forall j, nth_error (ss_chunks s) j = None ->
                          nth_error (ss_results s) j = None
                          /\ nth_error (ss_debugs s) j = None
                          /\ nth_error (ss_chunk_states s) j = None).
  { intros j E. specialize (Hrows j). unfold row_ok in Hrows. rewrite E in Hrows.
    destruct (nth_error (ss_results s) j); [contradiction|].
    destruct (nth_error (ss_debugs s) j); [contradiction|].
    destruct (nth_error (ss_chunk_states s) j); [contradiction|].
    auto. }
  assert (Hge : forall j c, nth_error (ss_chunks s) j = Some c ->
                            nth_error (ss_results s) j <> None
                            /\ nth_error (ss_debugs s) j <> None
                            /\ nth_error (ss_chunk_states s) j <> None).
  { intros j c E.
    destruct (row_exists P s j c (Hrows j) E) as ((a & ->) & (b & ->) & (d & ->)).
    repeat split; discriminate. }
  destruct (Hle (length (ss_chunks s))) as (H1 & H2 & H3);
    [now apply nth_error_None|].
  apply nth_error_None in H1, H2, H3.
  assert (Hup : forall n, (n < length (ss_chunks s))%nat ->
                          (n < length (ss_results s))%nat
                          /\ (n < length (ss_debugs s))%nat
                          /\ (n < length (ss_chunk_states s))%nat).
  { intros n Hn. destruct (nth_error (ss_chunks s) n) as [c|] eqn:E;
      [|apply nth_error_None in E; lia].
    destruct (Hge n c E) as (G1 & G2 & G3).
    apply nth_error_Some in G1, G2, G3. auto. }
  destruct (length (ss_chunks s)) as [|n] eqn:En; [lia|].
  destruct (Hup n ltac:(lia)) as (U1 & U2 & U3). lia.
Qed.

(** ** The handlers *)

Section Handlers.

Variable World : Type.
Variable generate_content : World -> request -> (exn + string) * World.
Variable time_time : World -> Q * World.
Variable time_sleep : Q -> World -> World.
Variable json_loads : string -> option pyval.
Variable json_dumps : pyval -> string.
Variable stop_requested : World -> bool * World.
Variable str_of : pyval -> string.

Let start :=
  start_translation World generate_content time_time time_sleep json_loads
                    json_dumps stop_requested str_of.

Let retry :=
  retry_chunk World generate_content time_time time_sleep json_loads
              json_dumps str_of.

(** The handler of the start button, for any property [P] that the
    results of [translate_chunk] and the untranslated texts have. *)
Lemma start_translation_general (P : list srt_item -> list pyval -> Prop)
    (content : string) (chunk_size : Z) (src_lang tgt_lang : string)
    (enable_reasoning : bool) (s0 : session) (w : World) :
  (forall chunk guide st,
      exists out dbg st',
        translate_chunk World generate_content time_time time_sleep
                        json_loads json_dumps (texts_of_chunk chunk)
                        src_lang tgt_lang guide enable_reasoning st
        = (Some (out, dbg), st')
        /\ P chunk out) ->
  (forall chunk, P chunk (map PStr (texts_of_chunk chunk))) ->
  exists s' st,
    run World (start content chunk_size src_lang tgt_lang enable_reasoning s0) w
    = (inr s', st)
    /\ (parse_srt content = [] -> s' = s0)
    /\ (parse_srt content <> [] ->
        consistent P s'
        /\ ss_parsed_srt s' = parse_srt content
        /\ ss_chunks s' = chunk_text (parse_srt content) chunk_size
        /\ ss_is_running s' = false
        /\ exists safe,
             ss_final_srt_content s'
             = rebuild_srt_values str_of (parse_srt content) safe
             /\ Forall2 (fun entry chunk => P chunk entry) safe
                        (chunk_text (parse_srt content) chunk_size)).
Proof.
  intros Htr Hself. unfold start, start_translation, run.
  destruct (parse_srt content) as [|r parsed'] eqn:Eparse.
  - unfold ret. exists s0. eexists. split; [reflexivity|].
    split; [reflexivity | intros H; contradiction].
  - set (parsed := r :: parsed') in *.
    unfold bind at 1. unfold now at 1. cbn [fst snd].
    destruct (time_time w) as [t0 w0]. unfold bind at 1.
    cbn [ss_chunks ss_context_guide].
    destruct (translation_loop_consistent World generate_content time_time
                time_sleep json_loads json_dumps stop_requested P src_lang
                tgt_lang enable_reasoning Htr (ss_context_guide s0)
                (chunk_text parsed chunk_size) 0
                (mk_session (chunk_text parsed chunk_size)
                   (repeat None (length (chunk_text parsed chunk_size)))
                   (repeat None (length (chunk_text parsed chunk_size)))
                   parsed
                   (repeat (mk_chunk_state WAITING 0)
                           (length (chunk_text parsed chunk_size)))
                   true (ss_context_guide s0) (ss_final_srt_content s0))
                (w0, []))
      as (s1 & st1 & Eloop & Hcons1 & Hc1 & Hp1).
    + reflexivity.
    + apply initial_session_consistent.
    + rewrite Eloop.
      destruct (store_final_rows str_of P Hself s1 Hcons1) as (safe & Efin & Hsafe).
      rewrite Efin. unfold bind at 1. unfold sleep at 1, ret. cbn [fst snd].
      eexists. eexists. split; [reflexivity|].
      split; [intros H; discriminate|]. intros _.
      cbn [ss_chunks ss_parsed_srt] in Hc1, Hp1.
      cbn [with_is_running ss_parsed_srt ss_chunks ss_is_running
           ss_final_srt_content ss_results ss_debugs ss_chunk_states
           ss_context_guide].
      split.
      { destruct Hcons1 as [Hcat Hrows]. split; [exact Hcat|].
        intros j. apply (row_ok_agree P s1 _ j); try reflexivity. apply Hrows. }
      split; [exact Hp1|]. split; [exact Hc1|]. split; [reflexivity|].
      exists safe. rewrite Hp1. split; [reflexivity|]. now rewrite <- Hc1.
Qed.

(** X25.  The translation step never raises and keeps the subtitles
    aligned: whatever the generation call answers and whenever a stop is
    requested, the final text holds one block for each parsed record, in
    order, with the index and the time range of that record.  With no
    record parsed the session is left as it was. *)
Theorem start_translation_keeps_timing (content : string) (chunk_size : Z)
    (src_lang tgt_lang : string) (enable_reasoning : bool) (s0 : session)
    (w : World) :
  exists s' st,
    run World (start content chunk_size src_lang tgt_lang enable_reasoning s0) w
    = (inr s', st)
    /\ (parse_srt content = [] -> s' = s0)
    /\ (parse_srt content <> [] ->
        ss_parsed_srt s' = parse_srt content
        /\ ss_is_running s' = false
        /\ keeps_timing (parse_srt content) (ss_final_srt_content s')).
Proof.
  destruct (start_translation_general same_length content chunk_size src_lang
              tgt_lang enable_reasoning s0 w)
    as (s' & st & Hrun & Hnone & Hsome).
  - intros chunk guide st.
    destruct (translate_chunk_at World generate_content time_time time_sleep
                json_loads json_dumps (texts_of_chunk chunk) src_lang tgt_lang
                guide enable_reasoning st)
      as (out & dbg & st' & E & Hlen & _).
    exists out, dbg, st'. split; [exact E|].
    unfold same_length, texts_of_chunk in *. now rewrite Hlen, length_map.
  - intros chunk. unfold same_length, texts_of_chunk. now rewrite !length_map.
  - exists s', st. split; [exact Hrun|]. split; [exact Hnone|].
    intros Hne. destruct (Hsome Hne) as (_ & Hp & _ & Hr & safe & -> & Hsafe).
    split; [exact Hp|]. split; [exact Hr|].
    apply rebuild_srt_values_timing.
    rewrite (concat_same_length safe _ Hsafe). now rewrite chunk_text_concat.
Qed.

(** X26.  When every generation call raises, the translation step still
    completes, and its final text is the subtitle text of the parsed
    records with their own texts: the input comes out untranslated and
    in normal form, whenever a stop is requested or not. *)
Theorem start_translation_all_calls_fail (content : string) (chunk_size : Z)
    (src_lang tgt_lang : string) (enable_reasoning : bool) (s0 : session)
    (w : World) :
  (forall w' r, exists e, fst (generate_content w' r) = inl e) ->
  parse_srt content <> [] ->
  exists s' st,
    run World (start content chunk_size src_lang tgt_lang enable_reasoning s0) w
    = (inr s', st)
    /\ ss_final_srt_content s' = srt_text (parse_srt content).
Proof.
  intros Hraise Hne.
  destruct (start_translation_general untranslated content chunk_size src_lang
              tgt_lang enable_reasoning s0 w)
    as (s' & st & Hrun & _ & Hsome).
  - intros chunk guide st.
    destruct (translate_chunk_at World generate_content time_time time_sleep
                json_loads json_dumps (texts_of_chunk chunk) src_lang tgt_lang
                guide enable_reasoning st)
      as (out & dbg & st' & E & _ & Hout).
    exists out, dbg, st'. split; [exact E | exact (Hout Hraise)].
  - intros chunk. reflexivity.
  - exists s', st. split; [exact Hrun|].
    destruct (Hsome Hne) as (_ & _ & _ & _ & safe & -> & Hsafe).
    apply rebuild_srt_values_untranslated.
    rewrite (concat_untranslated safe _ Hsafe). now rewrite chunk_text_concat.
Qed.

(** X27.  After the translation step the bookkeeping of the session is
    in order: results, diagnostics and chunk states have one entry per
    chunk; a chunk either has no result, no diagnostics and the state
    WAITING, or has a result with one entry per record, diagnostics, and
    a state that is SUCCESS exactly when the diagnostics say Success
    (ERROR otherwise) with their duration; no chunk is left RUNNING. *)
Theorem start_translation_bookkeeping (content : string) (chunk_size : Z)
    (src_lang tgt_lang : string) (enable_reasoning : bool) (s0 : session)
    (w : World) :
  parse_srt content <> [] ->
  exists s' st,
    run World (start content chunk_size src_lang tgt_lang enable_reasoning s0) w
    = (inr s', st)
    /\ ss_chunks s' = chunk_text (parse_srt content) chunk_size
    /\ consistent same_length s'
    /\ length (ss_results s') = length (ss_chunks s')
    /\ length (ss_debugs s') = length (ss_chunks s')
    /\ length (ss_chunk_states s') = length (ss_chunks s')
    /\ Forall (fun c => cs_status c <> RUNNING) (ss_chunk_states s').
Proof.
  intros Hne.
  destruct (start_translation_general same_length content chunk_size src_lang
              tgt_lang enable_reasoning s0 w)
    as (s' & st & Hrun & _ & Hsome).
  - intros chunk guide st.
    destruct (translate_chunk_at World generate_content time_time time_sleep
                json_loads json_dumps (texts_of_chunk chunk) src_lang tgt_lang
                guide enable_reasoning st)
      as (out & dbg & st' & E & Hlen & _).
    exists out, dbg, st'. split; [exact E|].
    unfold same_length, texts_of_chunk in *. now rewrite Hlen, length_map.
  - intros chunk. unfold same_length, texts_of_chunk. now rewrite !length_map.
  - exists s', st. split; [exact Hrun|].
    destruct (Hsome Hne) as (Hcons & _ & Hc & _).
    split; [exact Hc|]. split; [exact Hcons|].
    destruct Hcons as [_ Hrows].
    destruct (rows_lengths same_length s' Hrows) as (L1 & L2 & L3).
    split; [exact L1|]. split; [exact L2|]. split; [exact L3|].
    apply Forall_forall. intros c Hin.
    apply In_nth_error in Hin as [j Hj].
    specialize (Hrows j). unfold row_ok in Hrows. rewrite Hj in Hrows.
    destruct (nth_error (ss_chunks s') j); [|
      destruct (nth_error (ss_results s') j);
      destruct (nth_error (ss_debugs s') j); contradiction].
    destruct (nth_error (ss_results s') j) as [[res|]|]; try contradiction;
      destruct (nth_error (ss_debugs s') j) as [[d|]|]; try contradiction.
    + destruct Hrows as (_ & -> & _). destruct (is_success d); discriminate.
    + rewrite Hrows. discriminate.
Qed.

(** X28.  A retry keeps the session in order and the subtitles aligned:
    in a session whose bookkeeping is in order, retrying a chunk that
    exists never raises, writes only the row of that chunk, and stores a
    final text with one block for each parsed record, in order, with the
    index and the time range of that record. *)
Theorem retry_chunk_keeps_timing (i : nat) (src_lang tgt_lang : string)
    (enable_reasoning : bool) (s : session) (w : World) :
  consistent same_length s ->
  (i < length (ss_chunks s))%nat ->
  exists s' st,
    run World (retry i src_lang tgt_lang enable_reasoning s) w = (inr s', st)
    /\ consistent same_length s'
    /\ ss_chunks s' = ss_chunks s
    /\ ss_parsed_srt s' = ss_parsed_srt s
    /\ (forall j, j <> i ->
                  nth_error (ss_results s') j = nth_error (ss_results s) j)
    /\ keeps_timing (ss_parsed_srt s) (ss_final_srt_content s').
Proof.
  intros Hcons Hi. unfold retry, retry_chunk, run, fetch.
  destruct (nth_error (ss_chunks s) i) as [chunk|] eqn:Echunk;
    [|apply nth_error_None in Echunk; lia].
  unfold bind at 1.
  destruct (translate_chunk_at World generate_content time_time time_sleep
              json_loads json_dumps (texts_of_chunk chunk) src_lang tgt_lang
              (ss_context_guide s) enable_reasoning (w, []))
    as (out & dbg & st' & E & Hlen & _).
  rewrite E.
  assert (HP : same_length chunk out).
  { unfold same_length, texts_of_chunk in *. now rewrite Hlen, length_map. }
  pose proof Hcons as [Hcat Hrows].
  destruct (row_exists same_length s i chunk (Hrows i) Echunk) as (_ & _ & Hci).
  destruct (record_outcome_consistent same_length i chunk out dbg s s)
    as (s3 & Erec & Hcons3 & Hc3 & Hp3 & _ & _ & Hr3);
    try assumption; try reflexivity.
  rewrite Erec. unfold ret.
  destruct (store_final_rows str_of same_length) with (s := s3)
    as (safe & Efin & Hsafe).
  - intros c. unfold same_length, texts_of_chunk. now rewrite !length_map.
  - exact Hcons3.
  - rewrite Efin. eexists. eexists. split; [reflexivity|].
    cbn [ss_chunks ss_parsed_srt ss_results ss_final_srt_content].
    split.
    { destruct Hcons3 as [Hcat3 Hrows3]. split; [exact Hcat3|].
      intros j. apply (row_ok_agree same_length s3 _ j); try reflexivity.
      apply Hrows3. }
    split; [exact Hc3|]. split; [exact Hp3|]. split; [exact Hr3|].
    rewrite Hp3. apply rebuild_srt_values_timing.
    rewrite (concat_same_length safe _ Hsafe), Hc3, Hcat. reflexivity.
Qed.

End Handlers.

Lemma start_translation_all_calls_fail_witness :
  exists s' st,
    run Failing.World
        (start_translation Failing.World Failing.generate_content
           Failing.time_time Failing.time_sleep Json.loads Scripted.json_dumps
           never_stop str_unknown (srt_text two_blocks) 1500
           "English" "Korean" false fresh_session) tt
    = (inr s', st)
    /\ ss_final_srt_content s' = srt_text (parse_srt (srt_text two_blocks)).
Proof.
  apply (start_translation_all_calls_fail Failing.World
           Failing.generate_content Failing.time_time Failing.time_sleep
           Json.loads Scripted.json_dumps never_stop str_unknown
           (srt_text two_blocks) 1500 "English" "Korean" false
           fresh_session tt).
  - intros w' r. exists (GenerationError "quota exceeded"). reflexivity.
  - vm_compute. discriminate.
Defined.

Lemma start_translation_bookkeeping_witness :
  exists s' st,
    run Scripted.World
        (start_translation Scripted.World Scripted.generate_content
           Scripted.time_time Scripted.time_sleep Json.loads
           Scripted.json_dumps never_stop str_unknown (srt_text two_blocks)
           1500 "English" "Korean" false fresh_session)
        [inr Responses.shuffled_response]
    = (inr s', st)
    /\ ss_chunks s' = chunk_text (parse_srt (srt_text two_blocks)) 1500
    /\ consistent same_length s'
    /\ length (ss_results s') = length (ss_chunks s')
    /\ length (ss_debugs s') = length (ss_chunks s')
    /\ length (ss_chunk_states s') = length (ss_chunks s')
    /\ Forall (fun c => cs_status c <> RUNNING) (ss_chunk_states s').
Proof.
  apply (start_translation_bookkeeping Scripted.World
           Scripted.generate_content Scripted.time_time Scripted.time_sleep
           Json.loads Scripted.json_dumps never_stop str_unknown
           (srt_text two_blocks) 1500 "English" "Korean" false
           fresh_session [inr Responses.shuffled_response]).
  vm_compute. discriminate.
Defined.

Lemma retry_chunk_keeps_timing_witness :
  exists s' st,
    run Scripted.World
        (retry_chunk Scripted.World Scripted.generate_content
           Scripted.time_time Scripted.time_sleep Json.loads
           Scripted.json_dumps str_unknown 0 "English" "Korean" false
           waiting_session)
        [inr Responses.shuffled_response]
    = (inr s', st)
    /\ consistent same_length s'
    /\ ss_chunks s' = ss_chunks waiting_session
    /\ ss_parsed_srt s' = ss_parsed_srt waiting_session
    /\ (forall j, j <> 0%nat ->
                  nth_error (ss_results s') j
                  = nth_error (ss_results waiting_session) j)
    /\ keeps_timing (ss_parsed_srt waiting_session) (ss_final_srt_content s').
Proof.
  apply (retry_chunk_keeps_timing Scripted.World Scripted.generate_content
           Scripted.time_time Scripted.time_sleep Json.loads
           Scripted.json_dumps str_unknown 0 "English" "Korean" false
           waiting_session [inr Responses.shuffled_response]).
  - split; [reflexivity|].
    intros [|[|j]]; unfold row_ok; cbn; try reflexivity; exact I.
  - cbn. lia.
Defined.

End PipelineFacts.

(* ================================================================== *)
(** * Settings *)
(* ================================================================== *)

Module SettingsFacts.
Import PyStr PyVal Settings.

Lemma first_preferred_spec (models : list string) :
  forall i,
    match first_preferred models i with
    | Some k =>
        (i <= k < i + length models)%nat
        /\ (exists m, nth_error models (k - i) = Some m /\ preferred m = true)
        /\ forall j m, (j < k - i)%nat -> nth_error models j = Some m ->
                       preferred m = false
    | None => forall m, In m models -> preferred m = false
    end.
Proof.
  induction models as [|m0 models IH]; intros i; cbn [first_preferred].
  - intros m [].
  - destruct (preferred m0) eqn:E0.
    + split; [cbn [length]; lia|]. split.
      * exists m0. now rewrite Nat.sub_diag.
      * intros j m Hj. lia.
    + specialize (IH (S i)).
      destruct (first_preferred models (S i)) as [k|].
      * destruct IH as (Hk & (m & Hm & Hp) & Hbefore).
        split; [cbn [length]; lia|]. split.
        -- exists m. replace (k - i)%nat with (S (k - S i)) by lia.
           split; assumption.
        -- intros j m' Hj Hnth. destruct j as [|j].
           ++ injection Hnth as <-. exact E0.
           ++ apply (Hbefore j m'); [lia | exact Hnth].
      * intros m [<- | Hin]; [exact E0 | now apply IH].
Qed.

(** X29.  The index of the model offered by default is always a valid
    position of a non-empty model list: it is the position of the first
    model whose name contains flash or pro, and 0 when no name does. *)
Theorem default_index_valid (models : list string) :
  models <> [] ->
  (default_index models < length models)%nat
  /\ (forall j m, (j < default_index models)%nat ->
                  nth_error models j = Some m -> preferred m = false)
  /\ ((exists m, nth_error models (default_index models) = Some m
                  /\ preferred m = true)
      \/ (default_index models = 0%nat
          /\ forall m, In m models -> preferred m = false)).
Proof.
  intros Hne. unfold default_index.
  pose proof (first_preferred_spec models 0) as H.
  destruct (first_preferred models 0) as [k|].
  - destruct H as (Hk & (m & Hm & Hp) & Hbefore).
    rewrite Nat.sub_0_r in Hm, Hbefore.
    split; [lia|]. split; [exact Hbefore|].
    left. now exists m.
  - split; [destruct models; [contradiction | cbn [length]; lia]|].
    split; [intros j m Hj; lia|].
    right. split; [reflexivity | exact H].
Qed.

Lemma default_index_valid_witness :
  (default_index model_names < length model_names)%nat.
Proof.
  apply (default_index_valid model_names). discriminate.
Defined.

(** ** The defaults of the session *)

Lemma lookup_app (k : string) (a b : list (string * pyval)) :
  lookup k (a ++ b)
  = match lookup k a with
    | Some v => Some v
    | None => lookup k b
    end.
Proof.
  induction a as [|[k' v] a IH]; [reflexivity|].
  cbn [app lookup]. destruct (String.eqb k k'); [reflexivity | exact IH].
Qed.

Lemma fill_defaults_lookup (entries : list (string * pyval)) :
  forall session_state k,
    lookup k (fill_defaults entries session_state)
    = match lookup k session_state with
      | Some v => Some v
      | None => lookup k entries
      end.
Proof.
  induction entries as [|[key value] rest IH]; intros s k;
    cbn [fill_defaults].
  - now destruct (lookup k s).
  - rewrite IH. cbn [lookup].
    destruct (lookup key s) as [v0|] eqn:Ekey.
    + destruct (lookup k s) eqn:Ek; [reflexivity|].
      destruct (String.eqb_spec k key) as [-> | Hne]; [congruence | reflexivity].
    + rewrite lookup_app. cbn [lookup].
      destruct (lookup k s); [reflexivity|].
      now destruct (String.eqb k key).
Qed.

Lemma fill_defaults_present (entries : list (string * pyval)) :
  forall session_state,
    (forall key value, In (key, value) entries ->
                       lookup key session_state <> None) ->
    fill_defaults entries session_state = session_state.
Proof.
  induction entries as [|[key value] rest IH]; intros s H; [reflexivity|].
  cbn [fill_defaults].
  destruct (lookup key s) eqn:E.
  - apply IH. intros k v Hin. apply (H k v). now right.
  - exfalso. apply (H key value); [now left | exact E].
Qed.

Lemma lookup_in (k : string) (v : pyval) (l : list (string * pyval)) :
  In (k, v) l -> lookup k l <> None.
Proof.
  induction l as [|[k' v'] l IH]; intros Hin; [contradiction|].
  cbn [lookup]. destruct (String.eqb_spec k k') as [-> | Hne]; [discriminate|].
  destruct Hin as [Heq | Hin]; [congruence | now apply IH].
Qed.

(** X30.  [init_session_state] fills in what is missing and touches
    nothing else: afterwards every key reads as it did before when it was
    present, and as its default when it was absent (keys that are neither
    present nor defaults stay absent); running it again changes
    nothing. *)
Theorem init_session_state_keeps_and_fills
    (session_state : list (string * pyval)) :
  (forall k,
      lookup k (init_session_state session_state)
      = match lookup k session_state with
        | Some v => Some v
        | None => lookup k defaults
        end)
  /\ init_session_state (init_session_state session_state)
     = init_session_state session_state.
Proof.
  split.
  - intros k. apply fill_defaults_lookup.
  - unfold init_session_state at 1. apply fill_defaults_present.
    intros key value Hin. unfold init_session_state.
    rewrite fill_defaults_lookup.
    destruct (lookup key session_state); [discriminate|].
    now apply (lookup_in key value).
Qed.

End SettingsFacts.
